(** * retrosai-gamelist: link resolution, filtering and batched rendering

    A shallow embedding of the catalog browser's scripts:
    - [script.js]  (module [Script]): override map, alias table, slug fallback;
    - the first script of [unnamed/part_000] (module [Modern]): filter state,
      letter buckets, batched "load more" rendering, debounced search;
    - [unnamed/part_001] (module [Legacy]): alias table and slug, no override map.

    JavaScript strings are sequences of UTF-16 code units and the regular
    expressions of the scripts carry no [u] flag, so they work on code
    units: a string is a [list N] here. *)

From Stdlib Require Import NArith ZArith List Lia Ascii String.
From stdpp Require Import base option list gmap.
Import ListNotations.

Local Open Scope N_scope.

(** ** Strings *)

Abbreviation jsstring := (list N).

(** An ASCII literal as code units. *)
Definition u16 (s : string) : jsstring :=
  map N_of_ascii (list_ascii_of_string s).

(** A string is truthy when it is not empty. *)
Definition truthy (s : jsstring) : bool :=
  match s with [] => false | _ :: _ => true end.

(** *** Character classes of the regular expressions *)

Definition inRange (lo hi c : N) : bool := (lo <=? c) && (c <=? hi).

(** [\s], and the code units removed by [trim()]: WhiteSpace and
    LineTerminator of ECMAScript. *)
Definition isSpace (c : N) : bool :=
  inRange 9 13 c || (c =? 32) || (c =? 160) || (c =? 5760)
  || inRange 8192 8202 c || (c =? 8232) || (c =? 8233) || (c =? 8239)
  || (c =? 8287) || (c =? 12288) || (c =? 65279).

(** [.] matches every code unit but these. *)
Definition isLineTerminator (c : N) : bool :=
  (c =? 10) || (c =? 13) || (c =? 8232) || (c =? 8233).

(** [[\(\[\{]] and [[\)\]\}]]. *)
Definition isOpener (c : N) : bool := (c =? 40) || (c =? 91) || (c =? 123).
Definition isCloser (c : N) : bool := (c =? 41) || (c =? 93) || (c =? 125).

(** The trademark, registered and copyright signs: U+2122, U+00AE, U+00A9. *)
Definition isTrademark (c : N) : bool := (c =? 8482) || (c =? 174) || (c =? 169).

(** [[\u0300-\u036f]], the combining diacritical marks. *)
Definition isMark (c : N) : bool := inRange 768 879 c.

(** [[a-z0-9]] and [[A-Z]]. *)
Definition isAlnum (c : N) : bool := inRange 97 122 c || inRange 48 57 c.
Definition isUpperAZ (c : N) : bool := inRange 65 90 c.

(** [[^a-z0-9]]. *)
Definition notAlnum (c : N) : bool := negb (isAlnum c).

Definition isHyphen (c : N) : bool := c =? 45.

Definition isAscii (c : N) : bool := c <? 128.

(** *** String operations written with regular expressions in the source *)

Fixpoint startsWith (p s : jsstring) : bool :=
  match p, s with
  | [], _ => true
  | _ :: _, [] => false
  | a :: p', b :: s' => (a =? b) && startsWith p' s'
  end.

(** [s.split(sep)[0]] for a non-empty separator: the part of [s] before the
    first occurrence of [sep], all of [s] when there is none. *)
Fixpoint splitHead (sep s : jsstring) : jsstring :=
  match s with
  | [] => []
  | c :: s' => if startsWith sep s then [] else c :: splitHead sep s'
  end.

Fixpoint dropWhile (p : N -> bool) (s : jsstring) : jsstring :=
  match s with
  | [] => []
  | c :: s' => if p c then dropWhile p s' else s
  end.

(** [s] without its trailing run of code units of the class. *)
Fixpoint dropEndWhile (p : N -> bool) (s : jsstring) : jsstring :=
  match s with
  | [] => []
  | c :: s' =>
      match dropEndWhile p s' with
      | [] => if p c then [] else [c]
      | r => c :: r
      end
  end.

(** [s.trim()]. *)
Definition trim (s : jsstring) : jsstring :=
  dropEndWhile isSpace (dropWhile isSpace s).

(** [s.replace(/[class]/g, "")]. *)
Definition removeAll (p : N -> bool) (s : jsstring) : jsstring :=
  List.filter (fun c => negb (p c)) s.

(** [s.replace(/c/g, r)] for a single code unit [c]. *)
Definition replaceChar (c : N) (r : jsstring) (s : jsstring) : jsstring :=
  flat_map (fun d => if d =? c then r else [d]) s.

Definition headIs (p : N -> bool) (s : jsstring) : bool :=
  match s with [] => false | c :: _ => p c end.

(** [s.replace(/[class]+/g, r)]: every maximal run of code units of the
    class becomes one [r].  The replacement is written at the last code
    unit of the run. *)
Fixpoint replaceRuns (p : N -> bool) (r : jsstring) (s : jsstring) : jsstring :=
  match s with
  | [] => []
  | c :: s' =>
      if p c then
        if headIs p s' then replaceRuns p r s' else r ++ replaceRuns p r s'
      else c :: replaceRuns p r s'
  end.

(** [.*?[\)\]\}]] from the code unit after an opener: lazily up to the first
    closer, never across a line terminator.  The result is what follows the
    closer. *)
Fixpoint afterCloser (s : jsstring) : option jsstring :=
  match s with
  | [] => None
  | c :: s' =>
      if isCloser c then Some s'
      else if isLineTerminator c then None
      else afterCloser s'
  end.

(** One attempt of [/\s*[\(\[\{].*?[\)\]\}]\s*/] at the start of [s]: the
    greedy [\s*] takes the whole run of white space (a shorter run is never
    followed by an opener), then an opener, the lazy body, the first closer
    and again all white space.  The result is what follows the match. *)
Definition groupAt (s : jsstring) : option jsstring :=
  match dropWhile isSpace s with
  | o :: body =>
      if isOpener o then
        match afterCloser body with
        | Some rest => Some (dropWhile isSpace rest)
        | None => None
        end
      else None
  | [] => None
  end.

(** [s.replace(/\s*[\(\[\{].*?[\)\]\}]\s*/g, " ")]: left to right, the
    leftmost match is replaced by one space and the scan goes on after it;
    [skip] counts the code units of the current match still to be passed. *)
Fixpoint replaceGroupsFrom (skip : nat) (s : jsstring) : jsstring :=
  match s with
  | [] => []
  | c :: s' =>
      match skip with
      | S k => replaceGroupsFrom k s'
      | O =>
          match groupAt s with
          | Some rest =>
              32 :: replaceGroupsFrom (length s' - length rest) s'
          | None => c :: replaceGroupsFrom O s'
          end
      end
  end.

Definition replaceGroups (s : jsstring) : jsstring := replaceGroupsFrom O s.

(** [s.replace(/^-+|-+$/g, "")]: the first alternative only matches at
    index 0 and takes the leading run; the second matches where the rest of
    the string is hyphens only. *)
Definition trimHyphens (s : jsstring) : jsstring :=
  dropEndWhile isHyphen (dropWhile isHyphen s).

(** [s.replace(/-{2,}/g, "-")]: a run of two or more hyphens becomes one; a
    single hyphen is not matched and stays, which is the same string as
    replacing every run by one hyphen. *)
Definition collapseHyphens (s : jsstring) : jsstring :=
  replaceRuns isHyphen [45] s.

(** [hay.includes(needle)]. *)
Fixpoint includes (hay needle : jsstring) : bool :=
  startsWith needle hay
  || match hay with
     | [] => false
     | _ :: hay' => includes hay' needle
     end.

(** [s.charAt(0)]: the first code unit as a string, the empty string for
    the empty string. *)
Definition charAt0 (s : jsstring) : jsstring := take 1 s.

(** ** The engine's built-ins

    [String.prototype.normalize], [toLowerCase], [toUpperCase] and
    [localeCompare] are tables of the JavaScript engine, not code of the
    scripts, and so is the text a built-in function converts to.  They are
    an interface here; its laws are what ECMAScript fixes for ASCII text. *)

Definition asciiLower (c : N) : N := if isUpperAZ c then c + 32 else c.
Definition asciiUpper (c : N) : N := if inRange 97 122 c then c - 32 else c.

Class Engine := {
  normalizeNFKD : jsstring -> jsstring;
  toLowerCase : jsstring -> jsstring;
  toUpperCase : jsstring -> jsstring;
  localeCompare : jsstring -> jsstring -> Z;
  objectFunctionText : jsstring;
  normalizeNFKD_ascii s : forallb isAscii s = true -> normalizeNFKD s = s;
  toLowerCase_ascii s : forallb isAscii s = true -> toLowerCase s = map asciiLower s;
  toUpperCase_ascii s : forallb isAscii s = true -> toUpperCase s = map asciiUpper s;
}.

(** [keys.sort((a, b) => a.localeCompare(b))]: the sort is stable, a key
    goes before the first key it does not compare greater than. *)
Fixpoint insertKey `{Engine} (k : jsstring) (l : list jsstring) : list jsstring :=
  match l with
  | [] => [k]
  | x :: l' => if (localeCompare k x <=? 0)%Z then k :: l else x :: insertKey k l'
  end.

Definition sortKeys `{Engine} (l : list jsstring) : list jsstring :=
  fold_right insertKey [] l.

(** ** Loaded data *)

(** The value under a platform key of the parsed [games.json].  [Titles] is
    an array of title strings; the other constructors are the JSON values
    that are not an array.  Of those only the truthiness is observed: a
    number is falsy when it is zero, a string when it is empty. *)
Inductive Entry :=
| Titles (ts : list jsstring)
| ENull
| EBool (b : bool)
| ENumber (n : Z)
| EString (s : jsstring)
| EObject.

(** [games]: the own properties in the order of [Object.keys]. *)
Abbreviation Catalog := (list (jsstring * Entry)).

(** [linkMap], [coverMap]: platform to title to URL. *)
Abbreviation UrlMap := (gmap jsstring (gmap jsstring jsstring)).

(** Reads of [games], [linkMap] and [coverMap] find own properties: their
    keys are the platform names and titles of the data files, taken not to
    be names of members every object inherits.  Where a statement depends
    on a name that is no own key, it says so with [inheritedName]. *)
Fixpoint getEntry (g : Catalog) (p : jsstring) : option Entry :=
  match g with
  | [] => None
  | (k, v) :: g' => if bool_decide (k = p) then Some v else getEntry g' p
  end.

Definition objectKeys (g : Catalog) : list jsstring := map fst g.

(** [m?.[platform]?.[title]], [None] for [undefined]. *)
Definition lookup2 (m : UrlMap) (platform title : jsstring) : option jsstring :=
  m !! platform ≫= λ inner, inner !! title.

(** Truthiness of a value of [games]. *)
Definition entryTruthy (v : Entry) : bool :=
  match v with
  | Titles _ => true
  | ENull => false
  | EBool b => b
  | ENumber n => negb (n =? 0)%Z
  | EString s => truthy s
  | EObject => true
  end.

(** A call that may throw. *)
Inductive result (A : Type) :=
| Ok (a : A)
| TypeError.
Arguments Ok {A} a.
Arguments TypeError {A}.

Definition bind {A B} (r : result A) (k : A -> result B) : result B :=
  match r with
  | Ok a => k a
  | TypeError => TypeError
  end.

(** [(games[p] || [])]. *)
Definition entryOrEmpty (g : Catalog) (p : jsstring) : Entry :=
  match getEntry g p with
  | Some v => if entryTruthy v then v else Titles []
  | None => Titles []
  end.

(** [v.filter(f)]: only an array has a [filter] method. *)
Definition filterEntry (f : jsstring -> bool) (v : Entry) : result (list jsstring) :=
  match v with
  | Titles ts => Ok (List.filter f ts)
  | _ => TypeError
  end.

(** ** The slug fallback of script.js and part_001 (the same text in both) *)

Definition igdbBase : jsstring := u16 "https://www.igdb.com/games/".

(** The own properties of [aliasSlugMap]. *)
Definition aliasSlugMap : gmap jsstring jsstring :=
  <[u16 "unsquadron" := u16 "u-n-squadron"]>
  (<[u16 "area88" := u16 "u-n-squadron"]>
  (<[u16 "mariokart8" := u16 "mario-kart-8"]> ∅)).

(** What [slugifyIGDB] returns: a string, or the function [Object] itself,
    which [aliasSlugMap] inherits under the key [constructor]. *)
Inductive SlugValue :=
| SlugText (s : jsstring)
| ObjectFunction.

Section Slug.
Context `{Engine}.

(** The value in a template literal. *)
Definition slugText (v : SlugValue) : jsstring :=
  match v with
  | SlugText s => s
  | ObjectFunction => objectFunctionText
  end.

Definition normalizeKey (s : jsstring) : jsstring :=
  removeAll notAlnum
    (toLowerCase (removeAll isMark (normalizeNFKD s))).

Definition preCleanTitle (title : jsstring) : jsstring :=
  let t := splitHead (u16 " / ") title in
  let t := replaceGroups t in
  let t := removeAll isTrademark t in
  trim (replaceRuns isSpace [32] t).

(** The last five calls of [slugifyIGDB], shared by the three scripts. *)
Definition hyphenate (s : jsstring) : jsstring :=
  collapseHyphens
    (trimHyphens
      (replaceRuns notAlnum [45]
        (toLowerCase (removeAll isMark (normalizeNFKD s))))).

(** The generation path: what [slugifyIGDB] returns past the alias test. *)
Definition generateSlug (cleaned : jsstring) : jsstring :=
  hyphenate (replaceChar 43 (u16 " plus ") (replaceChar 38 (u16 " and ") cleaned)).

(** [aliasSlugMap[key]] when it is truthy.  A key is a string of
    [[a-z0-9]], and the one inherited member with such a name is
    [constructor]. *)
Definition aliasHit (key : jsstring) : option SlugValue :=
  match aliasSlugMap !! key with
  | Some slug => if truthy slug then Some (SlugText slug) else None
  | None =>
      if bool_decide (key = u16 "constructor") then Some ObjectFunction else None
  end.

Definition slugifyIGDB (title : jsstring) : SlugValue :=
  let cleaned := preCleanTitle title in
  let key := normalizeKey cleaned in
  match aliasHit key with
  | Some v => v
  | None => SlugText (generateSlug cleaned)
  end.
End Slug.

(** ** script.js *)
Module Script.
Section Script.
Context `{Engine}.
Variable games : Catalog.
Variables linkMap coverMap : UrlMap.

Definition getIGDBUrl (platform title : jsstring) : jsstring :=
  match lookup2 linkMap platform title with
  | Some m => if truthy m then m else igdbBase ++ slugText (slugifyIGDB title)
  | None => igdbBase ++ slugText (slugifyIGDB title)
  end.

Definition getCoverUrl (platform title : jsstring) : option jsstring :=
  match lookup2 coverMap platform title with
  | Some u => if truthy u then Some u else None
  | None => None
  end.

(** A row of the list: the link's text, its [href] and the cover shown on
    hover. *)
Record Row := {
  rowTitle : jsstring;
  rowHref : jsstring;
  rowCover : option jsstring;
}.

Definition makeRow (p title : jsstring) : Row :=
  {| rowTitle := title; rowHref := getIGDBUrl p title; rowCover := getCoverUrl p title |}.

(** The [filter] callback of [render]. *)
Definition searchHit (searchTerm g : jsstring) : bool :=
  negb (truthy searchTerm) || includes (toLowerCase g) searchTerm.

Definition platformsOf (selectedPlatform : jsstring) : list jsstring :=
  if truthy selectedPlatform then [selectedPlatform] else sortKeys (objectKeys games).

(** The loop of [render]: a heading and its rows for every platform with
    at least one title left. *)
Fixpoint renderLoop (searchTerm : jsstring) (platforms : list jsstring)
  : result (list (jsstring * list Row)) :=
  match platforms with
  | [] => Ok []
  | p :: rest =>
      bind (filterEntry (searchHit searchTerm) (entryOrEmpty games p)) (fun titles =>
      bind (renderLoop searchTerm rest) (fun out =>
        Ok (match titles with
            | [] => out
            | _ :: _ => (p, map (makeRow p) titles) :: out
            end)))
  end.

(** [render()], from the values of the search box and the platform
    select. *)
Definition render (searchValue selectedPlatform : jsstring)
  : result (list (jsstring * list Row)) :=
  renderLoop (trim (toLowerCase searchValue)) (platformsOf selectedPlatform).

(** [bindControls]: the [input] event of the search box calls [render]
    itself, with the text the box has then.  The log has the result of
    every call, oldest first. *)
Definition onSearchInput (selectedPlatform : jsstring)
    (log : list (result (list (jsstring * list Row)))) (v : jsstring) :=
  log ++ [render v selectedPlatform].

Definition runInputs (selectedPlatform : jsstring) (values : list jsstring)
    (log : list (result (list (jsstring * list Row)))) :=
  fold_left (onSearchInput selectedPlatform) values log.
End Script.
End Script.

(** ** part_001: the slug without an override map *)
Module Legacy.
Section Legacy.
Context `{Engine}.
Variable games : Catalog.

(** The [href] of a game's link in [displayGames]. *)
Definition gameHref (game : jsstring) : jsstring :=
  igdbBase ++ slugText (slugifyIGDB game).

Definition searchHit (searchTerm g : jsstring) : bool :=
  negb (truthy searchTerm) || includes (toLowerCase g) searchTerm.

Fixpoint displayLoop (searchTerm : jsstring) (platforms : list jsstring)
  : result (list (jsstring * list (jsstring * jsstring))) :=
  match platforms with
  | [] => Ok []
  | p :: rest =>
      bind (filterEntry (searchHit searchTerm) (entryOrEmpty games p)) (fun filtered =>
      bind (displayLoop searchTerm rest) (fun out =>
        Ok (match filtered with
            | [] => out
            | _ :: _ => (p, map (fun g => (g, gameHref g)) filtered) :: out
            end)))
  end.

Definition displayGames (searchValue selectedPlatform : jsstring) :=
  displayLoop (trim (toLowerCase searchValue))
    (if truthy selectedPlatform then [selectedPlatform] else sortKeys (objectKeys games)).
End Legacy.
End Legacy.

(** ** The first script of part_000: filters, batches, debounce *)
Module Modern.

(** [state]; [compact] stands for [density === "compact"]. *)
Record State := {
  search : jsstring;
  platform : jsstring;
  letter : jsstring;
  compact : bool;
  chunk : nat;
}.

Definition initialState : State :=
  {| search := []; platform := []; letter := []; compact := false; chunk := 400 |}.

Definition setSearch (v : jsstring) (st : State) : State :=
  {| search := v; platform := platform st; letter := letter st;
     compact := compact st; chunk := chunk st |}.

(** A row made by [makeGameRow]: the link's text and [href]. *)
Record Row := {
  rowCompact : bool;
  rowTitle : jsstring;
  rowHref : jsstring;
}.

(** A platform's [<details>] with the variables of its [renderBatch]
    closure: [start], [step], the rows appended to [grid] so far, and the
    "Load more" button with the remaining count of its label when it is in
    the document. *)
Record Panel := {
  panelPlatform : jsstring;
  panelTitles : list jsstring;
  panelOpen : bool;
  start : nat;
  step : nat;
  grid : list Row;
  loadMore : option nat;
}.

Definition setButton (b : option nat) (p : Panel) : Panel :=
  {| panelPlatform := panelPlatform p; panelTitles := panelTitles p;
     panelOpen := panelOpen p; start := start p; step := step p;
     grid := grid p; loadMore := b |}.

(** The Map [filteredByPlatform] keeps the order of insertion; [set] on a
    key it has replaces the value in place. *)
Fixpoint mapSet (k : jsstring) (v : list jsstring) (m : list (jsstring * list jsstring))
  : list (jsstring * list jsstring) :=
  match m with
  | [] => [(k, v)]
  | (k', v') :: m' =>
      if bool_decide (k' = k) then (k, v) :: m' else (k', v') :: mapSet k v m'
  end.

(** What a pass of [render] leaves: the count of the results line and the
    panels of the list. *)
Record Page := {
  totalTitles : nat;
  panels : list Panel;
}.

Section Modern.
Context `{Engine}.
Variable GAMES : Catalog.
Variable LINKMAP : UrlMap.

Definition slugifyIGDB (title : jsstring) : jsstring :=
  let cleaned :=
    trim
      (replaceRuns isSpace [32]
        (replaceChar 43 (u16 " plus ")
          (replaceChar 38 (u16 " and ")
            (removeAll isTrademark
              (replaceGroups (splitHead (u16 " / ") title)))))) in
  hyphenate cleaned.

Definition toURL (p title : jsstring) : jsstring :=
  match lookup2 LINKMAP p title with
  | Some m => if truthy m then m else igdbBase ++ slugifyIGDB title
  | None => igdbBase ++ slugifyIGDB title
  end.

Definition firstLetterKey (title : jsstring) : jsstring :=
  let ch := toUpperCase (charAt0 (trim title)) in
  if existsb isUpperAZ ch then ch else u16 "#".

Definition platformKeys : list jsstring := sortKeys (objectKeys GAMES).

Definition titleMatchesFilters (st : State) (title : jsstring) : bool :=
  if truthy (search st) && negb (includes (toLowerCase title) (search st)) then false
  else if truthy (letter st) && negb (bool_decide (firstLetterKey title = letter st)) then false
  else true.

(** The first loop of [render]: [filteredByPlatform] and [totalTitles]. *)
Fixpoint filterLoop (st : State) (platforms : list jsstring)
    (filteredByPlatform : list (jsstring * list jsstring)) (total : nat)
  : result (list (jsstring * list jsstring) * nat) :=
  match platforms with
  | [] => Ok (filteredByPlatform, total)
  | p :: rest =>
      bind (filterEntry (titleMatchesFilters st) (entryOrEmpty GAMES p)) (fun filtered =>
        filterLoop st rest
          (match filtered with
           | [] => filteredByPlatform
           | _ :: _ => mapSet p filtered filteredByPlatform
           end)
          (total + length filtered)%nat)
  end.

Definition allPlatforms (st : State) : list jsstring :=
  if truthy (platform st) then [platform st] else platformKeys.

Definition applyFilters (st : State) : result (list (jsstring * list jsstring) * nat) :=
  filterLoop st (allPlatforms st) [] 0%nat.

Definition makeGameRow (st : State) (p title : jsstring) : Row :=
  {| rowCompact := compact st; rowTitle := title; rowHref := toURL p title |}.

(** [renderBatch()]: rows for [titles[start .. end-1]], then [start = end];
    the button goes once everything is rendered. *)
Definition renderBatch (st : State) (p : Panel) : Panel :=
  let titles := panelTitles p in
  let end_ := Nat.min (start p + step p) (length titles) in
  let rows := map (makeGameRow st (panelPlatform p))
                  (take (end_ - start p) (drop (start p) titles)) in
  let p' := {| panelPlatform := panelPlatform p; panelTitles := titles;
               panelOpen := panelOpen p; start := end_; step := step p;
               grid := grid p ++ rows; loadMore := loadMore p |} in
  if (length titles <=? end_)%nat then setButton None p' else p'.

(** The label is set, or the button removed, from [start] after a batch. *)
Definition remainingOf (p : Panel) : option nat :=
  if (start p <? length (panelTitles p))%nat
  then Some (length (panelTitles p) - start p)%nat
  else None.

(** A panel as [render] leaves it: the initial chunk, and the button when
    titles remain. *)
Definition newPanel (st : State) (p : jsstring) (titles : list jsstring) : Panel :=
  let p1 := renderBatch st
    {| panelPlatform := p; panelTitles := titles;
       panelOpen := truthy (platform st); start := 0; step := chunk st;
       grid := []; loadMore := None |} in
  match remainingOf p1 with
  | Some n => setButton (Some n) p1
  | None => p1
  end.

(** A click on "Load more"; there is nothing to click once the button is
    removed. *)
Definition clickLoadMore (st : State) (p : Panel) : option Panel :=
  match loadMore p with
  | None => None
  | Some _ =>
      let p1 := renderBatch st p in
      Some (setButton (remainingOf p1) p1)
  end.

Definition render (st : State) : result Page :=
  bind (applyFilters st) (fun '(filtered, total) =>
    Ok {| totalTitles := total;
          panels := map (fun '(p, titles) => newPanel st p titles) filtered |}).
End Modern.

(** *** The debounced search box

    [bindEvents] wraps the handler of the search box in [debounce(fn, 160)].
    The page is single threaded: an [input] event and a timer callback each
    run to completion.  Time is in milliseconds.  All timers of this model
    are set with the same delay, so the pending list is in order of both
    creation and due time. *)
Record World := {
  wState : State;
  searchBox : jsstring;            (* els.search.value *)
  clock : nat;
  timerVar : option nat;           (* [t] of the debounce closure *)
  nextTimer : nat;
  timers : list (nat * nat);       (* pending: identifier, due time *)
  renderLog : list State;          (* [state] at every call of [render], oldest first *)
}.

Definition debounceMs : nat := 160.

Definition clearTimeout (t : option nat) (pending : list (nat * nat)) : list (nat * nat) :=
  match t with
  | None => pending
  | Some id => List.filter (fun '(i, _) => negb (i =? id)%nat) pending
  end.

(** The user changes the text of the box to [v] and the [input] event runs
    the debounced handler: [clearTimeout(t); t = setTimeout(..., ms)]. *)
Definition onSearchInput (v : jsstring) (w : World) : World :=
  {| wState := wState w;
     searchBox := v;
     clock := clock w;
     timerVar := Some (nextTimer w);
     nextTimer := S (nextTimer w);
     timers := clearTimeout (timerVar w) (timers w) ++ [(nextTimer w, clock w + debounceMs)%nat];
     renderLog := renderLog w |}.

(** A timer callback: [state.search = e.target.value.trim().toLowerCase();
    render()], with the value the box has when the callback runs. *)
Definition fireTimer `{Engine} (w : World) (id : nat) : World :=
  let st := setSearch (toLowerCase (trim (searchBox w))) (wState w) in
  {| wState := st;
     searchBox := searchBox w;
     clock := clock w;
     timerVar := timerVar w;
     nextTimer := nextTimer w;
     timers := List.filter (fun '(i, _) => negb (i =? id)%nat) (timers w);
     renderLog := renderLog w ++ [st] |}.

(** The event loop up to time [now]: the callbacks of the timers that are
    due run, the earliest first.  In [run] this comes before the [input]
    event of that time: there the loop is on time.  [setTimeout] gives a
    least delay only; the loop that may take an event before a timer that
    is due is [runTurns]. *)
Definition advance `{Engine} (now : nat) (w : World) : World :=
  let due := List.filter (fun '(_, d) => (d <=? now)%nat) (timers w) in
  let w' := fold_left fireTimer (map fst due) w in
  {| wState := wState w'; searchBox := searchBox w'; clock := Nat.max (clock w') now;
     timerVar := timerVar w'; nextTimer := nextTimer w'; timers := timers w';
     renderLog := renderLog w' |}.

(** [input] events, each with its time of arrival. *)
Fixpoint run `{Engine} (events : list (nat * jsstring)) (w : World) : World :=
  match events with
  | [] => w
  | (now, v) :: rest => run rest (onSearchInput v (advance now w))
  end.

(** No more input: every pending callback runs. *)
Definition settle `{Engine} (w : World) : World :=
  fold_left fireTimer (map fst (timers w)) w.

End Modern.

(** ** The engine on ASCII text

    The interface restricted to what its laws fix: exact on ASCII text; code
    units outside ASCII pass unchanged and strings compare by code unit.
    It serves to run the scripts on ASCII titles. *)
Fixpoint compareUnits (a b : jsstring) : Z :=
  match a, b with
  | [], [] => 0%Z
  | [], _ :: _ => (-1)%Z
  | _ :: _, [] => 1%Z
  | x :: a', y :: b' =>
      if x <? y then (-1)%Z else if y <? x then 1%Z else compareUnits a' b'
  end.

Definition asciiOnly (f : N -> N) (s : jsstring) : jsstring :=
  map (fun c => if isAscii c then f c else c) s.

#[export] Instance asciiEngine : Engine.
Proof.
  refine {| normalizeNFKD s := s;
            toLowerCase := asciiOnly asciiLower;
            toUpperCase := asciiOnly asciiUpper;
            localeCompare := compareUnits;
            objectFunctionText := u16 "function Object() { [native code] }" |}.
  - reflexivity.
  - intros s; induction s as [|c s IH]; simpl; [reflexivity|].
    intros Hs; apply andb_prop in Hs as [Hc Hs]; rewrite Hc; f_equal; exact (IH Hs).
  - intros s; induction s as [|c s IH]; simpl; [reflexivity|].
    intros Hs; apply andb_prop in Hs as [Hc Hs]; rewrite Hc; f_equal; exact (IH Hs).
Defined.

(** ** Data of the examples *)

Definition snes : jsstring := u16 "SNES".
Definition chrono : jsstring := u16 "Chrono Trigger (Japan)".
Definition chronoUrl : jsstring := u16 "https://www.igdb.com/games/chrono-trigger--1".

(** An override map with a URL for [chrono], and one whose entry for it is
    the empty string. *)
Definition linkMapWithUrl : UrlMap := {[ snes := {[ chrono := chronoUrl ]} ]}.
Definition linkMapWithEmpty : UrlMap := {[ snes := {[ chrono := [] ]} ]}.

(** A thousand different titles. *)
Definition digit (n : nat) : N := 48 + N.of_nat (n mod 10).
Definition thousandTitles : list jsstring :=
  map (fun i => u16 "Game " ++ [digit (i / 100); digit (i / 10); digit i]) (seq 0 1000).

(** A catalog of two platforms, and one whose only value is a string where
    a list of titles is expected. *)
Definition twoPlatforms : Catalog :=
  [ (snes, Titles [u16 "Chrono Trigger"; u16 "Super Metroid"; u16 "3D Pinball"]);
    (u16 "Genesis", Titles [u16 "Sonic & Knuckles"; u16 "Altered Beast"]) ].
Definition stringForList : Catalog := [ (snes, EString (u16 "Chrono Trigger")) ].

Definition chronoSearch : Modern.State :=
  {| Modern.search := u16 "chrono"; Modern.platform := snes; Modern.letter := [];
     Modern.compact := false; Modern.chunk := 400 |}.

Definition letterOnly (l : jsstring) : Modern.State :=
  {| Modern.search := []; Modern.platform := []; Modern.letter := l;
     Modern.compact := false; Modern.chunk := 400 |}.

(** ** Properties of catalog values and of first letters *)

(** A value of the catalog that is a list of titles or falsy. *)
Definition listOrFalsy (v : Entry) : bool :=
  match v with
  | Titles _ => true
  | _ => negb (entryTruthy v)
  end.

Definition listsOrFalsy (g : Catalog) : Prop :=
  Forall (fun x => listOrFalsy x.2 = true) g.

(** The first character of the trimmed title in upper case: the string
    [firstLetterKey] tests. *)
Definition firstUpper `{Engine} (title : jsstring) : jsstring :=
  toUpperCase (charAt0 (trim title)).

(** A string that is one ASCII letter [A]..[Z]. *)
Definition isLetterAZ (s : jsstring) : bool :=
  match s with
  | [l] => isUpperAZ l
  | _ => false
  end.

(** The search part of [titleMatchesFilters]. *)
Definition searchKeeps `{Engine} (st : Modern.State) (title : jsstring) : bool :=
  negb (truthy (Modern.search st)) || includes (toLowerCase title) (Modern.search st).

(** ** Invariants of a panel *)

Section PanelInvariants.
Context `{Engine}.
Variable LINKMAP : UrlMap.
Variable st : Modern.State.

Definition rowsOf (p : Modern.Panel) (ts : list jsstring) : list Modern.Row :=
map (Modern.makeGameRow LINKMAP st (Modern.panelPlatform p)) ts.

(** The rows of the grid are those of the first [start] titles, in order. *)
Definition panelInv (p : Modern.Panel) : Prop :=
(Modern.start p <= length (Modern.panelTitles p))%nat
/\ Modern.grid p = rowsOf p (take (Modern.start p) (Modern.panelTitles p)).

(** The button is in the document exactly while titles remain, and its
  label has their number. *)
Definition buttonInv (p : Modern.Panel) : Prop :=
Modern.loadMore p = Modern.remainingOf p.
End PanelInvariants.

(** ** Entries of a filtered result *)

Section Entries.
Context `{Engine}.
Variable GAMES : Catalog.
Variables linkMap coverMap : UrlMap.

(** The filtered list of a platform in part_000. *)
Definition filteredOf (st : Modern.State) (p : jsstring) : result (list jsstring) :=
filterEntry (Modern.titleMatchesFilters st) (entryOrEmpty GAMES p).


End Entries.

(** ** Bursts of input *)

(** Events after one at time [t], each arriving before the timer set by the
    one before it is due. *)
Fixpoint withinWindow (t : nat) (events : list (nat * jsstring)) : Prop :=
  match events with
  | [] => True
  | (t', _) :: rest =>
      (t <= t')%nat /\ (t' < t + Modern.debounceMs)%nat /\ withinWindow t' rest
  end.

(** The text of the box after the events. *)
Definition lastValue (v : jsstring) (events : list (nat * jsstring)) : jsstring :=
  default v (last (map snd events)).

(** One timer is pending: the one set at the last event, at time [t]. *)
Record pendingOne (w0 : Modern.World) (t : nat) (v : jsstring) (w : Modern.World) : Prop := {
  po_timers : exists id, Modern.timers w = [(id, (t + Modern.debounceMs)%nat)]
                         /\ Modern.timerVar w = Some id;
  po_clock : Modern.clock w = t;
  po_box : Modern.searchBox w = v;
  po_state : Modern.wState w = Modern.wState w0;
  po_log : Modern.renderLog w = Modern.renderLog w0;
}.

(** A world at rest at time 0, and three key strokes 50 ms apart. *)
Definition idleWorld : Modern.World :=
  {| Modern.wState := Modern.initialState; Modern.searchBox := []; Modern.clock := 0;
     Modern.timerVar := None; Modern.nextTimer := 0; Modern.timers := [];
     Modern.renderLog := [] |}.
Definition typingChr : list (nat * jsstring) :=
  [ (100%nat, u16 "C"); (150%nat, u16 "Ch"); (200%nat, u16 "Chr ") ].

(** ** Properties of slugs *)

Fixpoint noDoubleHyphen (s : jsstring) : bool :=
  match s with
  | [] => true
  | c :: s' => negb (isHyphen c && headIs isHyphen s') && noDoubleHyphen s'
  end.

(** A code unit of [[a-z0-9-]]. *)
Definition slugChar (c : N) : Prop := isAlnum c || isHyphen c = true.

(** Only [[a-z0-9-]], no hyphen first or last, no two hyphens in a row. *)
Definition slugWellFormed (s : jsstring) : Prop :=
  Forall slugChar s
  /\ head s <> Some 45
  /\ last s <> Some 45
  /\ forall i : nat, s !! i = Some 45 -> s !! S i <> Some 45.

(** ** Properties of cleaned titles *)

(** Every white-space code unit is a space, and no two are adjacent. *)
Fixpoint singleSpaces (s : jsstring) : bool :=
  match s with
  | [] => true
  | c :: s' =>
      (if isSpace c then (c =? 32) && negb (headIs isSpace s') else true)
      && singleSpaces s'
  end.

(** No trademark sign, no white space at either end, and inside only
    single spaces. *)
Definition cleanShape (s : jsstring) : Prop :=
  Forall (fun c => isTrademark c = false) s
  /\ headIs isSpace s = false
  /\ (forall c, last s = Some c -> isSpace c = false)
  /\ (forall (i : nat) (c : N), s !! i = Some c -> isSpace c = true ->
        c = 32 /\ forall d, s !! S i = Some d -> isSpace d = false).

(** The separator of combined titles. *)
Definition separator : jsstring := u16 " / ".

(** The calls between the removal of groups and the collapse of white
    space, in script.js and in part_000. *)
Definition scriptMiddle (x : jsstring) : jsstring := removeAll isTrademark x.
Definition modernMiddle (x : jsstring) : jsstring :=
  replaceChar 43 (u16 " plus ") (replaceChar 38 (u16 " and ") (removeAll isTrademark x)).

(** ** Order of the platform keys *)

(** Each key compares not greater than the next. *)
Fixpoint ascending `{Engine} (l : list jsstring) : Prop :=
  match l with
  | a :: (b :: _) as t => (localeCompare a b <= 0)%Z /\ ascending t
  | _ => True
  end.

(** The entry [render] of part_000 sets for a platform: its filtered list
    when that has a title. *)
Definition keptEntry `{Engine} (GAMES : Catalog) (st : Modern.State) (p : jsstring)
  : option (jsstring * list jsstring) :=
  match filteredOf GAMES st p with
  | Ok (t :: ts) => Some (p, t :: ts)
  | _ => None
  end.

(** The number of titles a platform adds to [totalTitles]. *)
Definition keptCount `{Engine} (GAMES : Catalog) (st : Modern.State) (p : jsstring) : nat :=
  match filteredOf GAMES st p with
  | Ok ts => length ts
  | TypeError => 0
  end.

(** ** Clicks and handlers *)

(** [k] clicks on "Load more", as far as the button is there. *)
Fixpoint clicks `{Engine} (LINKMAP : UrlMap) (st : Modern.State) (k : nat) (p : Modern.Panel)
  : option Modern.Panel :=
  match k with
  | O => Some p
  | S k' =>
      match clicks LINKMAP st k' p with
      | Some p' => Modern.clickLoadMore LINKMAP st p'
      | None => None
      end
  end.

Definition setPlatform (v : jsstring) (st : Modern.State) : Modern.State :=
  {| Modern.search := Modern.search st; Modern.platform := v; Modern.letter := Modern.letter st;
     Modern.compact := Modern.compact st; Modern.chunk := Modern.chunk st |}.

Definition setLetter (v : jsstring) (st : Modern.State) : Modern.State :=
  {| Modern.search := Modern.search st; Modern.platform := Modern.platform st; Modern.letter := v;
     Modern.compact := Modern.compact st; Modern.chunk := Modern.chunk st |}.

Definition toggleDensity (st : Modern.State) : Modern.State :=
  {| Modern.search := Modern.search st; Modern.platform := Modern.platform st;
     Modern.letter := Modern.letter st; Modern.compact := negb (Modern.compact st);
     Modern.chunk := Modern.chunk st |}.

(** A handler of [bindEvents] that is not debounced: it changes [state]
    and calls [render] at once. *)
Definition commitNow (f : Modern.State -> Modern.State) (w : Modern.World) : Modern.World :=
  {| Modern.wState := f (Modern.wState w);
     Modern.searchBox := Modern.searchBox w;
     Modern.clock := Modern.clock w;
     Modern.timerVar := Modern.timerVar w;
     Modern.nextTimer := Modern.nextTimer w;
     Modern.timers := Modern.timers w;
     Modern.renderLog := Modern.renderLog w ++ [f (Modern.wState w)] |}.

(** The [change] handlers of the platform and letter selects and the
    [click] handler of the density button. *)
Definition onPlatformChange (v : jsstring) : Modern.World -> Modern.World :=
  commitNow (setPlatform v).
Definition onLetterChange `{Engine} (v : jsstring) : Modern.World -> Modern.World :=
  commitNow (setLetter (toUpperCase v)).
Definition onDensityClick : Modern.World -> Modern.World := commitNow toggleDensity.

(** At most one timer is pending, and it is the one [t] names. *)
Definition atMostOnePending (w : Modern.World) : Prop :=
  Modern.timers w = []
  \/ exists id due, Modern.timers w = [(id, due)] /\ Modern.timerVar w = Some id.

(** [state] with the text of the box committed as the search. *)
Definition committed `{Engine} (st : Modern.State) (v : jsstring) : Modern.State :=
  Modern.setSearch (toLowerCase (trim v)) st.

(** Passes run and timers pending, together. *)
Definition passesAndTimers (w : Modern.World) : nat :=
  (length (Modern.renderLog w) + length (Modern.timers w))%nat.

(** ** The [id] of a panel *)

(** [[^a-z0-9]] under the flag [i]: without the flag [u] a code unit
    outside ASCII is never taken for an ASCII letter, so the class is all
    but the ASCII letters and digits. *)
Definition notAlnumCI (c : N) : bool := negb (isAlnum c || isUpperAZ c).

(** [details.id] in [render] of part_000:
    ["p-" + platform.replace(/[^a-z0-9]+/gi, "-").toLowerCase()]. *)
Definition detailsId `{Engine} (platform : jsstring) : jsstring :=
  u16 "p-" ++ toLowerCase (replaceRuns notAlnumCI [45] platform).

(** ** The early scripts of part_000 (the third and the fourth are the same
    here): no override map, no slug, no guard on [games[platform]] *)
Module Basic.
Section Basic.
Context `{Engine}.
Variable games : Catalog.

(** The options [populatePlatforms] adds: the keys, not sorted. *)
Definition populatePlatforms : list jsstring := objectKeys games.

(** [games[platform].filter(...)]: a missing key gives [undefined], and
    neither that nor a value that is not an array has a [filter]. *)
Definition filterGames (search platform : jsstring) : result (list jsstring) :=
  match getEntry games platform with
  | Some (Titles ts) => Ok (List.filter (fun game => includes (toLowerCase game) search) ts)
  | _ => TypeError
  end.

Definition platformsOf (selectedPlatform : jsstring) : list jsstring :=
  if truthy selectedPlatform then [selectedPlatform] else objectKeys games.

(** The loop of [displayGames]: a heading and the titles for every
    platform with a title left. *)
Fixpoint displayLoop (search : jsstring) (platforms : list jsstring)
  : result (list (jsstring * list jsstring)) :=
  match platforms with
  | [] => Ok []
  | platform :: rest =>
      bind (filterGames search platform) (fun filteredGames =>
      bind (displayLoop search rest) (fun out =>
        Ok (match filteredGames with
            | [] => out
            | _ :: _ => (platform, filteredGames) :: out
            end)))
  end.

Definition displayGames (searchValue selectedPlatform : jsstring)
  : result (list (jsstring * list jsstring)) :=
  displayLoop (toLowerCase searchValue) (platformsOf selectedPlatform).
End Basic.
End Basic.

(** The value of [games] under a key is an array. *)
Definition hasTitles (games : Catalog) (p : jsstring) : Prop :=
  exists ts, getEntry games p = Some (Titles ts).

(** The text and the [href] of the links of script.js's rows. *)
Definition linksOf (out : list (jsstring * list Script.Row))
  : list (jsstring * list (jsstring * jsstring)) :=
  map (fun x => (x.1, map (fun r => (Script.rowTitle r, Script.rowHref r)) x.2)) out.

(** ** Members every object inherits *)

(** The names of the members of [Object.prototype].  A read [o[k]] of an
    object that has no own property [k] finds one of these members when [k]
    is such a name, and [undefined] otherwise. *)
Definition inheritedNames : list jsstring :=
  map u16
    [ "constructor"; "__defineGetter__"; "__defineSetter__"; "hasOwnProperty";
      "__lookupGetter__"; "__lookupSetter__"; "isPrototypeOf";
      "propertyIsEnumerable"; "toString"; "valueOf"; "__proto__";
      "toLocaleString" ]%string.

Definition inheritedName (k : jsstring) : bool := bool_decide (k ∈ inheritedNames).

(** A selection that reads the catalog as [getEntry] does: a key of the
    catalog, or a name that is not that of an inherited member. *)
Definition plainSelection (g : Catalog) (sel : jsstring) : Prop :=
  is_Some (getEntry g sel) \/ inheritedName sel = false.

(** [games[p]] is falsy: an own falsy value, or no own value and no
    inherited member of that name. *)
Definition absentOrFalsy (g : Catalog) (p : jsstring) : Prop :=
  match getEntry g p with
  | Some v => entryTruthy v = false
  | None => inheritedName p = false
  end.

(** A catalog with [null] under a platform key. *)
Definition nullPlatform : Catalog :=
  [ (snes, Titles [u16 "Chrono Trigger"]); (u16 "Genesis", ENull) ].

(** ** The engine on two letters outside ASCII

    [toUpperCase] of dotless i (U+0131) is [I], of sharp s (U+00DF) it is
    [SS].  This engine has these two cases beside the ASCII ones; other
    code units pass unchanged.  It serves to run the scripts on titles
    that begin with one of the two letters. *)
Definition upperUnit (c : N) : jsstring :=
  if c =? 305 then [73]
  else if c =? 223 then [83; 83]
  else [if isAscii c then asciiUpper c else c].

Definition latinEngine : Engine.
Proof.
  refine {| normalizeNFKD s := s;
            toLowerCase := asciiOnly asciiLower;
            toUpperCase := flat_map upperUnit;
            localeCompare := compareUnits;
            objectFunctionText := u16 "function Object() { [native code] }" |}.
  - reflexivity.
  - intros s; induction s as [|c s IH]; simpl; [reflexivity|].
    intros Hs; apply andb_prop in Hs as [Hc Hs]; rewrite Hc; f_equal; exact (IH Hs).
  - intros s; induction s as [|c s IH]; [reflexivity|].
    cbn [forallb flat_map map]. intros Hs; apply andb_prop in Hs as [Hc Hs].
    rewrite (IH Hs). unfold upperUnit. rewrite Hc.
    unfold isAscii in Hc. apply N.ltb_lt in Hc.
    destruct (N.eqb_spec c 305); [lia|]. destruct (N.eqb_spec c 223); [lia|]. reflexivity.
Defined.

(** Titles that begin with dotless i and with sharp s. *)
Definition dotlessItem : jsstring := 305 :: u16 "tem".
Definition sharpBeta : jsstring := 223 :: u16 "eta".

(** ** Turns of the event loop

    [setTimeout] gives a least delay: the callback of a timer that is due
    runs when the loop gets to it, and the loop may take an [input] event
    first. *)
Inductive Turn :=
| InputTurn (v : jsstring)
| TimersTurn.

(** Time passes to [now] and no callback runs. *)
Definition passTime (now : nat) (w : Modern.World) : Modern.World :=
  {| Modern.wState := Modern.wState w; Modern.searchBox := Modern.searchBox w;
     Modern.clock := Nat.max (Modern.clock w) now;
     Modern.timerVar := Modern.timerVar w; Modern.nextTimer := Modern.nextTimer w;
     Modern.timers := Modern.timers w; Modern.renderLog := Modern.renderLog w |}.

(** A turn at a time: the [input] event with the text of the box, or the
    callbacks of the timers that are due. *)
Definition takeTurn `{Engine} (w : Modern.World) (x : nat * Turn) : Modern.World :=
  match x.2 with
  | InputTurn v => Modern.onSearchInput v (passTime x.1 w)
  | TimersTurn => Modern.advance x.1 w
  end.

Definition runTurns `{Engine} (turns : list (nat * Turn)) (w : Modern.World) : Modern.World :=
  fold_left takeTurn turns w.

(** [input] events at [t] with text [v], each followed by a turn of the
    timers at [s]. *)
Definition timersBetween (sched : list (nat * jsstring * nat)) : list (nat * Turn) :=
  flat_map (fun x => [(x.1.1, InputTurn x.1.2); (x.2, TimersTurn)]) sched.

(** From time [c] on: every event comes after the timers' turn before it,
    and the timers' turn after an event comes when its timer is due. *)
Fixpoint timersInTime (c : nat) (sched : list (nat * jsstring * nat)) : Prop :=
  match sched with
  | [] => True
  | (t, _, s) :: rest =>
      (c <= t)%nat /\ (t + Modern.debounceMs <= s)%nat /\ timersInTime s rest
  end.

(** Two key strokes at 100 and 300 ms, the timers' turns at 260 and 470. *)
Definition slowTyping : list (nat * jsstring * nat) :=
  [ (100%nat, u16 "C", 260%nat); (300%nat, u16 " Ch", 470%nat) ].

(** * Link resolution *)

Lemma lookup2_withUrl : lookup2 linkMapWithUrl snes chrono = Some chronoUrl.
Proof.
  unfold lookup2, linkMapWithUrl. rewrite lookup_singleton_eq. simpl.
  apply lookup_singleton_eq.
Qed.

Lemma lookup2_withEmpty : lookup2 linkMapWithEmpty snes chrono = Some [].
Proof.
  unfold lookup2, linkMapWithEmpty. rewrite lookup_singleton_eq. simpl.
  apply lookup_singleton_eq.
Qed.

Lemma lookup2_empty (p t : jsstring) : lookup2 ∅ p t = None.
Proof. unfold lookup2. rewrite lookup_empty. reflexivity. Qed.

(** C1, as stated, fails: the entry of [linkMapWithEmpty] for [chrono] is
    present, and both [getIGDBUrl] and [toURL] return the generated URL
    instead of that entry. *)
Lemma override_empty_not_returned :
  lookup2 linkMapWithEmpty snes chrono = Some []
  /\ Script.getIGDBUrl linkMapWithEmpty snes chrono
     = u16 "https://www.igdb.com/games/chrono-trigger"
  /\ Modern.toURL linkMapWithEmpty snes chrono
     = u16 "https://www.igdb.com/games/chrono-trigger"
  /\ ~ (forall (m : UrlMap) (p t url : jsstring),
          lookup2 m p t = Some url -> Script.getIGDBUrl m p t = url).
Proof.
  assert (E : Script.getIGDBUrl linkMapWithEmpty snes chrono
              = u16 "https://www.igdb.com/games/chrono-trigger").
  { unfold Script.getIGDBUrl. rewrite lookup2_withEmpty. vm_compute. reflexivity. }
  split; [exact lookup2_withEmpty|]. split; [exact E|]. split.
  - unfold Modern.toURL. rewrite lookup2_withEmpty. vm_compute. reflexivity.
  - intros C. specialize (C _ _ _ _ lookup2_withEmpty). rewrite E in C. discriminate C.
Qed.

(** C1 (amended): for every (platform, title) pair whose entry in the
    override map is a non-empty string, [getIGDBUrl] of script.js and
    [toURL] of part_000 return that entry itself; neither pre-cleaning, the
    alias table nor the slug takes part. *)
Theorem override_returned_verbatim `{Engine} (m : UrlMap) (p t url : jsstring) :
  lookup2 m p t = Some url ->
  url <> [] ->
  Script.getIGDBUrl m p t = url /\ Modern.toURL m p t = url.
Proof.
  intros Hm Hne. unfold Script.getIGDBUrl, Modern.toURL. rewrite Hm.
  destruct url as [|c url]; [contradiction|]. simpl. split; reflexivity.
Qed.

Lemma override_returned_verbatim_witness :
  lookup2 linkMapWithUrl snes chrono = Some chronoUrl
  /\ chronoUrl <> []
  /\ Script.getIGDBUrl linkMapWithUrl snes chrono = chronoUrl
  /\ Modern.toURL linkMapWithUrl snes chrono = chronoUrl.
Proof.
  split; [exact lookup2_withUrl|]. split; [discriminate|].
  apply (override_returned_verbatim linkMapWithUrl snes chrono chronoUrl).
  - exact lookup2_withUrl.
  - discriminate.
Defined.

(** C10: when the entry of the override map for (platform, title) is the
    empty string, [getIGDBUrl] and [toURL] do not return it but the base
    URL followed by the slug of the title; and whatever the override map
    holds, neither ever returns the empty string. *)
Theorem empty_override_falls_through `{Engine} (m : UrlMap) (p t : jsstring) :
  lookup2 m p t = Some [] ->
  Script.getIGDBUrl m p t = igdbBase ++ slugText (slugifyIGDB t)
  /\ Modern.toURL m p t = igdbBase ++ Modern.slugifyIGDB t
  /\ (forall (m' : UrlMap) (p' t' : jsstring),
        Script.getIGDBUrl m' p' t' <> [] /\ Modern.toURL m' p' t' <> []).
Proof.
  intros Hm. unfold Script.getIGDBUrl, Modern.toURL. rewrite Hm. simpl.
  split; [reflexivity|]. split; [reflexivity|].
  intros m' p' t'.
  destruct (lookup2 m' p' t') as [[|c u]|]; simpl; split; discriminate.
Qed.

Lemma empty_override_falls_through_witness :
  lookup2 linkMapWithEmpty snes chrono = Some []
  /\ Script.getIGDBUrl linkMapWithEmpty snes chrono = igdbBase ++ slugText (slugifyIGDB chrono)
  /\ Modern.toURL linkMapWithEmpty snes chrono = igdbBase ++ Modern.slugifyIGDB chrono.
Proof.
  split; [exact lookup2_withEmpty|].
  destruct (empty_override_falls_through linkMapWithEmpty snes chrono lookup2_withEmpty)
    as (A & B & _).
  split; [exact A | exact B].
Defined.

(** Every slug of the alias table is a non-empty string. *)
Lemma aliasSlugMap_truthy (key slug : jsstring) :
  aliasSlugMap !! key = Some slug -> truthy slug = true.
Proof.
  unfold aliasSlugMap. intros Hk.
  repeat (apply lookup_insert_Some in Hk as [[_ <-]|[_ Hk]]; [reflexivity|]).
  rewrite lookup_empty in Hk. discriminate Hk.
Qed.

Lemma aliasHit_own `{Engine} (key slug : jsstring) :
  aliasSlugMap !! key = Some slug -> aliasHit key = Some (SlugText slug).
Proof.
  intros Hk. unfold aliasHit. rewrite Hk, (aliasSlugMap_truthy _ _ Hk). reflexivity.
Qed.

(** C4: when the normalization key of the pre-cleaned title is a key of the
    alias table and the override map has no entry for (platform, title),
    the URL is the base URL followed by the slug of the alias, in script.js
    and in part_001, whatever slug the title would generate. *)
Theorem alias_wins `{Engine} (m : UrlMap) (p title slug : jsstring) :
  aliasSlugMap !! normalizeKey (preCleanTitle title) = Some slug ->
  lookup2 m p title = None ->
  Script.getIGDBUrl m p title = igdbBase ++ slug
  /\ Legacy.gameHref title = igdbBase ++ slug.
Proof.
  intros Hk Hm. unfold Script.getIGDBUrl, Legacy.gameHref, slugifyIGDB.
  rewrite Hm, (aliasHit_own _ _ Hk). split; reflexivity.
Qed.

(** "Area 88" has the key [area88]; its generated slug would be [area-88]. *)
Lemma alias_wins_witness :
  normalizeKey (preCleanTitle (u16 "Area 88")) = u16 "area88"
  /\ generateSlug (preCleanTitle (u16 "Area 88")) = u16 "area-88"
  /\ Script.getIGDBUrl ∅ snes (u16 "Area 88") = u16 "https://www.igdb.com/games/u-n-squadron"
  /\ Legacy.gameHref (u16 "Area 88") = u16 "https://www.igdb.com/games/u-n-squadron".
Proof.
  split; [vm_compute; reflexivity|]. split; [vm_compute; reflexivity|].
  apply (alias_wins ∅ snes (u16 "Area 88") (u16 "u-n-squadron")).
  - vm_compute. reflexivity.
  - apply lookup2_empty.
Defined.

(** The bracketed group goes before the slug is made. *)
Example chrono_trigger_url :
  preCleanTitle chrono = u16 "Chrono Trigger"
  /\ Script.getIGDBUrl ∅ snes chrono = u16 "https://www.igdb.com/games/chrono-trigger"
  /\ Modern.toURL ∅ snes chrono = u16 "https://www.igdb.com/games/chrono-trigger".
Proof. repeat split; vm_compute; reflexivity. Qed.

(** The key [constructor] finds the member [aliasSlugMap] inherits, not a
    slug. *)
Example constructor_title :
  normalizeKey (preCleanTitle (u16 "Constructor")) = u16 "constructor"
  /\ slugifyIGDB (u16 "Constructor") = ObjectFunction.
Proof. split; vm_compute; reflexivity. Qed.

Example un_squadron_key :
  normalizeKey (preCleanTitle (u16 "U.N. Squadron")) = u16 "unsquadron"
  /\ Legacy.gameHref (u16 "U.N. Squadron") = u16 "https://www.igdb.com/games/u-n-squadron".
Proof. split; vm_compute; reflexivity. Qed.

Lemma normalizeKey_nil `{Engine} : normalizeKey [] = [].
Proof.
  unfold normalizeKey. rewrite normalizeNFKD_ascii by reflexivity. simpl.
  rewrite toLowerCase_ascii by reflexivity. reflexivity.
Qed.

Lemma hyphenate_nil `{Engine} : hyphenate [] = [].
Proof.
  unfold hyphenate. rewrite normalizeNFKD_ascii by reflexivity. simpl.
  rewrite toLowerCase_ascii by reflexivity. reflexivity.
Qed.

(** * The generated slug *)

Section SlugShape.
Lemma isHyphen_eq (c : N) : isHyphen c = true -> c = 45.
Proof. apply N.eqb_eq. Qed.

Lemma alnum_not_hyphen (c : N) : isAlnum c = true -> isHyphen c = false.
Proof.
  unfold isAlnum, inRange, isHyphen. intros Ha.
  destruct (N.eqb_spec c 45) as [->|]; [discriminate Ha | reflexivity].
Qed.

Lemma replaceRuns_chars (s : jsstring) :
  Forall slugChar (replaceRuns notAlnum [45] s).
Proof.
  induction s as [|c s IH]; simpl; [constructor|].
  unfold notAlnum at 1. destruct (isAlnum c) eqn:Ec; simpl.
  - constructor; [unfold slugChar; rewrite Ec; reflexivity | exact IH].
  - destruct (headIs notAlnum s); [exact IH|].
    constructor; [reflexivity | exact IH].
Qed.

Lemma replaceRuns_head (s : jsstring) :
  headIs notAlnum s = false -> headIs isHyphen (replaceRuns notAlnum [45] s) = false.
Proof.
  destruct s as [|c s]; simpl; [reflexivity|].
  unfold notAlnum at 1 2. destruct (isAlnum c) eqn:Ec; simpl; [|discriminate].
  intros _. apply alnum_not_hyphen, Ec.
Qed.

Lemma replaceRuns_noDouble (s : jsstring) :
  noDoubleHyphen (replaceRuns notAlnum [45] s) = true.
Proof.
  induction s as [|c s IH]; simpl; [reflexivity|].
  unfold notAlnum at 1. destruct (isAlnum c) eqn:Ec; simpl.
  - rewrite (alnum_not_hyphen c Ec), IH. reflexivity.
  - destruct (headIs notAlnum s) eqn:Eh; [exact IH|].
    simpl. rewrite (replaceRuns_head s Eh), IH. reflexivity.
Qed.

Lemma dropWhile_Forall (P : N -> Prop) (p : N -> bool) (s : jsstring) :
  Forall P s -> Forall P (dropWhile p s).
Proof.
  induction 1 as [|c s Hc Hs IH]; simpl; [constructor|].
  destruct (p c); [exact IH | constructor; assumption].
Qed.

Lemma noDouble_tail (c : N) (s : jsstring) :
  noDoubleHyphen (c :: s) = true -> noDoubleHyphen s = true.
Proof. simpl. intros Hn. apply andb_prop in Hn as [_ Hn]. exact Hn. Qed.

Lemma dropWhile_noDouble (p : N -> bool) (s : jsstring) :
  noDoubleHyphen s = true -> noDoubleHyphen (dropWhile p s) = true.
Proof.
  induction s as [|c s IH]; [reflexivity|]. intros Hn. simpl.
  destruct (p c); [apply IH, (noDouble_tail c), Hn | exact Hn].
Qed.

Lemma dropWhile_head (p : N -> bool) (s : jsstring) :
  headIs p (dropWhile p s) = false.
Proof.
  induction s as [|c s IH]; simpl; [reflexivity|].
  destruct (p c) eqn:Ec; [exact IH | simpl; exact Ec].
Qed.

Lemma dropEndWhile_cons (p : N -> bool) (c : N) (s : jsstring) :
  dropEndWhile p (c :: s) = [] \/ dropEndWhile p (c :: s) = c :: dropEndWhile p s.
Proof.
  simpl. destruct (dropEndWhile p s); [|right; reflexivity].
  destruct (p c); [left | right]; reflexivity.
Qed.

Lemma dropEndWhile_Forall (P : N -> Prop) (p : N -> bool) (s : jsstring) :
  Forall P s -> Forall P (dropEndWhile p s).
Proof.
  induction 1 as [|c s Hc Hs IH]; [constructor|].
  destruct (dropEndWhile_cons p c s) as [-> | ->]; constructor; assumption.
Qed.

Lemma dropEndWhile_headIs (p q : N -> bool) (s : jsstring) :
  headIs q s = false -> headIs q (dropEndWhile p s) = false.
Proof.
  destruct s as [|c s]; [reflexivity|]. intros Hq.
  destruct (dropEndWhile_cons p c s) as [-> | ->]; [reflexivity | exact Hq].
Qed.

Lemma dropEndWhile_noDouble (p : N -> bool) (s : jsstring) :
  noDoubleHyphen s = true -> noDoubleHyphen (dropEndWhile p s) = true.
Proof.
  induction s as [|c s IH]; [reflexivity|]. intros Hn.
  destruct (dropEndWhile_cons p c s) as [-> | ->]; [reflexivity|].
  simpl in *. apply andb_prop in Hn as [Hc Hn]. rewrite (IH Hn), andb_true_r.
  destruct (isHyphen c); [|reflexivity]. simpl in *.
  apply negb_true_iff in Hc. rewrite (dropEndWhile_headIs p isHyphen s Hc). reflexivity.
Qed.

Lemma dropEndWhile_last (p : N -> bool) (s : jsstring) (c : N) :
  last (dropEndWhile p s) = Some c -> p c = false.
Proof.
  induction s as [|d s IH]; simpl; [discriminate|].
  destruct (dropEndWhile p s) as [|e r] eqn:Er.
  - destruct (p d) eqn:Ed; simpl; [discriminate|]. intros [= <-]. exact Ed.
  - intros Hl. apply IH. exact Hl.
Qed.

Lemma collapseHyphens_id (s : jsstring) :
  noDoubleHyphen s = true -> collapseHyphens s = s.
Proof.
  unfold collapseHyphens.
  induction s as [|c s IH]; [reflexivity|]. intros Hn. simpl in *.
  apply andb_prop in Hn as [Hc Hn]. rewrite (IH Hn).
  destruct (isHyphen c) eqn:Ec; [|reflexivity].
  simpl in Hc. apply negb_true_iff in Hc. rewrite Hc.
  rewrite (isHyphen_eq c Ec). reflexivity.
Qed.

Lemma noDouble_lookup (s : jsstring) (i : nat) :
  noDoubleHyphen s = true -> s !! i = Some 45 -> s !! S i <> Some 45.
Proof.
  revert i. induction s as [|c s IH]; intros i Hn; [discriminate|].
  simpl in Hn. apply andb_prop in Hn as [Hc Hn].
  destruct i as [|i]; simpl.
  - intros [= ->]. simpl in Hc. apply negb_true_iff in Hc.
    destruct s as [|d s]; [discriminate|]. simpl in *. intros [= ->]. discriminate Hc.
  - apply IH, Hn.
Qed.

(** The shape is that of the last three calls, whatever string the
    engine's [normalize] and [toLowerCase] hand to them. *)
Lemma hyphenate_wellformed `{Engine} (s : jsstring) : slugWellFormed (hyphenate s).
Proof.
  unfold hyphenate.
  set (x := toLowerCase (removeAll isMark (normalizeNFKD s))).
  set (r := replaceRuns notAlnum [45] x).
  assert (Hn : noDoubleHyphen (trimHyphens r) = true).
  { apply dropEndWhile_noDouble, dropWhile_noDouble, replaceRuns_noDouble. }
  rewrite (collapseHyphens_id _ Hn). repeat split.
  - apply dropEndWhile_Forall, dropWhile_Forall, replaceRuns_chars.
  - intros Hh.
    pose proof (dropEndWhile_headIs isHyphen isHyphen _ (dropWhile_head isHyphen r)) as Hd.
    fold (trimHyphens r) in Hd.
    destruct (trimHyphens r) as [|c t]; [discriminate|].
    simpl in Hh, Hd. injection Hh as ->. discriminate Hd.
  - intros Hl. apply dropEndWhile_last in Hl. discriminate Hl.
  - intros i. apply noDouble_lookup, Hn.
Qed.
End SlugShape.

(** C2: for every title, the slug that the generation path of
    [slugifyIGDB] produces (script.js and part_001; also the slug of
    part_000) has only characters of [[a-z0-9-]], no hyphen at either end
    and no two hyphens in a row. *)
Theorem generated_slug_wellformed `{Engine} (title : jsstring) :
  slugWellFormed (generateSlug (preCleanTitle title))
  /\ slugWellFormed (Modern.slugifyIGDB title).
Proof. split; apply hyphenate_wellformed. Qed.

(** * Batched rendering *)

Section Batches.
Context `{Engine}.
Variable LINKMAP : UrlMap.
Variable st : Modern.State.

Lemma renderBatch_start (p : Modern.Panel) :
  Modern.start (Modern.renderBatch LINKMAP st p)
  = Nat.min (Modern.start p + Modern.step p) (length (Modern.panelTitles p)).
Proof. unfold Modern.renderBatch. destruct (_ <=? _)%nat; reflexivity. Qed.

Lemma renderBatch_frame (p : Modern.Panel) :
  Modern.panelTitles (Modern.renderBatch LINKMAP st p) = Modern.panelTitles p
  /\ Modern.panelPlatform (Modern.renderBatch LINKMAP st p) = Modern.panelPlatform p
  /\ Modern.step (Modern.renderBatch LINKMAP st p) = Modern.step p.
Proof. unfold Modern.renderBatch. destruct (_ <=? _)%nat; repeat split. Qed.

Lemma renderBatch_grid (p : Modern.Panel) :
  Modern.grid (Modern.renderBatch LINKMAP st p)
  = Modern.grid p
    ++ rowsOf LINKMAP st p (take (Modern.start (Modern.renderBatch LINKMAP st p) - Modern.start p)
                      (drop (Modern.start p) (Modern.panelTitles p))).
Proof. unfold Modern.renderBatch. destruct (_ <=? _)%nat; reflexivity. Qed.

Lemma renderBatch_inv (p : Modern.Panel) :
  panelInv LINKMAP st p -> panelInv LINKMAP st (Modern.renderBatch LINKMAP st p).
Proof.
  intros [Hle Hg]. unfold panelInv.
  destruct (renderBatch_frame p) as (Ht & Hp & _).
  rewrite renderBatch_grid, Hg, Ht. unfold rowsOf. rewrite Hp.
  rewrite renderBatch_start. split; [lia|].
  rewrite <- map_app, take_take_drop. f_equal. f_equal. lia.
Qed.

Lemma setButton_inv (b : option nat) (p : Modern.Panel) :
  panelInv LINKMAP st p -> panelInv LINKMAP st (Modern.setButton b p).
Proof. intros Hp. exact Hp. Qed.

Lemma newPanel_inv (p : jsstring) (titles : list jsstring) :
  panelInv LINKMAP st (Modern.newPanel LINKMAP st p titles).
Proof.
  unfold Modern.newPanel.
  match goal with |- context [Modern.renderBatch _ _ ?q] =>
    assert (Hq : panelInv LINKMAP st (Modern.renderBatch LINKMAP st q))
  end.
  { apply renderBatch_inv. split; simpl; [lia | reflexivity]. }
  destruct (Modern.remainingOf _); [apply setButton_inv|]; exact Hq.
Qed.

Lemma clickLoadMore_inv (p p' : Modern.Panel) :
  panelInv LINKMAP st p -> Modern.clickLoadMore LINKMAP st p = Some p' -> panelInv LINKMAP st p'.
Proof.
  unfold Modern.clickLoadMore. intros Hp. destruct (Modern.loadMore p); [|discriminate].
  intros [= <-]. apply setButton_inv, renderBatch_inv, Hp.
Qed.

Lemma newPanel_button (p : jsstring) (titles : list jsstring) :
  buttonInv (Modern.newPanel LINKMAP st p titles).
Proof.
  unfold Modern.newPanel, buttonInv.
  match goal with |- context [Modern.renderBatch _ _ ?q] =>
    set (b := Modern.renderBatch LINKMAP st q)
  end.
  destruct (Modern.remainingOf b) as [n|] eqn:Eb.
  - unfold Modern.remainingOf in *. simpl. exact (eq_sym Eb).
  - rewrite Eb. subst b. unfold Modern.renderBatch. simpl.
    destruct (_ <=? _)%nat; reflexivity.
Qed.

Lemma clickLoadMore_button (p p' : Modern.Panel) :
  Modern.clickLoadMore LINKMAP st p = Some p' -> buttonInv p'.
Proof.
  unfold Modern.clickLoadMore. destruct (Modern.loadMore p); [|discriminate].
  intros [= <-]. reflexivity.
Qed.
Lemma newPanel_fields (p : jsstring) (titles : list jsstring) :
  let p0 := Modern.newPanel LINKMAP st p titles in
  Modern.start p0 = Nat.min (Modern.chunk st) (length titles)
  /\ Modern.panelTitles p0 = titles
  /\ Modern.panelPlatform p0 = p
  /\ Modern.step p0 = Modern.chunk st.
Proof.
  unfold Modern.newPanel.
  match goal with |- context [Modern.renderBatch _ _ ?q] => set (q0 := q) end.
  pose proof (renderBatch_start q0) as Hs.
  destruct (renderBatch_frame q0) as (Ht & Hp & Hk).
  destruct (Modern.remainingOf _); cbn zeta; repeat split; assumption.
Qed.

Lemma clickLoadMore_fields (p : Modern.Panel) (n : nat) :
  Modern.loadMore p = Some n ->
  exists p',
    Modern.clickLoadMore LINKMAP st p = Some p'
    /\ Modern.start p' = Nat.min (Modern.start p + Modern.step p) (length (Modern.panelTitles p))
    /\ Modern.panelTitles p' = Modern.panelTitles p
    /\ Modern.panelPlatform p' = Modern.panelPlatform p
    /\ Modern.step p' = Modern.step p
    /\ Modern.grid p'
       = Modern.grid p
         ++ rowsOf LINKMAP st p (take (Modern.start p' - Modern.start p)
                           (drop (Modern.start p) (Modern.panelTitles p))).
Proof.
  intros Hb. unfold Modern.clickLoadMore. rewrite Hb.
  eexists. split; [reflexivity|].
  destruct (renderBatch_frame p) as (Ht & Hp & Hk).
  pose proof (renderBatch_start p) as Hs. pose proof (renderBatch_grid p) as Hg.
  repeat split; assumption.
Qed.
(** Once the button is gone the grid has a row for every title, in order. *)
Lemma complete_without_button (p : Modern.Panel) :
  panelInv LINKMAP st p -> buttonInv p -> Modern.loadMore p = None ->
  Modern.grid p = rowsOf LINKMAP st p (Modern.panelTitles p).
Proof.
  intros [Hle Hg] Hb Hn. rewrite Hg. f_equal. apply take_ge.
  unfold buttonInv, Modern.remainingOf in Hb. rewrite Hn in Hb.
  destruct (Nat.ltb_spec (Modern.start p) (length (Modern.panelTitles p))) as [Hlt|Hge];
    [discriminate Hb | exact Hge].
Qed.
End Batches.

(** C3: with 1000 filtered titles and batches of 400, the panel [render]
    builds has the rows of the first 400 titles and a button reporting 600
    remaining; the first click adds the rows of titles 400..799 and leaves
    200 remaining; the second adds the rows of titles 800..999, after which
    the grid has one row per title in the order of the list, the button is
    removed and no further click is possible. *)
Theorem thousand_titles_three_batches `{Engine} (LINKMAP : UrlMap)
    (st : Modern.State) (p : jsstring) (titles : list jsstring) :
  Modern.chunk st = 400%nat ->
  length titles = 1000%nat ->
  let row := Modern.makeGameRow LINKMAP st p in
  let p0 := Modern.newPanel LINKMAP st p titles in
  Modern.grid p0 = map row (take 400 titles)
  /\ length (Modern.grid p0) = 400%nat
  /\ Modern.loadMore p0 = Some 600%nat
  /\ exists p1 p2,
       Modern.clickLoadMore LINKMAP st p0 = Some p1
       /\ Modern.grid p1 = Modern.grid p0 ++ map row (take 400 (drop 400 titles))
       /\ Modern.loadMore p1 = Some 200%nat
       /\ Modern.clickLoadMore LINKMAP st p1 = Some p2
       /\ Modern.grid p2 = Modern.grid p1 ++ map row (drop 800 titles)
       /\ Modern.grid p2 = map row titles
       /\ Modern.loadMore p2 = None
       /\ Modern.clickLoadMore LINKMAP st p2 = None.
Proof.
  intros Hc Hl row p0.
  destruct (newPanel_fields LINKMAP st p titles) as (Hs0 & Ht0 & Hp0 & Hk0).
  fold p0 in Hs0, Ht0, Hp0, Hk0. rewrite Hc, Hl in Hs0. rewrite Hc in Hk0.
  change (Nat.min 400 1000) with 400%nat in Hs0.
  assert (Hb0 : Modern.loadMore p0 = Some 600%nat).
  { pose proof (newPanel_button LINKMAP st p titles) as B. fold p0 in B.
    rewrite B. unfold Modern.remainingOf. rewrite Hs0, Ht0, Hl. reflexivity. }
  assert (G0 : Modern.grid p0 = map row (take 400 titles)).
  { destruct (newPanel_inv LINKMAP st p titles) as [_ Hg]. fold p0 in Hg. unfold rowsOf in Hg.
    rewrite Hg, Hp0, Ht0, Hs0. reflexivity. }
  split; [exact G0|]. split; [rewrite G0, length_map, length_take; lia|].
  split; [exact Hb0|].
  destruct (clickLoadMore_fields LINKMAP st p0 _ Hb0) as (p1 & C1 & Hs1 & Ht1 & Hp1 & Hk1 & G1).
  unfold rowsOf in G1.
  rewrite Hs0, Hk0, Ht0, Hl in Hs1. change (Nat.min (400 + 400) 1000) with 800%nat in Hs1.
  rewrite Hs1, Hs0, Hp0, Ht0 in G1. change (800 - 400)%nat with 400%nat in G1.
  assert (Hb1 : Modern.loadMore p1 = Some 200%nat).
  { rewrite (clickLoadMore_button LINKMAP st p0 p1 C1).
    unfold Modern.remainingOf. rewrite Hs1, Ht1, Ht0, Hl. reflexivity. }
  destruct (clickLoadMore_fields LINKMAP st p1 _ Hb1) as (p2 & C2 & Hs2 & Ht2 & Hp2 & Hk2 & G2).
  unfold rowsOf in G2.
  rewrite Hs1, Hk1, Hk0, Ht1, Ht0, Hl in Hs2.
  change (Nat.min (800 + 400) 1000) with 1000%nat in Hs2.
  rewrite Hs2, Hs1, Hp1, Hp0, Ht1, Ht0 in G2. change (1000 - 800)%nat with 200%nat in G2.
  rewrite take_ge in G2 by (rewrite length_drop; lia).
  assert (Hb2 : Modern.loadMore p2 = None).
  { rewrite (clickLoadMore_button LINKMAP st p1 p2 C2).
    unfold Modern.remainingOf. rewrite Hs2, Ht2, Ht1, Ht0, Hl. reflexivity. }
  exists p1, p2.
  split; [exact C1|]. split; [exact G1|]. split; [exact Hb1|].
  split; [exact C2|]. split; [exact G2|]. split.
  { rewrite G2, G1, G0, <- !map_app. f_equal.
    rewrite <- (take_drop 400 titles) at 4.
    rewrite <- app_assoc. f_equal.
    rewrite <- (take_drop 400 (drop 400 titles)) at 2.
    rewrite drop_drop. reflexivity. }
  split; [exact Hb2|].
  unfold Modern.clickLoadMore. rewrite Hb2. reflexivity.
Qed.

Lemma thousand_titles_three_batches_witness :
  Modern.chunk Modern.initialState = 400%nat
  /\ length thousandTitles = 1000%nat
  /\ Modern.loadMore (Modern.newPanel ∅ Modern.initialState snes thousandTitles) = Some 600%nat
  /\ length (Modern.grid (Modern.newPanel ∅ Modern.initialState snes thousandTitles)) = 400%nat.
Proof.
  split; [reflexivity|]. split; [reflexivity|].
  destruct (thousand_titles_three_batches ∅ Modern.initialState snes thousandTitles
              eq_refl eq_refl) as (_ & Hlen & Hbtn & _).
  split; [exact Hbtn | exact Hlen].
Defined.

(** * Filtering *)

Lemma bind_Ok {A B} (r : result A) (k : A -> result B) (b : B) :
  bind r k = Ok b -> exists a, r = Ok a /\ k a = Ok b.
Proof. destruct r as [a|]; simpl; [eauto | discriminate]. Qed.


Section Filtering.
Context `{Engine}.
Variable GAMES : Catalog.



(** script.js: every heading of the output has rows, those of the titles
    of its platform that the search keeps. *)
Variables linkMap coverMap : UrlMap.


End Filtering.

(** Over catalogs whose values are lists of titles or falsy, the loops
    return. *)
Section Totality.
Context `{Engine}.
Variable GAMES : Catalog.

Lemma entryOrEmpty_missing (p : jsstring) :
  absentOrFalsy GAMES p -> entryOrEmpty GAMES p = Titles [].
Proof.
  unfold absentOrFalsy, entryOrEmpty.
  destruct (getEntry GAMES p) as [v|]; [intros ->|]; reflexivity.
Qed.

Lemma entryOrEmpty_other (p : jsstring) (v : Entry) (f : jsstring -> bool) :
  getEntry GAMES p = Some v -> listOrFalsy v = false ->
  filterEntry f (entryOrEmpty GAMES p) = TypeError.
Proof.
  intros Hv Hl. unfold entryOrEmpty. rewrite Hv.
  destruct v as [ts| |b|n|s|]; simpl in *; try discriminate Hl;
    try (apply negb_false_iff in Hl; rewrite Hl); reflexivity.
Qed.

(** A platform on the way whose value is neither a list nor falsy makes
    the loops throw. *)
Lemma filterLoop_throws (st : Modern.State) (platforms : list jsstring)
    (acc : list (jsstring * list jsstring)) (total : nat) (p : jsstring) (v : Entry) :
  p ∈ platforms -> getEntry GAMES p = Some v -> listOrFalsy v = false ->
  Modern.filterLoop GAMES st platforms acc total = TypeError.
Proof.
  intros Hin Hv Hl. revert acc total.
  induction platforms as [|q rest IH]; intros acc total; [inversion Hin|].
  cbn [Modern.filterLoop]. apply elem_of_cons in Hin as [<-|Hin].
  - rewrite (entryOrEmpty_other p v _ Hv Hl). reflexivity.
  - destruct (filterEntry _ (entryOrEmpty GAMES q)); [|reflexivity]. cbn [bind]. apply IH, Hin.
Qed.

Lemma renderLoop_throws (linkMap coverMap : UrlMap) (term : jsstring)
    (platforms : list jsstring) (p : jsstring) (v : Entry) :
  p ∈ platforms -> getEntry GAMES p = Some v -> listOrFalsy v = false ->
  Script.renderLoop GAMES linkMap coverMap term platforms = TypeError.
Proof.
  intros Hin Hv Hl.
  induction platforms as [|q rest IH]; [inversion Hin|].
  cbn [Script.renderLoop]. apply elem_of_cons in Hin as [<-|Hin].
  - rewrite (entryOrEmpty_other p v _ Hv Hl). reflexivity.
  - destruct (filterEntry _ (entryOrEmpty GAMES q)); [|reflexivity]. cbn [bind].
    rewrite (IH Hin). reflexivity.
Qed.

Lemma getEntry_listOrFalsy (p : jsstring) (v : Entry) :
  listsOrFalsy GAMES -> getEntry GAMES p = Some v -> listOrFalsy v = true.
Proof.
  unfold listsOrFalsy. induction 1 as [|[k w] g Hw Hg IH]; simpl; [discriminate|].
  destruct (bool_decide (k = p)); [intros [= <-]; exact Hw | exact IH].
Qed.

Lemma entryOrEmpty_titles (p : jsstring) :
  listsOrFalsy GAMES -> exists ts, entryOrEmpty GAMES p = Titles ts.
Proof.
  intros Hg. unfold entryOrEmpty.
  destruct (getEntry GAMES p) as [v|] eqn:Ev; [|eexists; reflexivity].
  pose proof (getEntry_listOrFalsy p v Hg Ev) as Hv.
  destruct v as [ts| |b|n|s|]; simpl in *;
    try (eexists; reflexivity);
    try discriminate Hv;
    apply negb_true_iff in Hv; rewrite Hv; eexists; reflexivity.
Qed.

Lemma filterLoop_total (st : Modern.State) (platforms : list jsstring)
    (acc : list (jsstring * list jsstring)) (total : nat) :
  listsOrFalsy GAMES ->
  exists out total', Modern.filterLoop GAMES st platforms acc total = Ok (out, total').
Proof.
  intros Hg. revert acc total.
  induction platforms as [|p rest IH]; intros acc total; simpl; [eauto|].
  destruct (entryOrEmpty_titles p Hg) as [ts ->]. simpl. apply IH.
Qed.

Lemma renderLoop_total (linkMap coverMap : UrlMap) (term : jsstring)
    (platforms : list jsstring) :
  listsOrFalsy GAMES ->
  exists out, Script.renderLoop GAMES linkMap coverMap term platforms = Ok out.
Proof.
  intros Hg. induction platforms as [|p rest [out IH]]; simpl; [eauto|].
  destruct (entryOrEmpty_titles p Hg) as [ts ->]. simpl. rewrite IH. simpl. eauto.
Qed.
End Totality.



(** * Catalog values that are not lists *)

(** C8, as stated, fails: under the key [SNES] the catalog [stringForList]
    has a string, not a list of titles, and the pass throws a TypeError in
    part_000 and in script.js instead of taking the platform as empty. *)
Lemma string_entry_throws :
  getEntry stringForList snes = Some (EString (u16 "Chrono Trigger"))
  /\ filteredOf stringForList Modern.initialState snes = TypeError
  /\ Modern.applyFilters stringForList Modern.initialState = TypeError
  /\ Modern.render stringForList ∅ Modern.initialState = TypeError
  /\ Script.render stringForList ∅ ∅ [] [] = TypeError.
Proof. repeat split; vm_compute; reflexivity. Qed.


(** C8 (amended): a platform whose catalog value is falsy (null, false,
    0, the empty string), or that the catalog does not have and whose
    name is not that of a member every object inherits, is taken as an
    empty list of titles and contributes no match.  Over a catalog whose
    values are lists of titles or such falsy values, the filter and render
    pass of part_000 and of script.js returns a result for every filter
    state whose selected platform is a key of the catalog or not the name
    of an inherited member; the panel functions are total.  A platform
    whose value is neither a list nor falsy makes every pass throw that
    visits it: the pass with that platform selected, and the pass with no
    platform selected. *)
Theorem falsy_entry_is_empty `{Engine} (GAMES : Catalog) (linkMap coverMap : UrlMap) :
  (forall (p : jsstring) (f : jsstring -> bool),
     absentOrFalsy GAMES p -> filterEntry f (entryOrEmpty GAMES p) = Ok [])
  /\ (listsOrFalsy GAMES ->
      (forall st, plainSelection GAMES (Modern.platform st) ->
         exists page, Modern.render GAMES linkMap st = Ok page)
      /\ (forall searchValue sel, plainSelection GAMES sel ->
            exists out, Script.render GAMES linkMap coverMap searchValue sel = Ok out))
  /\ (forall (st : Modern.State) (p : jsstring) (v : Entry),
        p ∈ Modern.allPlatforms GAMES st ->
        getEntry GAMES p = Some v -> listOrFalsy v = false ->
        Modern.applyFilters GAMES st = TypeError
        /\ Modern.render GAMES linkMap st = TypeError)
  /\ (forall (searchValue sel p : jsstring) (v : Entry),
        p ∈ Script.platformsOf GAMES sel ->
        getEntry GAMES p = Some v -> listOrFalsy v = false ->
        Script.render GAMES linkMap coverMap searchValue sel = TypeError).
Proof.
  split; [|split; [|split]].
  - intros p f Hp. rewrite (entryOrEmpty_missing GAMES p Hp). reflexivity.
  - intros Hg. split.
    + intros st _. unfold Modern.render, Modern.applyFilters.
      destruct (filterLoop_total GAMES st (Modern.allPlatforms GAMES st) [] 0%nat Hg)
        as (out & total & ->). simpl. eauto.
    + intros searchValue sel _. unfold Script.render. apply renderLoop_total, Hg.
  - intros st p v Hin Hv Hl.
    assert (E : Modern.applyFilters GAMES st = TypeError)
      by (unfold Modern.applyFilters; exact (filterLoop_throws GAMES st _ [] 0%nat p v Hin Hv Hl)).
    split; [exact E|]. unfold Modern.render. rewrite E. reflexivity.
  - intros searchValue sel p v Hin Hv Hl. unfold Script.render.
    exact (renderLoop_throws GAMES linkMap coverMap _ _ p v Hin Hv Hl).
Qed.

(** A catalog with [null] under "Genesis", and a platform it does not
    have. *)
Lemma falsy_entry_is_empty_witness :
  absentOrFalsy nullPlatform (u16 "Genesis")
  /\ absentOrFalsy nullPlatform (u16 "Game Boy")
  /\ listsOrFalsy nullPlatform
  /\ plainSelection nullPlatform (u16 "Genesis")
  /\ filterEntry (Modern.titleMatchesFilters chronoSearch)
       (entryOrEmpty nullPlatform (u16 "Genesis")) = Ok []
  /\ filterEntry (Modern.titleMatchesFilters chronoSearch)
       (entryOrEmpty nullPlatform (u16 "Game Boy")) = Ok []
  /\ (exists page, Modern.render nullPlatform ∅ (setPlatform (u16 "Genesis") chronoSearch) = Ok page)
  /\ snes ∈ Modern.allPlatforms stringForList Modern.initialState
  /\ Modern.render stringForList ∅ Modern.initialState = TypeError.
Proof.
  assert (A : absentOrFalsy nullPlatform (u16 "Genesis")) by reflexivity.
  assert (A' : absentOrFalsy nullPlatform (u16 "Game Boy")) by reflexivity.
  assert (B : listsOrFalsy nullPlatform) by (repeat constructor).
  assert (C : plainSelection nullPlatform (u16 "Genesis")) by (left; eexists; reflexivity).
  assert (D : snes ∈ Modern.allPlatforms stringForList Modern.initialState)
    by (apply list_elem_of_singleton; reflexivity).
  destruct (falsy_entry_is_empty nullPlatform ∅ ∅) as (Hm & Ht & _).
  destruct (falsy_entry_is_empty stringForList ∅ ∅) as (_ & _ & Hx & _).
  split; [exact A|]. split; [exact A'|]. split; [exact B|]. split; [exact C|].
  split; [exact (Hm _ _ A)|]. split; [exact (Hm _ _ A')|].
  split; [exact (proj1 (Ht B) (setPlatform (u16 "Genesis") chronoSearch) C)|].
  split; [exact D|].
  exact (proj2 (Hx Modern.initialState snes (EString (u16 "Chrono Trigger")) D eq_refl eq_refl)).
Defined.

(** * Letter buckets *)

Section Letters.
Context `{Engine}.

Lemma firstLetterKey_cases (title : jsstring) :
  Modern.firstLetterKey title
  = if existsb isUpperAZ (firstUpper title) then firstUpper title else u16 "#".
Proof. reflexivity. Qed.

Lemma titleMatchesFilters_letter (st : Modern.State) (title : jsstring) :
  Modern.letter st <> [] ->
  Modern.titleMatchesFilters st title
  = searchKeeps st title && bool_decide (Modern.firstLetterKey title = Modern.letter st).
Proof.
  intros Hl. unfold Modern.titleMatchesFilters, searchKeeps.
  assert (Ht : truthy (Modern.letter st) = true)
    by (destruct (Modern.letter st); [contradiction | reflexivity]).
  rewrite Ht. simpl.
  destruct (truthy (Modern.search st)); simpl;
    [destruct (includes _ _); simpl|];
    destruct (bool_decide (Modern.firstLetterKey title = Modern.letter st)); reflexivity.
Qed.

Lemma firstLetterKey_letter (title : jsstring) (l : N) :
  isUpperAZ l = true ->
  Modern.firstLetterKey title = [l] <-> firstUpper title = [l].
Proof.
  intros Hl. rewrite firstLetterKey_cases.
  destruct (existsb isUpperAZ (firstUpper title)) eqn:Ee; [reflexivity|]. split.
  - intros [= <-]. discriminate Hl.
  - intros E. rewrite E in Ee. simpl in Ee. rewrite Hl in Ee. discriminate Ee.
Qed.

Lemma firstUpper_ascii (title rest : jsstring) (c : N) :
  trim title = c :: rest -> isAscii c = true -> firstUpper title = [asciiUpper c].
Proof.
  intros Ht Hc. unfold firstUpper. rewrite Ht. unfold charAt0. simpl.
  rewrite take_0. apply toUpperCase_ascii. simpl. rewrite Hc. reflexivity.
Qed.
End Letters.

(** C6, as stated, fails: the first character of [dotlessItem] is dotless
    i, not an ASCII letter, and [toUpperCase] makes it [I]: the title is in
    the bucket [I] and not in the bucket [#].  The first character of
    [sharpBeta] is sharp s, whose upper case is [SS]: that is its key, and
    the title is not in the bucket [#] either. *)
Lemma dotless_i_in_bucket_I :
  charAt0 (trim dotlessItem) = [305]
  /\ isUpperAZ 305 = false /\ inRange 97 122 305 = false
  /\ @Modern.titleMatchesFilters latinEngine (letterOnly (u16 "I")) dotlessItem = true
  /\ @Modern.titleMatchesFilters latinEngine (letterOnly (u16 "#")) dotlessItem = false
  /\ @Modern.firstLetterKey latinEngine sharpBeta = u16 "SS"
  /\ @Modern.titleMatchesFilters latinEngine (letterOnly (u16 "#")) sharpBeta = false.
Proof. repeat split; vm_compute; reflexivity. Qed.

(** C6 (amended): with the letter filter set to a letter [A]..[Z], a title
    passes exactly when the search keeps it and the first character of
    the trimmed title has that letter as its upper case ([toUpperCase]).
    A title whose first character has an upper case without any letter
    [A]..[Z] (for an ASCII first character: one that is not a letter) is
    in none of the buckets [A]..[Z] and passes exactly when the search
    keeps it and the letter filter is [#].  A title whose first character
    has an upper case with a letter [A]..[Z] does not pass the filter
    [#]. *)
Theorem letter_bucket `{Engine} (st : Modern.State) (title : jsstring) :
  Modern.letter st <> [] ->
  (forall l, isUpperAZ l = true -> Modern.letter st = [l] ->
     (Modern.titleMatchesFilters st title = true
      <-> searchKeeps st title = true /\ firstUpper title = [l]))
  /\ (existsb isUpperAZ (firstUpper title) = false ->
      (forall l, isUpperAZ l = true -> Modern.letter st = [l] ->
         Modern.titleMatchesFilters st title = false)
      /\ (Modern.titleMatchesFilters st title = true
          <-> searchKeeps st title = true /\ Modern.letter st = u16 "#"))
  /\ (forall c rest, trim title = c :: rest -> isAscii c = true ->
        firstUpper title = [asciiUpper c]
        /\ Modern.firstLetterKey title
           = if isUpperAZ (asciiUpper c) then [asciiUpper c] else u16 "#")
  /\ (existsb isUpperAZ (firstUpper title) = true ->
      Modern.firstLetterKey title = firstUpper title
      /\ (Modern.letter st = u16 "#" -> Modern.titleMatchesFilters st title = false)).
Proof.
  intros Hl.
  assert (Hm : Modern.titleMatchesFilters st title = true
               <-> searchKeeps st title = true /\ Modern.firstLetterKey title = Modern.letter st).
  { rewrite (titleMatchesFilters_letter st title Hl), andb_true_iff, bool_decide_eq_true.
    reflexivity. }
  split; [|split; [|split]].
  - intros l Hu El. rewrite Hm, El, (firstLetterKey_letter title l Hu). reflexivity.
  - intros Hn.
    assert (Hk : Modern.firstLetterKey title = u16 "#")
      by (rewrite firstLetterKey_cases, Hn; reflexivity).
    split.
    + intros l Hu El. destruct (Modern.titleMatchesFilters st title) eqn:Ep; [|reflexivity].
      destruct (proj1 Hm eq_refl) as [_ Ek].
      rewrite Hk, El in Ek. injection Ek as <-. discriminate Hu.
    + rewrite Hm, Hk. split; intros [A B]; (split; [exact A | symmetry; exact B]).
  - intros c rest Ht Hc. pose proof (firstUpper_ascii title rest c Ht Hc) as Eu.
    split; [exact Eu|]. rewrite firstLetterKey_cases, Eu.
    simpl. rewrite orb_false_r. reflexivity.
  - intros He.
    assert (Hk : Modern.firstLetterKey title = firstUpper title)
      by (rewrite firstLetterKey_cases, He; reflexivity).
    split; [exact Hk|]. intros El.
    destruct (Modern.titleMatchesFilters st title) eqn:Ep; [|reflexivity].
    destruct (proj1 Hm eq_refl) as [_ Ek].
    rewrite Hk, El in Ek. rewrite Ek in He. discriminate He.
Qed.

(** "3D Pinball": kept by the bucket [#] and by no letter; "asteroids" is
    in the bucket [A]. *)
Lemma letter_bucket_witness :
  Modern.letter (letterOnly (u16 "A")) <> []
  /\ existsb isUpperAZ (firstUpper (u16 "3D Pinball")) = false
  /\ Modern.titleMatchesFilters (letterOnly (u16 "A")) (u16 "3D Pinball") = false
  /\ Modern.titleMatchesFilters (letterOnly (u16 "#")) (u16 "3D Pinball") = true
  /\ Modern.titleMatchesFilters (letterOnly (u16 "A")) (u16 "  asteroids") = true.
Proof.
  assert (Hl : Modern.letter (letterOnly (u16 "A")) <> []) by discriminate.
  assert (Hn : existsb isUpperAZ (firstUpper (u16 "3D Pinball")) = false) by reflexivity.
  destruct (letter_bucket (letterOnly (u16 "A")) (u16 "3D Pinball") Hl) as (_ & Hb & _).
  destruct (Hb Hn) as [Hnone _].
  split; [exact Hl|]. split; [exact Hn|].
  split; [exact (Hnone 65 eq_refl eq_refl)|].
  split; vm_compute; reflexivity.
Defined.

(** * Debounced search *)

Section Debounce.
Context `{Engine}.

Lemma advance_idle (now : nat) (w : Modern.World) :
  Modern.timers w = [] ->
  (Modern.clock w <= now)%nat ->
  Modern.timers (Modern.advance now w) = []
  /\ Modern.clock (Modern.advance now w) = now
  /\ Modern.wState (Modern.advance now w) = Modern.wState w
  /\ Modern.renderLog (Modern.advance now w) = Modern.renderLog w
  /\ Modern.timerVar (Modern.advance now w) = Modern.timerVar w.
Proof.
  intros Ht Hc. unfold Modern.advance. rewrite Ht. simpl.
  repeat split; try assumption. lia.
Qed.

Lemma first_input (w0 : Modern.World) (t : nat) (v : jsstring) :
  Modern.timers w0 = [] ->
  (Modern.clock w0 <= t)%nat ->
  pendingOne w0 t v (Modern.onSearchInput v (Modern.advance t w0)).
Proof.
  intros Ht Hc. destruct (advance_idle t w0 Ht Hc) as (At & Ac & As & Al & Av).
  set (a := Modern.advance t w0) in *. clearbody a.
  constructor; simpl.
  - exists (Modern.nextTimer a). rewrite At, Ac.
    destruct (Modern.timerVar a); split; reflexivity.
  - exact Ac.
  - reflexivity.
  - exact As.
  - exact Al.
Qed.

Lemma advance_before_due (w : Modern.World) (id t now : nat) :
  Modern.timers w = [(id, (t + Modern.debounceMs)%nat)] ->
  Modern.clock w = t ->
  (t <= now)%nat -> (now < t + Modern.debounceMs)%nat ->
  Modern.timers (Modern.advance now w) = Modern.timers w
  /\ Modern.clock (Modern.advance now w) = now
  /\ Modern.wState (Modern.advance now w) = Modern.wState w
  /\ Modern.renderLog (Modern.advance now w) = Modern.renderLog w
  /\ Modern.timerVar (Modern.advance now w) = Modern.timerVar w.
Proof.
  intros Ht Hc Hle Hlt. unfold Modern.advance. rewrite Ht. simpl.
  destruct (Nat.leb_spec (t + Modern.debounceMs) now) as [Hd|Hd]; [lia|]. simpl.
  repeat split; try assumption. lia.
Qed.

(** A newer event before the timer is due cancels it and sets the next. *)
Lemma next_input (w0 w : Modern.World) (t t' : nat) (v v' : jsstring) :
  pendingOne w0 t v w ->
  (t <= t')%nat -> (t' < t + Modern.debounceMs)%nat ->
  pendingOne w0 t' v' (Modern.onSearchInput v' (Modern.advance t' w)).
Proof.
  intros [(id & Ht & Hv) Hc Hb Hs Hl] Hle Hlt.
  destruct (advance_before_due w id t t' Ht Hc Hle Hlt) as (At & Ac & As & Al & Av).
  set (a := Modern.advance t' w) in *. clearbody a.
  constructor; simpl.
  - exists (Modern.nextTimer a). rewrite At, Ac, Av, Hv, Ht. simpl.
    rewrite Nat.eqb_refl. split; reflexivity.
  - exact Ac.
  - reflexivity.
  - rewrite As. exact Hs.
  - rewrite Al. exact Hl.
Qed.

Lemma run_burst (w0 w : Modern.World) (t : nat) (v : jsstring)
    (events : list (nat * jsstring)) :
  pendingOne w0 t v w ->
  withinWindow t events ->
  exists t', pendingOne w0 t' (lastValue v events) (Modern.run events w).
Proof.
  revert w t v. induction events as [|[t' v'] rest IH]; intros w t v Hp Hw.
  - exists t. exact Hp.
  - destruct Hw as (Hle & Hlt & Hw). simpl.
    destruct (IH _ t' v' (next_input w0 w t t' v v' Hp Hle Hlt) Hw) as [t'' Hq].
    exists t''. unfold lastValue in *. simpl.
    destruct (map snd rest) as [|x xs] eqn:Er; [exact Hq|].
    simpl in *. destruct (last (x :: xs)) eqn:El; simpl in *; [exact Hq|].
    apply last_None in El. discriminate El.
Qed.

Lemma settle_one (w0 w : Modern.World) (t : nat) (v : jsstring) :
  pendingOne w0 t v w ->
  let st := Modern.setSearch (toLowerCase (trim v)) (Modern.wState w0) in
  Modern.renderLog (Modern.settle w) = Modern.renderLog w0 ++ [st]
  /\ Modern.wState (Modern.settle w) = st
  /\ Modern.timers (Modern.settle w) = [].
Proof.
  intros [(id & Ht & Hv) Hc Hb Hs Hl]. unfold Modern.settle. rewrite Ht. simpl.
  rewrite Ht, Hb, Hs, Hl. simpl. rewrite Nat.eqb_refl. repeat split.
Qed.
End Debounce.

(** script.js binds [render] to the [input] event itself: there every
    event is a pass. *)
Lemma script_renders_every_input `{Engine} (games : Catalog) (linkMap coverMap : UrlMap)
    (sel : jsstring) (values : list jsstring)
    (log : list (result (list (jsstring * list Script.Row)))) :
  length (Script.runInputs games linkMap coverMap sel values log)
  = (length log + length values)%nat.
Proof.
  revert log. induction values as [|v vs IH]; intros log; simpl; [lia|].
  unfold Script.runInputs in *. simpl. rewrite IH. unfold Script.onSearchInput.
  rewrite length_app. simpl. lia.
Qed.

(** C7, as stated, fails in script.js, whose [bindControls] has no
    debounce: two [input] events of the search box, however close in time,
    are two passes of [render], the first with the text of the first
    event. *)
Lemma script_recomputes_on_every_input :
  Script.runInputs twoPlatforms ∅ ∅ [] [u16 "C"; u16 "Ch"] []
  = [ Script.render twoPlatforms ∅ ∅ (u16 "C") [];
      Script.render twoPlatforms ∅ ∅ (u16 "Ch") [] ]
  /\ length (Script.runInputs twoPlatforms ∅ ∅ [] [u16 "C"; u16 "Ch"] []) = 2%nat.
Proof. split; reflexivity. Qed.

(** C7 (amended): in part_000, whose search handler is debounced, from a
    world without pending timer, a sequence of one or more [input] events
    of the search box, each arriving less than 160 ms after the one before,
    ends in exactly one pass of [render], run with [state.search] the
    trimmed lower-case text of the last event and the other filters as
    they were; while the events arrive, after each of them exactly one
    timer is pending (the earlier one is cancelled) and no pass has run. *)
Theorem debounce_one_recompute `{Engine} (w : Modern.World) (t : nat) (v : jsstring)
    (events : list (nat * jsstring)) :
  Modern.timers w = [] ->
  (Modern.clock w <= t)%nat ->
  withinWindow t events ->
  let final := Modern.setSearch (toLowerCase (trim (lastValue v events))) (Modern.wState w) in
  let w' := Modern.settle (Modern.run ((t, v) :: events) w) in
  Modern.renderLog w' = Modern.renderLog w ++ [final]
  /\ Modern.wState w' = final
  /\ Modern.search (Modern.wState w') = toLowerCase (trim (lastValue v events))
  /\ Modern.platform (Modern.wState w') = Modern.platform (Modern.wState w)
  /\ Modern.letter (Modern.wState w') = Modern.letter (Modern.wState w)
  /\ map Modern.search (Modern.renderLog w')
     = map Modern.search (Modern.renderLog w) ++ [toLowerCase (trim (lastValue v events))]
  /\ Modern.timers w' = []
  /\ (forall seen later, events = seen ++ later ->
        length (Modern.timers (Modern.run ((t, v) :: seen) w)) = 1%nat
        /\ Modern.renderLog (Modern.run ((t, v) :: seen) w) = Modern.renderLog w).
Proof.
  intros Ht Hc Hw final w'.
  pose proof (first_input w t v Ht Hc) as H0.
  destruct (run_burst w _ t v events H0 Hw) as [t' Hp].
  destruct (settle_one w _ t' _ Hp) as (Hlog & Hst & Htm).
  assert (Hlog' : Modern.renderLog w' = Modern.renderLog w ++ [final]) by exact Hlog.
  assert (Hst' : Modern.wState w' = final) by exact Hst.
  assert (Htm' : Modern.timers w' = []) by exact Htm.
  clear Hlog Hst Htm. clearbody w'.
  split; [exact Hlog'|]. split; [exact Hst'|].
  split; [rewrite Hst'; reflexivity|]. split; [rewrite Hst'; reflexivity|].
  split; [rewrite Hst'; reflexivity|].
  split; [rewrite Hlog', map_app; reflexivity|]. split; [exact Htm'|].
  intros seen later ->.
  assert (Hs : withinWindow t seen).
  { clear -Hw. revert t Hw. induction seen as [|[t1 v1] seen IH]; intros t Hw; [exact I|].
    destruct Hw as (A & B & C). repeat split; [exact A | exact B | apply IH, C]. }
  destruct (run_burst w _ t v seen H0 Hs) as [t1 [(id & Hid & _) _ _ _ Hl1]].
  simpl. rewrite Hid. split; [reflexivity | exact Hl1].
Qed.

(** Three key strokes 50 ms apart: one pass, with the search "chr". *)
Lemma debounce_one_recompute_witness :
  Modern.timers idleWorld = []
  /\ (Modern.clock idleWorld <= 100)%nat
  /\ withinWindow 100 (tail typingChr)
  /\ map Modern.search (Modern.renderLog (Modern.settle (Modern.run typingChr idleWorld)))
     = [u16 "chr"]
  /\ Modern.search (Modern.wState (Modern.settle (Modern.run typingChr idleWorld))) = u16 "chr".
Proof.
  assert (W : withinWindow 100 (tail typingChr)) by (simpl; unfold Modern.debounceMs; lia).
  split; [reflexivity|]. split; [simpl; lia|]. split; [exact W|].
  destruct (debounce_one_recompute idleWorld 100%nat (u16 "C") (tail typingChr)
              eq_refl (Nat.le_0_l _) W) as (_ & _ & Hs & _ & _ & Hlog & _).
  split; [exact Hlog | exact Hs].
Defined.

(** * More on keys and slugs *)

(** Comparisons of code units, as arithmetic. *)
Ltac units :=
  cbv beta delta [slugChar notAlnum isAlnum isUpperAZ isHyphen isMark isAscii
    isSpace isTrademark isOpener isCloser isLineTerminator
    asciiLower asciiUpper inRange] in *;
  repeat match goal with
         | H : context [N.leb ?a ?b] |- _ => destruct (N.leb_spec a b)
         | H : context [N.eqb ?a ?b] |- _ => destruct (N.eqb_spec a b)
         | H : context [N.ltb ?a ?b] |- _ => destruct (N.ltb_spec a b)
         | |- context [N.leb ?a ?b] => destruct (N.leb_spec a b)
         | |- context [N.eqb ?a ?b] => destruct (N.eqb_spec a b)
         | |- context [N.ltb ?a ?b] => destruct (N.ltb_spec a b)
         end;
  simpl in *; try congruence; try lia.

Section KeysAndSlugs.
Context `{Engine}.

Lemma removeAll_id (p : N -> bool) (s : jsstring) :
  Forall (fun c => p c = false) s -> removeAll p s = s.
Proof.
  unfold removeAll. induction 1 as [|c s Hc Hs IH]; simpl; [reflexivity|].
  rewrite Hc, IH. reflexivity.
Qed.

Lemma removeAll_Forall (p : N -> bool) (s : jsstring) :
  Forall (fun c => p c = false) (removeAll p s).
Proof.
  unfold removeAll. induction s as [|c s IH]; simpl; [constructor|].
  destruct (p c) eqn:Ec; simpl; [exact IH | constructor; assumption].
Qed.

Lemma map_id_on (f : N -> N) (s : jsstring) :
  Forall (fun c => f c = c) s -> map f s = s.
Proof. induction 1 as [|c s Hc Hs IH]; simpl; [reflexivity | rewrite Hc, IH; reflexivity]. Qed.

Lemma Forall_ascii (s : jsstring) :
  Forall (fun c => isAscii c = true) s -> forallb isAscii s = true.
Proof. induction 1 as [|c s Hc Hs IH]; simpl; [reflexivity | rewrite Hc, IH; reflexivity]. Qed.

(** The engine leaves a string of [[a-z0-9-]] as it is. *)
Lemma engine_fixes_slugChars (s : jsstring) :
  Forall slugChar s ->
  toLowerCase (removeAll isMark (normalizeNFKD s)) = s.
Proof.
  intros Hs.
  assert (Ha : forallb isAscii s = true).
  { apply Forall_ascii. eapply Forall_impl; [exact Hs|]. intros c Hc. units. }
  rewrite (normalizeNFKD_ascii s Ha), removeAll_id.
  - rewrite (toLowerCase_ascii s Ha). apply map_id_on.
    eapply Forall_impl; [exact Hs|]. intros c Hc. units.
  - eapply Forall_impl; [exact Hs|]. intros c Hc. units.
Qed.

Lemma normalizeKey_alnum (s : jsstring) :
  Forall (fun c => isAlnum c = true) (normalizeKey s).
Proof.
  unfold normalizeKey. eapply Forall_impl; [apply removeAll_Forall|].
  intros c Hc. unfold notAlnum in Hc. apply negb_false_iff in Hc. exact Hc.
Qed.

(** X1: the normalization key of any string has only characters of
    [[a-z0-9]], and normalizing a key again gives the same key. *)
Theorem normalizeKey_idempotent (s : jsstring) :
  Forall (fun c => isAlnum c = true) (normalizeKey s)
  /\ normalizeKey (normalizeKey s) = normalizeKey s.
Proof.
  split; [apply normalizeKey_alnum|].
  pose proof (normalizeKey_alnum s) as Hk.
  set (k := normalizeKey s) in *. unfold normalizeKey at 1.
  rewrite engine_fixes_slugChars.
  - apply removeAll_id. eapply Forall_impl; [exact Hk|].
    intros c Hc. unfold notAlnum. rewrite Hc. reflexivity.
  - eapply Forall_impl; [exact Hk|]. intros c Hc. unfold slugChar. rewrite Hc. reflexivity.
Qed.

Lemma removeHyphens_replaceRuns (s : jsstring) :
  removeAll isHyphen (replaceRuns notAlnum [45] s) = removeAll notAlnum s.
Proof.
  unfold removeAll. induction s as [|c s IH]; simpl; [reflexivity|].
  destruct (isAlnum c) eqn:Ec.
  - assert (En : notAlnum c = false) by (unfold notAlnum; rewrite Ec; reflexivity).
    rewrite En. simpl. rewrite (alnum_not_hyphen c Ec). simpl. rewrite IH. reflexivity.
  - assert (En : notAlnum c = true) by (unfold notAlnum; rewrite Ec; reflexivity).
    rewrite En. simpl. destruct (headIs notAlnum s); simpl; exact IH.
Qed.

Lemma removeAll_dropWhile (p : N -> bool) (s : jsstring) :
  removeAll p (dropWhile p s) = removeAll p s.
Proof.
  unfold removeAll. induction s as [|c s IH]; simpl; [reflexivity|].
  destruct (p c) eqn:Ec; simpl; [exact IH | rewrite Ec; reflexivity].
Qed.

Lemma removeAll_dropEndWhile (p : N -> bool) (s : jsstring) :
  removeAll p (dropEndWhile p s) = removeAll p s.
Proof.
  unfold removeAll. induction s as [|c s IH]; simpl; [reflexivity|].
  destruct (dropEndWhile p s) as [|d r] eqn:Er.
  - simpl in IH. rewrite <- IH. destruct (p c) eqn:Ec; simpl; [|rewrite Ec]; reflexivity.
  - simpl. rewrite <- IH. reflexivity.
Qed.

Lemma removeHyphens_collapse (s : jsstring) :
  removeAll isHyphen (collapseHyphens s) = removeAll isHyphen s.
Proof.
  unfold removeAll, collapseHyphens. induction s as [|c s IH]; simpl; [reflexivity|].
  destruct (isHyphen c) eqn:Ec; simpl; [|rewrite Ec, IH; reflexivity].
  destruct (headIs isHyphen s); simpl; exact IH.
Qed.

Lemma replaceChar_absent (c : N) (r s : jsstring) :
  Forall (fun d => d <> c) s -> replaceChar c r s = s.
Proof.
  unfold replaceChar. induction 1 as [|d s Hd Hs IH]; simpl; [reflexivity|].
  destruct (N.eqb_spec d c); [contradiction|]. simpl. rewrite IH. reflexivity.
Qed.

(** X2: the normalization key of a string is its hyphenated form without
    the hyphens; for a cleaned title without [&] and [+], it is the
    generated slug without its hyphens. *)
Theorem key_is_slug_without_hyphens (s : jsstring) :
  removeAll isHyphen (hyphenate s) = normalizeKey s
  /\ (Forall (fun c => c <> 38 /\ c <> 43) s ->
      removeAll isHyphen (generateSlug s) = normalizeKey s).
Proof.
  assert (Hh : forall x, removeAll isHyphen (hyphenate x) = normalizeKey x).
  { intros x. unfold hyphenate, normalizeKey, trimHyphens.
    rewrite removeHyphens_collapse, removeAll_dropEndWhile, removeAll_dropWhile.
    apply removeHyphens_replaceRuns. }
  split; [apply Hh|].
  intros Hs. unfold generateSlug.
  rewrite (replaceChar_absent 38), (replaceChar_absent 43); [apply Hh| |].
  - eapply Forall_impl; [exact Hs|]. intros c [_ Hc]. exact Hc.
  - eapply Forall_impl; [exact Hs|]. intros c [Hc _]. exact Hc.
Qed.

End KeysAndSlugs.

Lemma key_is_slug_without_hyphens_witness :
  Forall (fun c => c <> 38 /\ c <> 43) (u16 "U.N. Squadron")
  /\ removeAll isHyphen (generateSlug (u16 "U.N. Squadron"))
     = normalizeKey (u16 "U.N. Squadron").
Proof.
  assert (A : Forall (fun c => c <> 38 /\ c <> 43) (u16 "U.N. Squadron"))
    by (repeat constructor; discriminate).
  split; [exact A|].
  exact (proj2 (key_is_slug_without_hyphens (u16 "U.N. Squadron")) A).
Defined.

Section SlugFixedPoint.
Context `{Engine}.

Lemma lookup_noDouble (s : jsstring) :
  (forall i : nat, s !! i = Some 45 -> s !! S i <> Some 45) -> noDoubleHyphen s = true.
Proof.
  induction s as [|c s IH]; intros Hs; [reflexivity|]. simpl.
  rewrite IH by (intros i; apply (Hs (S i))). rewrite andb_true_r.
  destruct (isHyphen c) eqn:Ec; [|reflexivity]. simpl.
  destruct s as [|d s]; [reflexivity|]. simpl.
  destruct (isHyphen d) eqn:Ed; [|reflexivity].
  apply isHyphen_eq in Ec, Ed. subst. exfalso. exact (Hs 0%nat eq_refl eq_refl).
Qed.

Lemma replaceRuns_slug (s : jsstring) :
  Forall slugChar s -> noDoubleHyphen s = true -> replaceRuns notAlnum [45] s = s.
Proof.
  induction 1 as [|c s Hc Hs IH]; intros Hn; [reflexivity|]. simpl in *.
  apply andb_prop in Hn as [Hd Hn]. rewrite (IH Hn).
  destruct (isAlnum c) eqn:Ec.
  - assert (En : notAlnum c = false) by (unfold notAlnum; rewrite Ec; reflexivity).
    rewrite En. reflexivity.
  - assert (En : notAlnum c = true) by (unfold notAlnum; rewrite Ec; reflexivity).
    rewrite En. unfold slugChar in Hc. rewrite Ec in Hc. simpl in Hc.
    rewrite Hc in Hd. simpl in Hd. apply negb_true_iff in Hd.
    assert (Hh : headIs notAlnum s = false).
    { destruct s as [|d s]; [reflexivity|]. simpl in *.
      apply Forall_cons in Hs as [Hd' _]. unfold slugChar in Hd'. unfold notAlnum.
      rewrite Hd in Hd'. rewrite orb_false_r in Hd'. rewrite Hd'. reflexivity. }
    rewrite Hh. rewrite (isHyphen_eq c Hc). reflexivity.
Qed.

Lemma dropWhile_id (p : N -> bool) (s : jsstring) :
  headIs p s = false -> dropWhile p s = s.
Proof. destruct s as [|c s]; simpl; [reflexivity|]. intros ->. reflexivity. Qed.

Lemma dropEndWhile_id (p : N -> bool) (s : jsstring) :
  (forall c, last s = Some c -> p c = false) -> dropEndWhile p s = s.
Proof.
  induction s as [|c s IH]; intros Hl; [reflexivity|]. simpl.
  destruct s as [|d s].
  - simpl. rewrite (Hl c eq_refl). reflexivity.
  - rewrite IH by (intros e He; apply Hl; exact He). reflexivity.
Qed.

Lemma hyphenate_slug (s : jsstring) : slugWellFormed s -> hyphenate s = s.
Proof.
  intros (Hc & Hh & Hl & Hi). unfold hyphenate, trimHyphens.
  pose proof (lookup_noDouble s Hi) as Hn.
  rewrite (engine_fixes_slugChars s Hc), (replaceRuns_slug s Hc Hn).
  rewrite dropWhile_id, dropEndWhile_id, collapseHyphens_id; try reflexivity; try exact Hn.
  - intros c Hlc. destruct (isHyphen c) eqn:Ec; [|reflexivity].
    apply isHyphen_eq in Ec. subst c. contradiction.
  - destruct s as [|c s]; [reflexivity|]. simpl in *.
    destruct (isHyphen c) eqn:Ec; [|reflexivity].
    apply isHyphen_eq in Ec. subst c. contradiction.
Qed.

Lemma slugChars_no_amp_plus (s : jsstring) :
  Forall slugChar s -> Forall (fun c => c <> 38 /\ c <> 43) s.
Proof.
  intros Hs. eapply Forall_impl; [exact Hs|].
  intros c Hc. split; intros ->; discriminate Hc.
Qed.

(** X3: a well-formed slug is a fixed point of the generation path, so
    generating a slug from a generated slug changes nothing. *)
Theorem generateSlug_fixed_point (s : jsstring) :
  (slugWellFormed s -> generateSlug s = s)
  /\ generateSlug (generateSlug s) = generateSlug s.
Proof.
  assert (Hf : forall x, slugWellFormed x -> generateSlug x = x).
  { intros x Hx. unfold generateSlug.
    pose proof (slugChars_no_amp_plus x (proj1 Hx)) as Ha.
    rewrite (replaceChar_absent 38), (replaceChar_absent 43).
    - apply hyphenate_slug, Hx.
    - eapply Forall_impl; [exact Ha|]. intros c [_ Hc]. exact Hc.
    - eapply Forall_impl; [exact Ha|]. intros c [Hc _]. exact Hc. }
  split; [apply Hf|]. apply Hf. apply hyphenate_wellformed.
Qed.

Lemma aliasSlugMap_wellformed (key slug : jsstring) :
  aliasSlugMap !! key = Some slug -> slugWellFormed slug.
Proof.
  unfold aliasSlugMap. intros Hk.
  assert (Hw : forall x, forallb (fun c => isAlnum c || isHyphen c) x = true ->
                         head x <> Some 45 -> last x <> Some 45 ->
                         noDoubleHyphen x = true -> slugWellFormed x).
  { intros x Hc Hh Hl Hn. repeat split; try assumption.
    - apply Forall_forall. intros c Hin.
      apply (proj1 (forallb_forall _ _) Hc), list_elem_of_In, Hin.
    - intros i. apply noDouble_lookup, Hn. }
  repeat (apply lookup_insert_Some in Hk as [[_ <-]|[_ Hk]];
          [apply Hw; [reflexivity | discriminate | discriminate | reflexivity]|]).
  rewrite lookup_empty in Hk. discriminate Hk.
Qed.

(** X4: [slugifyIGDB] returns a well-formed slug for every title, from the
    alias table or generated, except for the titles whose key is
    [constructor]: for exactly those it returns the function [Object]. *)
Theorem slugifyIGDB_shape (title : jsstring) :
  match slugifyIGDB title with
  | SlugText s => slugWellFormed s
  | ObjectFunction => normalizeKey (preCleanTitle title) = u16 "constructor"
  end
  /\ (slugifyIGDB title = ObjectFunction
      <-> normalizeKey (preCleanTitle title) = u16 "constructor")
  /\ (normalizeKey (preCleanTitle title) <> u16 "constructor" ->
      exists s, slugifyIGDB title = SlugText s /\ slugWellFormed s).
Proof.
  assert (Hc : aliasSlugMap !! u16 "constructor" = None) by (vm_compute; reflexivity).
  assert (Hm : match slugifyIGDB title with
               | SlugText s => slugWellFormed s
               | ObjectFunction => normalizeKey (preCleanTitle title) = u16 "constructor"
               end).
  { unfold slugifyIGDB, aliasHit.
    destruct (aliasSlugMap !! normalizeKey (preCleanTitle title)) as [slug|] eqn:Ek.
    - rewrite (aliasSlugMap_truthy _ _ Ek). apply (aliasSlugMap_wellformed _ _ Ek).
    - destruct (bool_decide _) eqn:Eb.
      + apply bool_decide_eq_true in Eb. exact Eb.
      + apply hyphenate_wellformed. }
  split; [exact Hm|]. split; [split|].
  - intros Ho. rewrite Ho in Hm. exact Hm.
  - intros Hk. unfold slugifyIGDB, aliasHit. rewrite Hk, Hc.
    rewrite bool_decide_eq_true_2 by reflexivity. reflexivity.
  - intros Hk. destruct (slugifyIGDB title) as [s|] eqn:Es.
    + exists s. split; [reflexivity | exact Hm].
    + contradiction.
Qed.
End SlugFixedPoint.

Lemma generateSlug_fixed_point_witness :
  slugWellFormed (u16 "chrono-trigger")
  /\ generateSlug (u16 "chrono-trigger") = u16 "chrono-trigger".
Proof.
  assert (A : slugWellFormed (u16 "chrono-trigger")).
  { repeat split.
    - repeat constructor.
    - discriminate.
    - discriminate.
    - intros i. apply noDouble_lookup. reflexivity. }
  split; [exact A|].
  exact (proj1 (generateSlug_fixed_point (u16 "chrono-trigger")) A).
Defined.

(** The title "Constructor" has the key [constructor]; "Chrono Trigger"
    does not, and has a slug. *)
Lemma slugifyIGDB_shape_witness :
  normalizeKey (preCleanTitle (u16 "Constructor")) = u16 "constructor"
  /\ slugifyIGDB (u16 "Constructor") = ObjectFunction
  /\ normalizeKey (preCleanTitle (u16 "Chrono Trigger")) <> u16 "constructor"
  /\ exists s, slugifyIGDB (u16 "Chrono Trigger") = SlugText s /\ slugWellFormed s.
Proof.
  assert (K : normalizeKey (preCleanTitle (u16 "Constructor")) = u16 "constructor")
    by (vm_compute; reflexivity).
  assert (N : normalizeKey (preCleanTitle (u16 "Chrono Trigger")) <> u16 "constructor")
    by (vm_compute; discriminate).
  split; [exact K|].
  split; [exact (proj2 (proj1 (proj2 (slugifyIGDB_shape (u16 "Constructor")))) K)|].
  split; [exact N|].
  exact (proj2 (proj2 (slugifyIGDB_shape (u16 "Chrono Trigger"))) N).
Defined.

(** * Titles with an empty key *)

Section EmptyKey.
Context `{Engine}.

Lemma removeHyphens_hyphenate (x : jsstring) :
  removeAll isHyphen (hyphenate x) = normalizeKey x.
Proof.
  unfold hyphenate, normalizeKey, trimHyphens.
  rewrite removeHyphens_collapse, removeAll_dropEndWhile, removeAll_dropWhile.
  apply removeHyphens_replaceRuns.
Qed.

(** A well-formed slug that is only hyphens is empty. *)
Lemma wellformed_only_hyphens (s : jsstring) :
  slugWellFormed s -> removeAll isHyphen s = [] -> s = [].
Proof.
  intros (Hc & Hh & _ & _) He. destruct s as [|c s]; [reflexivity|]. exfalso.
  apply Forall_cons in Hc as [Hc _]. unfold slugChar in Hc.
  unfold removeAll in He. simpl in He.
  destruct (isHyphen c) eqn:Ec.
  - apply isHyphen_eq in Ec. subst c. apply Hh. reflexivity.
  - simpl in He. discriminate He.
Qed.

Lemma hyphenate_empty_key (x : jsstring) : normalizeKey x = [] -> hyphenate x = [].
Proof.
  intros Hk. apply wellformed_only_hyphens; [apply hyphenate_wellformed|].
  rewrite removeHyphens_hyphenate. exact Hk.
Qed.

Lemma normalizeKey_ascii (s : jsstring) :
  forallb isAscii s = true ->
  normalizeKey s = removeAll notAlnum (map asciiLower s).
Proof.
  intros Ha. unfold normalizeKey. rewrite (normalizeNFKD_ascii s Ha).
  assert (Hm : removeAll isMark s = s).
  { apply removeAll_id. apply Forall_forall. intros c Hc.
    pose proof (proj1 (forallb_forall _ _) Ha c (proj1 (list_elem_of_In _ _) Hc)) as Hc'.
    clear -Hc'. units. }
  rewrite Hm, (toLowerCase_ascii s Ha). reflexivity.
Qed.

(** An ASCII string with a lower-case letter or a digit has a key. *)
Lemma normalizeKey_has (s : jsstring) (c : N) :
  forallb isAscii s = true -> In c s -> isAlnum c = true -> normalizeKey s <> [].
Proof.
  intros Ha Hin Hc Hk. rewrite (normalizeKey_ascii s Ha) in Hk.
  assert (Hl : asciiLower c = c) by (clear -Hc; units).
  assert (Hi : In c (removeAll notAlnum (map asciiLower s))).
  { unfold removeAll. apply List.filter_In. split.
    - rewrite <- Hl. apply in_map, Hin.
    - unfold notAlnum. rewrite Hc. reflexivity. }
  rewrite Hk in Hi. exact Hi.
Qed.

Lemma replaceChar_keeps (c d : N) (r s : jsstring) :
  In c s -> c <> d -> In c (replaceChar d r s).
Proof.
  intros Hin Hne. unfold replaceChar. apply in_flat_map. exists c. split; [exact Hin|].
  destruct (N.eqb_spec c d); [contradiction | left; reflexivity].
Qed.

Lemma replaceChar_writes (d x : N) (r s : jsstring) :
  In d s -> In x r -> In x (replaceChar d r s).
Proof.
  intros Hin Hx. unfold replaceChar. apply in_flat_map. exists d. split; [exact Hin|].
  rewrite N.eqb_refl. exact Hx.
Qed.

Lemma replaceChar_ascii (d : N) (r s : jsstring) :
  forallb isAscii r = true -> forallb isAscii s = true ->
  forallb isAscii (replaceChar d r s) = true.
Proof.
  intros Hr Hs. apply forallb_forall. intros x Hx. unfold replaceChar in Hx.
  apply in_flat_map in Hx as (c & Hc & Hx).
  destruct (c =? d).
  - exact (proj1 (forallb_forall _ _) Hr x Hx).
  - destruct Hx as [<-|[]]. exact (proj1 (forallb_forall _ _) Hs c Hc).
Qed.

(** The generation path writes letters for [&] and [+]. *)
Lemma generateSlug_amp_plus (s : jsstring) :
  forallb isAscii s = true -> In 38 s \/ In 43 s -> generateSlug s <> [].
Proof.
  intros Ha Hin He. unfold generateSlug in He.
  set (r := replaceChar 43 (u16 " plus ") (replaceChar 38 (u16 " and ") s)) in *.
  assert (Hr : forallb isAscii r = true).
  { apply replaceChar_ascii; [reflexivity|]. apply replaceChar_ascii; [reflexivity | exact Ha]. }
  assert (Hk : normalizeKey r = []).
  { rewrite <- removeHyphens_hyphenate, He. reflexivity. }
  destruct Hin as [H38|H43].
  - apply (normalizeKey_has r 97 Hr); [|reflexivity | exact Hk].
    apply replaceChar_keeps; [|discriminate].
    apply replaceChar_writes; [exact H38|]. simpl. tauto.
  - apply (normalizeKey_has r 112 Hr); [|reflexivity | exact Hk].
    apply replaceChar_writes; [|simpl; tauto].
    apply replaceChar_keeps; [exact H43 | discriminate].
Qed.

(** The members every object inherits have names with letters. *)
Lemma inherited_names_have_keys (k : jsstring) :
  inheritedName k = true -> normalizeKey (preCleanTitle k) <> [].
Proof.
  intros Hk. apply bool_decide_eq_true in Hk. unfold inheritedNames in Hk. simpl in Hk.
  repeat (apply elem_of_cons in Hk as [->|Hk];
          [rewrite normalizeKey_ascii by (vm_compute; reflexivity);
           vm_compute; discriminate|]).
  apply elem_of_nil in Hk. contradiction.
Qed.
End EmptyKey.

(** C9, as stated, fails for the title "&": its cleaned form is "&", whose
    key is empty, and the generation path writes " and " for it, so the
    slug is "and" and the URL is not the base URL alone. *)
Lemma ampersand_title_has_slug :
  preCleanTitle (u16 "&") = u16 "&"
  /\ normalizeKey (preCleanTitle (u16 "&")) = []
  /\ slugifyIGDB (u16 "&") = SlugText (u16 "and")
  /\ Script.getIGDBUrl ∅ snes (u16 "&") = u16 "https://www.igdb.com/games/and"
  /\ Script.getIGDBUrl ∅ snes (u16 "&") <> igdbBase
  /\ Legacy.gameHref (u16 "&") <> igdbBase.
Proof. repeat split; try (vm_compute; reflexivity); vm_compute; discriminate. Qed.

(** C9 (amended): a title whose cleaned form has the empty key (no
    character of [[a-z0-9]] is left of it) and holds neither [&] nor [+]
    has the empty slug: the alias test fails on the empty key, the
    generation path returns the empty string, and the URL is the base URL
    with nothing after it (in script.js when the override map has no entry
    for the pair).  No title is rejected: [slugifyIGDB] is a total
    function.  When the cleaned form is ASCII and holds [&] or [+], the
    slug is generated and is not empty, although the key is.  A title with
    an empty key is the name of no inherited member. *)
Theorem empty_key_empty_slug `{Engine} (m : UrlMap) (p title : jsstring) :
  normalizeKey (preCleanTitle title) = [] ->
  (Forall (fun c => c <> 38 /\ c <> 43) (preCleanTitle title) ->
     slugifyIGDB title = SlugText []
     /\ generateSlug (preCleanTitle title) = []
     /\ Legacy.gameHref title = igdbBase
     /\ (lookup2 m p title = None -> Script.getIGDBUrl m p title = igdbBase))
  /\ (forallb isAscii (preCleanTitle title) = true ->
      In 38 (preCleanTitle title) \/ In 43 (preCleanTitle title) ->
      slugifyIGDB title = SlugText (generateSlug (preCleanTitle title))
      /\ generateSlug (preCleanTitle title) <> []
      /\ Legacy.gameHref title <> igdbBase
      /\ (lookup2 m p title = None -> Script.getIGDBUrl m p title <> igdbBase))
  /\ inheritedName title = false.
Proof.
  intros Hk.
  assert (Hs : slugifyIGDB title = SlugText (generateSlug (preCleanTitle title))).
  { unfold slugifyIGDB. rewrite Hk.
    replace (aliasHit []) with (@None SlugValue) by (vm_compute; reflexivity).
    reflexivity. }
  split; [|split].
  - intros Hf.
    assert (Hg : generateSlug (preCleanTitle title) = []).
    { unfold generateSlug.
      rewrite (replaceChar_absent 38), (replaceChar_absent 43).
      - apply hyphenate_empty_key, Hk.
      - eapply Forall_impl; [exact Hf|]. intros c [_ Hc]. exact Hc.
      - eapply Forall_impl; [exact Hf|]. intros c [Hc _]. exact Hc. }
    rewrite Hg in Hs.
    split; [exact Hs|]. split; [exact Hg|]. split.
    + unfold Legacy.gameHref. rewrite Hs. cbn [slugText]. apply app_nil_r.
    + intros Hm. unfold Script.getIGDBUrl. rewrite Hm, Hs. cbn [slugText]. apply app_nil_r.
  - intros Ha Hin.
    pose proof (generateSlug_amp_plus _ Ha Hin) as Hg.
    assert (Hne : forall s : jsstring, s <> [] -> igdbBase ++ s <> igdbBase).
    { intros s Hn He. apply Hn. apply (app_inv_head igdbBase). rewrite app_nil_r. exact He. }
    split; [exact Hs|]. split; [exact Hg|]. split.
    + unfold Legacy.gameHref. rewrite Hs. cbn [slugText]. apply Hne, Hg.
    + intros Hm. unfold Script.getIGDBUrl. rewrite Hm, Hs. cbn [slugText]. apply Hne, Hg.
  - destruct (inheritedName title) eqn:Ei; [|reflexivity].
    exfalso. exact (inherited_names_have_keys title Ei Hk).
Qed.

(** The title "???": its cleaned form is itself, its key and its slug are
    empty.  The title "+": the key is empty and the slug is "plus". *)
Lemma empty_key_empty_slug_witness :
  preCleanTitle (u16 "???") = u16 "???"
  /\ normalizeKey (preCleanTitle (u16 "???")) = []
  /\ slugifyIGDB (u16 "???") = SlugText []
  /\ generateSlug (u16 "???") = []
  /\ Script.getIGDBUrl ∅ snes (u16 "???") = igdbBase
  /\ normalizeKey (preCleanTitle (u16 "+")) = []
  /\ Script.getIGDBUrl ∅ snes (u16 "+") <> igdbBase.
Proof.
  assert (K : normalizeKey (preCleanTitle (u16 "???")) = []) by (vm_compute; reflexivity).
  assert (F : Forall (fun c => c <> 38 /\ c <> 43) (preCleanTitle (u16 "???"))).
  { vm_compute. repeat constructor; discriminate. }
  assert (K' : normalizeKey (preCleanTitle (u16 "+")) = []) by (vm_compute; reflexivity).
  destruct (empty_key_empty_slug ∅ snes (u16 "???") K) as (H1 & _ & _).
  destruct (H1 F) as (Hs & Hg & _ & Hu).
  destruct (empty_key_empty_slug ∅ snes (u16 "+") K') as (_ & H2 & _).
  destruct (H2 eq_refl (or_intror (or_introl eq_refl))) as (_ & _ & _ & Hu').
  split; [vm_compute; reflexivity|]. split; [exact K|]. split; [exact Hs|].
  split; [exact Hg|]. split; [exact (Hu eq_refl)|]. split; [exact K'|].
  exact (Hu' eq_refl).
Defined.

(** * Cleaned titles *)

Section CleanShape.
Context `{Engine}.

Lemma replaceRuns_space_head (s : jsstring) :
  headIs isSpace s = false -> headIs isSpace (replaceRuns isSpace [32] s) = false.
Proof.
  destruct s as [|c s]; simpl; [reflexivity|]. intros Hc. rewrite Hc. simpl. exact Hc.
Qed.

Lemma replaceRuns_singleSpaces (s : jsstring) :
  singleSpaces (replaceRuns isSpace [32] s) = true.
Proof.
  induction s as [|c s IH]; simpl; [reflexivity|].
  destruct (isSpace c) eqn:Ec.
  - destruct (headIs isSpace s) eqn:Eh; [exact IH|].
    simpl. rewrite (replaceRuns_space_head s Eh), IH. reflexivity.
  - simpl. rewrite Ec, IH. reflexivity.
Qed.

Lemma replaceRuns_no_trademark (s : jsstring) :
  Forall (fun c => isTrademark c = false) s ->
  Forall (fun c => isTrademark c = false) (replaceRuns isSpace [32] s).
Proof.
  induction 1 as [|c s Hc Hs IH]; simpl; [constructor|].
  destruct (isSpace c); [destruct (headIs isSpace s)|]; try exact IH;
    constructor; try assumption; reflexivity.
Qed.

Lemma singleSpaces_tail (c : N) (s : jsstring) :
  singleSpaces (c :: s) = true -> singleSpaces s = true.
Proof. simpl. intros Hs. apply andb_prop in Hs as [_ Hs]. exact Hs. Qed.

Lemma dropWhile_singleSpaces (p : N -> bool) (s : jsstring) :
  singleSpaces s = true -> singleSpaces (dropWhile p s) = true.
Proof.
  induction s as [|c s IH]; [reflexivity|]. intros Hs. simpl.
  destruct (p c); [apply IH, (singleSpaces_tail c), Hs | exact Hs].
Qed.

Lemma dropEndWhile_singleSpaces (p : N -> bool) (s : jsstring) :
  singleSpaces s = true -> singleSpaces (dropEndWhile p s) = true.
Proof.
  induction s as [|c s IH]; [reflexivity|]. intros Hs.
  destruct (dropEndWhile_cons p c s) as [-> | ->]; [reflexivity|].
  simpl in *. apply andb_prop in Hs as [Hc Hs]. rewrite (IH Hs), andb_true_r.
  destruct (isSpace c); [|reflexivity].
  apply andb_prop in Hc as [Hc Hh]. rewrite Hc. simpl.
  apply negb_true_iff in Hh. rewrite (dropEndWhile_headIs p isSpace s Hh). reflexivity.
Qed.

Lemma singleSpaces_lookup (s : jsstring) (i : nat) (c : N) :
  singleSpaces s = true -> s !! i = Some c -> isSpace c = true ->
  c = 32 /\ forall d, s !! S i = Some d -> isSpace d = false.
Proof.
  revert i. induction s as [|e s IH]; intros i Hs; [discriminate|].
  simpl in Hs. apply andb_prop in Hs as [He Hs].
  destruct i as [|i]; simpl.
  - intros [= ->] Hc. rewrite Hc in He. apply andb_prop in He as [He Hh].
    split; [apply N.eqb_eq, He|]. intros d Hd. apply negb_true_iff in Hh.
    destruct s as [|d' s]; [discriminate|]. simpl in *. injection Hd as ->. exact Hh.
  - apply IH, Hs.
Qed.

(** The shape of [trim (replaceRuns isSpace " " x)], the last two calls of
    the cleaning in the three scripts. *)
Lemma trim_collapse_shape (x : jsstring) :
  Forall (fun c => isTrademark c = false) x ->
  cleanShape (trim (replaceRuns isSpace [32] x)).
Proof.
  intros Hx. unfold trim.
  set (r := replaceRuns isSpace [32] x).
  assert (Hs : singleSpaces (dropEndWhile isSpace (dropWhile isSpace r)) = true).
  { apply dropEndWhile_singleSpaces, dropWhile_singleSpaces, replaceRuns_singleSpaces. }
  split; [|split; [|split]].
  - apply dropEndWhile_Forall, dropWhile_Forall, replaceRuns_no_trademark, Hx.
  - apply dropEndWhile_headIs, dropWhile_head.
  - intros c. apply dropEndWhile_last.
  - intros i c. apply singleSpaces_lookup, Hs.
Qed.

(** X5: a pre-cleaned title has no trademark, registered or copyright sign
    and no white space at its ends, and its white space inside is single
    U+0020 spaces. *)
Theorem preCleanTitle_shape (title : jsstring) : cleanShape (preCleanTitle title).
Proof. unfold preCleanTitle. apply trim_collapse_shape, removeAll_Forall. Qed.
End CleanShape.

Section CombinedTitles.
Context `{Engine}.

Lemma startsWith_app (p a b : jsstring) :
  startsWith p a = true -> startsWith p (a ++ b) = true.
Proof.
  revert a. induction p as [|x p IH]; intros a; [reflexivity|].
  destruct a as [|y a]; simpl; [discriminate|].
  intros Hp. apply andb_prop in Hp as [Hx Hp]. rewrite Hx, (IH a Hp). reflexivity.
Qed.

Lemma startsWith_long (p a b : jsstring) :
  (length p <= length a)%nat -> startsWith p (a ++ b) = startsWith p a.
Proof.
  revert a. induction p as [|x p IH]; intros a Hl; [reflexivity|].
  destruct a as [|y a]; simpl in *; [lia|].
  rewrite IH by lia. reflexivity.
Qed.

Lemma startsWith_refl (p b : jsstring) : startsWith p (p ++ b) = true.
Proof. induction p as [|x p IH]; simpl; [reflexivity|]. rewrite N.eqb_refl, IH. reflexivity. Qed.

Lemma includes_app (a b n : jsstring) :
  includes a n = true -> includes (a ++ b) n = true.
Proof.
  induction a as [|c a IH]; intros Hi.
  - destruct n; [destruct b; reflexivity | discriminate Hi].
  - cbn [app includes] in *. apply orb_prop in Hi as [Hs|Hi].
    + pose proof (startsWith_app n (c :: a) b Hs) as E. cbn [app] in E.
      rewrite E. reflexivity.
    + rewrite (IH Hi). apply orb_true_r.
Qed.

Lemma splitHead_absent (sep s : jsstring) :
  includes s sep = false -> splitHead sep s = s.
Proof.
  induction s as [|c s IH]; [reflexivity|]. intros Hi.
  cbn [includes splitHead] in *. apply orb_false_elim in Hi as [Hs Hi].
  rewrite Hs, (IH Hi). reflexivity.
Qed.

(** The first occurrence of the separator ends the kept part. *)
Lemma splitHead_first (a b : jsstring) :
  includes (a ++ u16 " /") separator = false ->
  splitHead separator (a ++ separator ++ b) = a.
Proof.
  induction a as [|c a IH]; intros Hi; [reflexivity|].
  cbn [app includes splitHead] in *. apply orb_false_elim in Hi as [Hs Hi].
  rewrite (IH Hi).
  assert (E : c :: a ++ separator ++ b = (c :: a ++ u16 " /") ++ [32] ++ b).
  { change separator with (u16 " /" ++ [32]).
    rewrite <- (app_assoc (u16 " /")), app_comm_cons, (app_assoc (c :: a)). reflexivity. }
  rewrite E, startsWith_long, Hs; [reflexivity|].
  cbn [length]. rewrite length_app. simpl. lia.
Qed.
End CombinedTitles.

Section TrailingGroups.
Context `{Engine}.

Lemma dropWhile_all (p : N -> bool) (w t : jsstring) :
  forallb p w = true -> dropWhile p (w ++ t) = dropWhile p t.
Proof.
  induction w as [|c w IH]; [reflexivity|]. cbn [forallb app dropWhile].
  intros Hw. apply andb_prop in Hw as [Hc Hw]. rewrite Hc. exact (IH Hw).
Qed.

Lemma dropWhile_all_nil (p : N -> bool) (w : jsstring) :
  forallb p w = true -> dropWhile p w = [].
Proof. intros Hw. rewrite <- (app_nil_r w). apply (dropWhile_all p w [] Hw). Qed.

Lemma dropWhile_some (p : N -> bool) (b t : jsstring) :
  forallb p b = false ->
  exists d r, dropWhile p b = d :: r /\ p d = false /\ d ∈ b
              /\ dropWhile p (b ++ t) = d :: r ++ t.
Proof.
  induction b as [|c b IH]; [discriminate|]. cbn [forallb app dropWhile].
  destruct (p c) eqn:Ec; simpl.
  - intros Hb. destruct (IH Hb) as (d & r & E1 & E2 & E3 & E4).
    exists d, r. repeat split; try assumption. apply elem_of_cons. right. exact E3.
  - intros _. exists c, b. repeat split; try assumption. apply elem_of_cons. left. reflexivity.
Qed.

Lemma dropEndWhile_all (p : N -> bool) (w : jsstring) :
  forallb p w = true -> dropEndWhile p w = [].
Proof.
  induction w as [|c w IH]; [reflexivity|]. cbn [forallb dropEndWhile].
  intros Hw. apply andb_prop in Hw as [Hc Hw]. rewrite (IH Hw), Hc. reflexivity.
Qed.

Lemma dropEndWhile_some (p : N -> bool) (b : jsstring) :
  forallb p b = false -> dropEndWhile p b <> [].
Proof.
  induction b as [|c b IH]; [discriminate|]. cbn [forallb dropEndWhile].
  destruct (p c) eqn:Ec; simpl.
  - intros Hb. specialize (IH Hb). destruct (dropEndWhile p b); [contradiction | discriminate].
  - intros _. destruct (dropEndWhile p b); discriminate.
Qed.

Lemma dropEndWhile_app_all (p : N -> bool) (x w : jsstring) :
  forallb p w = true -> dropEndWhile p (x ++ w) = dropEndWhile p x.
Proof.
  intros Hw. induction x as [|c x IH]; [apply dropEndWhile_all, Hw|].
  cbn [app dropEndWhile]. rewrite IH. reflexivity.
Qed.

Lemma trim_app_spaces (x e : jsstring) :
  forallb isSpace e = true -> trim (x ++ e) = trim x.
Proof.
  intros He. unfold trim. destruct (forallb isSpace x) eqn:Ex.
  - rewrite (dropWhile_all isSpace x e Ex), (dropWhile_all_nil isSpace x Ex),
      (dropWhile_all_nil isSpace e He). reflexivity.
  - destruct (dropWhile_some isSpace x e Ex) as (d & r & E1 & _ & _ & E4).
    rewrite E4, E1. rewrite app_comm_cons. apply dropEndWhile_app_all, He.
Qed.

Lemma collapse_spaces (w : jsstring) :
  forallb isSpace w = true -> w <> [] -> replaceRuns isSpace [32] w = [32].
Proof.
  induction w as [|c w IH]; [contradiction|]. cbn [forallb replaceRuns].
  intros Hw _. apply andb_prop in Hw as [Hc Hw]. rewrite Hc.
  destruct w as [|d w]; [reflexivity|].
  cbn [headIs]. cbn [forallb] in Hw. destruct (isSpace d) eqn:Ed; [|discriminate Hw].
  apply IH; [cbn [forallb]; rewrite Ed; exact Hw | discriminate].
Qed.

Lemma collapse_app_spaces (y w : jsstring) :
  forallb isSpace w = true ->
  exists e, forallb isSpace e = true
            /\ replaceRuns isSpace [32] (y ++ w) = replaceRuns isSpace [32] y ++ e.
Proof.
  intros Hw. destruct w as [|d w].
  { exists []. rewrite !app_nil_r. split; reflexivity. }
  assert (Hd : isSpace d = true) by (cbn [forallb] in Hw; apply andb_prop in Hw as [Hd _]; exact Hd).
  induction y as [|c y IH].
  - exists [32]. split; [reflexivity|]. apply collapse_spaces; [exact Hw | discriminate].
  - destruct IH as (e & He & IH). cbn [app replaceRuns].
    destruct (isSpace c) eqn:Ec.
    + destruct y as [|c' y].
      * cbn [app headIs]. rewrite Hd. exists []. split; [reflexivity|].
        rewrite (collapse_spaces (d :: w) Hw) by discriminate. reflexivity.
      * cbn [app headIs] in *. destruct (isSpace c').
        -- exists e. split; [exact He | exact IH].
        -- exists e. split; [exact He|]. rewrite IH. reflexivity.
    + exists e. split; [exact He|]. rewrite IH. reflexivity.
Qed.

(** White space at the end of a string does not show after the collapse of
    runs and the trim. *)
Lemma trim_collapse_trailing (y w : jsstring) :
  forallb isSpace w = true ->
  trim (replaceRuns isSpace [32] (y ++ w)) = trim (replaceRuns isSpace [32] y).
Proof.
  intros Hw. destruct (collapse_app_spaces y w Hw) as (e & He & ->).
  apply trim_app_spaces, He.
Qed.

Lemma replaceGroupsFrom_skip (k : nat) (s : jsstring) :
  (length s <= k)%nat -> replaceGroupsFrom k s = [].
Proof.
  revert k. induction s as [|c s IH]; intros k Hk; [reflexivity|].
  cbn [replaceGroupsFrom]. destruct k as [|k]; [simpl in Hk; lia|].
  apply IH. simpl in Hk. lia.
Qed.

Lemma afterCloser_body (body : jsstring) (cl : N) :
  Forall (fun c => isCloser c = false /\ isLineTerminator c = false) body ->
  isCloser cl = true ->
  afterCloser (body ++ [cl]) = Some [].
Proof.
  intros Hb Hc. induction Hb as [|c body [H1 H2] Hb IH]; cbn [app afterCloser].
  - rewrite Hc. reflexivity.
  - rewrite H1, H2. exact IH.
Qed.

Lemma groupAt_other (c : N) (s : jsstring) :
  isSpace c = false -> isOpener c = false -> groupAt (c :: s) = None.
Proof. intros Hs Ho. unfold groupAt. cbn [dropWhile]. rewrite Hs, Ho. reflexivity. Qed.

Lemma isOpener_cases (o : N) : isOpener o = true -> o = 40 \/ o = 91 \/ o = 123.
Proof.
  unfold isOpener. intros Ho. apply orb_prop in Ho as [Ho|Ho]; [apply orb_prop in Ho as [Ho|Ho]|];
    apply N.eqb_eq in Ho; auto.
Qed.

Lemma isTrademark_cases (c : N) : isTrademark c = true -> c = 8482 \/ c = 174 \/ c = 169.
Proof.
  unfold isTrademark. intros Ho. apply orb_prop in Ho as [Ho|Ho]; [apply orb_prop in Ho as [Ho|Ho]|];
    apply N.eqb_eq in Ho; auto.
Qed.

Lemma opener_not_space (o : N) : isOpener o = true -> isSpace o = false.
Proof. intros Ho. destruct (isOpener_cases o Ho) as [->|[->| ->]]; reflexivity. Qed.

Lemma space_plain (c : N) :
  isSpace c = true -> isTrademark c = false /\ c <> 38 /\ c <> 43 /\ isOpener c = false.
Proof.
  intros Hc. repeat split.
  - destruct (isTrademark c) eqn:Et; [|reflexivity].
    destruct (isTrademark_cases c Et) as [->|[->| ->]]; discriminate Hc.
  - intros ->. discriminate Hc.
  - intros ->. discriminate Hc.
  - destruct (isOpener c) eqn:Eo; [|reflexivity].
    rewrite (opener_not_space c Eo) in Hc. discriminate Hc.
Qed.

Lemma replaceGroupsFrom_step (c : N) (s : jsstring) :
  replaceGroupsFrom 0 (c :: s)
  = match groupAt (c :: s) with
    | Some rest => 32 :: replaceGroupsFrom (length s - length rest) s
    | None => c :: replaceGroupsFrom 0 s
    end.
Proof. reflexivity. Qed.

(** A group that ends the string goes with the white space before it. *)
Lemma replaceGroups_trailing (base body : jsstring) (o cl : N) :
  Forall (fun c => isOpener c = false) base ->
  Forall (fun c => isCloser c = false /\ isLineTerminator c = false) body ->
  isOpener o = true -> isCloser cl = true ->
  replaceGroups (base ++ [32; o] ++ body ++ [cl]) = dropEndWhile isSpace base ++ [32].
Proof.
  intros Hbase Hbody Ho Hcl. unfold replaceGroups.
  set (tail := [32; o] ++ body ++ [cl]).
  assert (Hg : forall w, forallb isSpace w = true -> groupAt (w ++ tail) = Some []).
  { intros w Hw. unfold groupAt. rewrite (dropWhile_all isSpace w tail Hw).
    subst tail. cbn [app dropWhile]. change (isSpace 32) with true. cbn iota.
    cbn [dropWhile]. rewrite (opener_not_space o Ho), Ho.
    rewrite (afterCloser_body body cl Hbody Hcl). reflexivity. }
  induction Hbase as [|c b Hc Hb IH].
  - cbn [app dropEndWhile]. pose proof (Hg [] eq_refl) as G. cbn [app] in G.
    subst tail. cbn [app] in *. rewrite replaceGroupsFrom_step, G.
    rewrite replaceGroupsFrom_skip by (simpl; lia). reflexivity.
  - cbn [app]. rewrite replaceGroupsFrom_step. destruct (isSpace c) eqn:Ec.
    + destruct (forallb isSpace b) eqn:Eb.
      * pose proof (Hg (c :: b)) as G. cbn [forallb app] in G. rewrite Ec, Eb in G.
        rewrite (G eq_refl). rewrite replaceGroupsFrom_skip by (simpl; lia).
        cbn [dropEndWhile]. rewrite (dropEndWhile_all isSpace b Eb), Ec. reflexivity.
      * destruct (dropWhile_some isSpace b tail Eb) as (d & r & E1 & E2 & E3 & E4).
        assert (Gn : groupAt (c :: b ++ tail) = None).
        { unfold groupAt. cbn [dropWhile]. rewrite Ec, E4.
          rewrite (proj1 (Forall_forall _ _) Hb d E3). reflexivity. }
        rewrite Gn, IH. cbn [dropEndWhile].
        pose proof (dropEndWhile_some isSpace b Eb) as Hn.
        destruct (dropEndWhile isSpace b); [contradiction | reflexivity].
    + rewrite (groupAt_other c _ Ec Hc), IH. cbn [dropEndWhile].
      destruct (dropEndWhile isSpace b); [rewrite Ec|]; reflexivity.
Qed.

(** A string without opening bracket has no group. *)
Lemma replaceGroups_none (s : jsstring) :
  Forall (fun c => isOpener c = false) s -> replaceGroups s = s.
Proof.
  unfold replaceGroups. induction 1 as [|c s Hc Hs IH]; [reflexivity|].
  rewrite replaceGroupsFrom_step.
  assert (Gn : groupAt (c :: s) = None).
  { unfold groupAt. destruct (dropWhile isSpace (c :: s)) as [|d r] eqn:Ed; [reflexivity|].
    assert (Hd : d ∈ c :: s).
    { assert (Hsuf : forall l, dropWhile isSpace l = d :: r -> d ∈ l).
      { induction l as [|x l IHl]; cbn [dropWhile]; [discriminate|].
        destruct (isSpace x); intros E.
        - apply elem_of_cons. right. exact (IHl E).
        - injection E as -> _. apply elem_of_cons. left. reflexivity. }
      exact (Hsuf _ Ed). }
    rewrite (proj1 (Forall_forall (fun c => isOpener c = false) (c :: s))
               (Forall_cons_2 _ _ _ Hc Hs) d Hd). reflexivity. }
  rewrite Gn, IH. reflexivity.
Qed.
End TrailingGroups.

Section DroppedParts.
Context `{Engine}.

Lemma includes_prefix_absent (a b n : jsstring) :
  includes (a ++ b) n = false -> includes a n = false.
Proof.
  intros Hi. destruct (includes a n) eqn:Ea; [|reflexivity].
  rewrite (includes_app a b n Ea) in Hi. discriminate Hi.
Qed.

Lemma dropEndWhile_decomp (p : N -> bool) (s : jsstring) :
  exists w, forallb p w = true /\ s = dropEndWhile p s ++ w.
Proof.
  induction s as [|c s (w & Hw & IH)]; [exists []; split; reflexivity|].
  cbn [dropEndWhile]. destruct (dropEndWhile p s) as [|d r] eqn:Ed.
  - cbn [app] in IH. subst s. destruct (p c) eqn:Ec.
    + exists (c :: w). cbn [forallb]. rewrite Ec, Hw. split; reflexivity.
    + exists w. split; [exact Hw | reflexivity].
  - exists w. split; [exact Hw|]. rewrite IH at 1. reflexivity.
Qed.

Lemma removeAll_app (p : N -> bool) (x y : jsstring) :
  removeAll p (x ++ y) = removeAll p x ++ removeAll p y.
Proof. unfold removeAll. apply List.filter_app. Qed.

Lemma replaceChar_app (c : N) (r x y : jsstring) :
  replaceChar c r (x ++ y) = replaceChar c r x ++ replaceChar c r y.
Proof. unfold replaceChar. apply flat_map_app. Qed.

Lemma spaces_Forall (w : jsstring) (P : N -> Prop) :
  (forall c, isSpace c = true -> P c) -> forallb isSpace w = true -> Forall P w.
Proof.
  intros HP Hw. apply Forall_forall. intros c Hc. apply HP.
  apply (proj1 (forallb_forall _ _) Hw), list_elem_of_In, Hc.
Qed.

Lemma scriptMiddle_spaces (x w : jsstring) :
  forallb isSpace w = true -> scriptMiddle (x ++ w) = scriptMiddle x ++ w.
Proof.
  intros Hw. unfold scriptMiddle. rewrite removeAll_app. f_equal.
  apply removeAll_id, (spaces_Forall w); [|exact Hw].
  intros c Hc. apply (space_plain c Hc).
Qed.

Lemma modernMiddle_spaces (x w : jsstring) :
  forallb isSpace w = true -> modernMiddle (x ++ w) = modernMiddle x ++ w.
Proof.
  intros Hw. unfold modernMiddle.
  fold (scriptMiddle (x ++ w)). rewrite (scriptMiddle_spaces x w Hw).
  rewrite !replaceChar_app. f_equal.
  rewrite (replaceChar_absent 38), (replaceChar_absent 43); [reflexivity| |];
    apply (spaces_Forall w); try exact Hw; intros c Hc; apply (space_plain c Hc).
Qed.

Lemma cleaned_trailing_spaces (f : jsstring -> jsstring) (s : jsstring) :
  (forall x w, forallb isSpace w = true -> f (x ++ w) = f x ++ w) ->
  trim (replaceRuns isSpace [32] (f (dropEndWhile isSpace s ++ [32])))
  = trim (replaceRuns isSpace [32] (f s)).
Proof.
  intros Hf. destruct (dropEndWhile_decomp isSpace s) as (w & Hw & E).
  rewrite E at 2. rewrite (Hf _ [32] eq_refl), (Hf _ w Hw), !trim_collapse_trailing;
    [reflexivity | exact Hw | reflexivity].
Qed.
Lemma preCleanTitle_unfold (title : jsstring) :
  preCleanTitle title
  = trim (replaceRuns isSpace [32] (scriptMiddle (replaceGroups (splitHead separator title)))).
Proof. reflexivity. Qed.

Lemma modern_slug_unfold (title : jsstring) :
  Modern.slugifyIGDB title
  = hyphenate (trim (replaceRuns isSpace [32]
                      (modernMiddle (replaceGroups (splitHead separator title))))).
Proof. reflexivity. Qed.

Lemma slugifyIGDB_of_clean (t1 t2 : jsstring) :
  preCleanTitle t1 = preCleanTitle t2 -> slugifyIGDB t1 = slugifyIGDB t2.
Proof. intros E. unfold slugifyIGDB. rewrite E. reflexivity. Qed.

(** X6: of a combined title only the part before the first [" / "] counts:
    when that part [a], followed by the first two characters of the
    separator, has no separator, the cleaned title and the slug of
    [a / b] are those of [a], in script.js, part_001 and part_000. *)
Theorem combined_title_left_side (a b : jsstring) :
  includes (a ++ u16 " /") separator = false ->
  preCleanTitle (a ++ separator ++ b) = preCleanTitle a
  /\ slugifyIGDB (a ++ separator ++ b) = slugifyIGDB a
  /\ Modern.slugifyIGDB (a ++ separator ++ b) = Modern.slugifyIGDB a.
Proof.
  intros Hi.
  pose proof (splitHead_first a b Hi) as E1.
  pose proof (splitHead_absent separator a (includes_prefix_absent _ _ _ Hi)) as E2.
  assert (Ep : preCleanTitle (a ++ separator ++ b) = preCleanTitle a).
  { rewrite !preCleanTitle_unfold, E1, E2. reflexivity. }
  split; [exact Ep|]. split; [exact (slugifyIGDB_of_clean _ _ Ep)|].
  rewrite !modern_slug_unfold, E1, E2. reflexivity.
Qed.

(** X7: a bracketed group that ends the title is dropped with the white
    space before it: when [base] has no opening bracket, [body] no closing
    bracket and no line terminator, and the title has no [" / "], the
    cleaned title and the slug of [base (body)] are those of [base]; the
    brackets may be of any of the three kinds, also of two different
    ones. *)
Theorem trailing_group_dropped (base body : jsstring) (o cl : N) :
  Forall (fun c => isOpener c = false) base ->
  Forall (fun c => isCloser c = false /\ isLineTerminator c = false) body ->
  isOpener o = true -> isCloser cl = true ->
  includes (base ++ [32; o] ++ body ++ [cl]) separator = false ->
  preCleanTitle (base ++ [32; o] ++ body ++ [cl]) = preCleanTitle base
  /\ slugifyIGDB (base ++ [32; o] ++ body ++ [cl]) = slugifyIGDB base
  /\ Modern.slugifyIGDB (base ++ [32; o] ++ body ++ [cl]) = Modern.slugifyIGDB base.
Proof.
  intros Hbase Hbody Ho Hcl Hi.
  pose proof (splitHead_absent separator _ Hi) as E1.
  pose proof (splitHead_absent separator base (includes_prefix_absent _ _ _ Hi)) as E2.
  pose proof (replaceGroups_trailing base body o cl Hbase Hbody Ho Hcl) as G1.
  pose proof (replaceGroups_none base Hbase) as G2.
  assert (Ep : preCleanTitle (base ++ [32; o] ++ body ++ [cl]) = preCleanTitle base).
  { rewrite !preCleanTitle_unfold, E1, E2, G1, G2.
    apply cleaned_trailing_spaces, scriptMiddle_spaces. }
  split; [exact Ep|]. split; [exact (slugifyIGDB_of_clean _ _ Ep)|].
  rewrite !modern_slug_unfold, E1, E2, G1, G2. f_equal.
  apply cleaned_trailing_spaces, modernMiddle_spaces.
Qed.
End DroppedParts.

Lemma combined_title_left_side_witness :
  includes (u16 "Area 88" ++ u16 " /") separator = false
  /\ preCleanTitle (u16 "Area 88" ++ separator ++ u16 "U.N. Squadron") = preCleanTitle (u16 "Area 88").
Proof.
  split; [reflexivity|].
  exact (proj1 (combined_title_left_side (u16 "Area 88") (u16 "U.N. Squadron") eq_refl)).
Defined.

Lemma trailing_group_dropped_witness :
  Forall (fun c => isOpener c = false) (u16 "Chrono Trigger")
  /\ Forall (fun c => isCloser c = false /\ isLineTerminator c = false) (u16 "Japan")
  /\ includes (u16 "Chrono Trigger" ++ [32; 40] ++ u16 "Japan" ++ [41]) separator = false
  /\ preCleanTitle (u16 "Chrono Trigger" ++ [32; 40] ++ u16 "Japan" ++ [41])
     = preCleanTitle (u16 "Chrono Trigger").
Proof.
  assert (A : Forall (fun c => isOpener c = false) (u16 "Chrono Trigger"))
    by (repeat constructor).
  assert (B : Forall (fun c => isCloser c = false /\ isLineTerminator c = false) (u16 "Japan"))
    by (repeat constructor).
  split; [exact A|]. split; [exact B|]. split; [reflexivity|].
  exact (proj1 (trailing_group_dropped (u16 "Chrono Trigger") (u16 "Japan") 40 41
                  A B eq_refl eq_refl eq_refl)).
Defined.

(** * The platform keys *)

Section PlatformKeys.
Context `{Engine}.

Lemma insertKey_perm (k : jsstring) (l : list jsstring) : insertKey k l ≡ₚ k :: l.
Proof.
  induction l as [|x l IH]; cbn [insertKey]; [reflexivity|].
  destruct (localeCompare k x <=? 0)%Z; [reflexivity|].
  rewrite IH. apply Permutation_swap.
Qed.

Lemma sortKeys_perm (l : list jsstring) : sortKeys l ≡ₚ l.
Proof.
  unfold sortKeys. induction l as [|k l IH]; cbn [fold_right]; [reflexivity|].
  rewrite insertKey_perm, IH. reflexivity.
Qed.

Lemma insertKey_ascending (k : jsstring) (l : list jsstring) :
  (forall a b, (localeCompare a b <= 0)%Z \/ (localeCompare b a <= 0)%Z) ->
  ascending l -> ascending (insertKey k l).
Proof.
  intros Htot. induction l as [|x l IH]; intros Hl; cbn [insertKey]; [exact I|].
  destruct (Z.leb_spec (localeCompare k x) 0) as [Hle|Hgt].
  - split; assumption.
  - assert (Hxk : (localeCompare x k <= 0)%Z) by (destruct (Htot x k); [assumption | lia]).
    destruct l as [|y l].
    + cbn [insertKey ascending]. split; [exact Hxk | exact I].
    + destruct Hl as [Hxy Hl]. specialize (IH Hl). cbn [insertKey] in *.
      destruct (localeCompare k y <=? 0)%Z; split; assumption.
Qed.

(** X8: the sorted platform keys, which fill the platform select and give
    the order of the panels, are the keys of the catalog, each as often as
    in the catalog; when [localeCompare] is total, each compares not greater
    than the next. *)
Theorem platformKeys_sorted (GAMES : Catalog) :
  Modern.platformKeys GAMES ≡ₚ objectKeys GAMES
  /\ (NoDup (objectKeys GAMES) -> NoDup (Modern.platformKeys GAMES))
  /\ ((forall a b, (localeCompare a b <= 0)%Z \/ (localeCompare b a <= 0)%Z) ->
      ascending (Modern.platformKeys GAMES)).
Proof.
  unfold Modern.platformKeys. split; [apply sortKeys_perm|]. split.
  - intros Hn. rewrite sortKeys_perm. exact Hn.
  - intros Htot. unfold sortKeys.
    induction (objectKeys GAMES) as [|k l IH]; cbn [fold_right]; [exact I|].
    apply insertKey_ascending; assumption.
Qed.
End PlatformKeys.

Lemma compareUnits_total (a b : jsstring) :
  (compareUnits a b <= 0)%Z \/ (compareUnits b a <= 0)%Z.
Proof.
  revert b. induction a as [|x a IH]; intros [|y b]; cbn [compareUnits]; try (left; lia); try (right; lia).
  destruct (N.ltb_spec x y); [left; lia|].
  destruct (N.ltb_spec y x); [right; lia|]. apply IH.
Qed.

(** With the comparison by code unit, "Genesis" goes before "SNES". *)
Lemma platformKeys_sorted_witness :
  NoDup (objectKeys twoPlatforms)
  /\ (forall a b, (localeCompare a b <= 0)%Z \/ (localeCompare b a <= 0)%Z)
  /\ NoDup (Modern.platformKeys twoPlatforms)
  /\ ascending (Modern.platformKeys twoPlatforms)
  /\ Modern.platformKeys twoPlatforms = [u16 "Genesis"; snes].
Proof.
  assert (A : NoDup (objectKeys twoPlatforms)).
  { apply NoDup_cons_2; [|apply NoDup_singleton].
    intros Hin. apply list_elem_of_singleton in Hin. discriminate Hin. }
  destruct (platformKeys_sorted twoPlatforms) as (_ & Hn & Ha).
  split; [exact A|]. split; [exact compareUnits_total|].
  split; [exact (Hn A)|]. split; [exact (Ha compareUnits_total) | reflexivity].
Defined.

(** * Search and case *)

(** Comparisons of code units one at a time, leaving the cases that are
    possible. *)
Ltac units_step :=
  match goal with
  | |- context [N.leb ?a ?b] => destruct (N.leb_spec a b)
  | |- context [N.eqb ?a ?b] => destruct (N.eqb_spec a b)
  | |- context [N.ltb ?a ?b] => destruct (N.ltb_spec a b)
  end.
Ltac units_cases := repeat (units_step; try lia; cbn [andb orb negb]); try reflexivity.

Section SearchCase.
Context `{Engine}.

Lemma inRange_spec (lo hi c : N) : inRange lo hi c = true <-> lo <= c <= hi.
Proof. unfold inRange. rewrite andb_true_iff, !N.leb_le. reflexivity. Qed.

Lemma asciiLower_upper (c : N) : asciiLower (asciiUpper c) = asciiLower c.
Proof.
  unfold asciiUpper. destruct (inRange 97 122 c) eqn:Ec; [|reflexivity].
  apply inRange_spec in Ec. unfold asciiLower, isUpperAZ, inRange. units_cases.
Qed.

Lemma asciiUpper_upper (c : N) : asciiUpper (asciiUpper c) = asciiUpper c.
Proof.
  unfold asciiUpper at 2 3. destruct (inRange 97 122 c) eqn:Ec; [|unfold asciiUpper; rewrite Ec; reflexivity].
  apply inRange_spec in Ec. unfold asciiUpper, inRange. units_cases.
Qed.

Lemma asciiUpper_ascii (c : N) : isAscii c = true -> isAscii (asciiUpper c) = true.
Proof.
  unfold isAscii. intros Hc. apply N.ltb_lt in Hc.
  unfold asciiUpper. destruct (inRange 97 122 c); apply N.ltb_lt; lia.
Qed.

Lemma asciiUpper_space (c : N) : isSpace (asciiUpper c) = isSpace c.
Proof.
  unfold asciiUpper. destruct (inRange 97 122 c) eqn:Ec; [|reflexivity].
  apply inRange_spec in Ec.
  assert (E1 : isSpace c = false) by (unfold isSpace, inRange; units_cases).
  assert (E2 : isSpace (c - 32) = false) by (unfold isSpace, inRange; units_cases).
  rewrite E1, E2. reflexivity.
Qed.

Lemma upper_all_ascii (s : jsstring) :
  forallb isAscii s = true -> forallb isAscii (map asciiUpper s) = true.
Proof.
  induction s as [|c s IH]; [reflexivity|]. cbn [forallb map].
  intros Hs. apply andb_prop in Hs as [Hc Hs]. rewrite (asciiUpper_ascii c Hc), (IH Hs). reflexivity.
Qed.

Lemma toLowerCase_upper (s : jsstring) :
  forallb isAscii s = true -> toLowerCase (map asciiUpper s) = toLowerCase s.
Proof.
  intros Hs. rewrite (toLowerCase_ascii _ (upper_all_ascii s Hs)), (toLowerCase_ascii s Hs).
  rewrite map_map. apply map_ext. intros c. apply asciiLower_upper.
Qed.

Lemma dropWhile_map (p : N -> bool) (f : N -> N) (s : jsstring) :
  (forall c, p (f c) = p c) -> dropWhile p (map f s) = map f (dropWhile p s).
Proof.
  intros Hp. induction s as [|c s IH]; [reflexivity|]. cbn [map dropWhile].
  rewrite Hp. destruct (p c); [exact IH | reflexivity].
Qed.

Lemma dropEndWhile_map (p : N -> bool) (f : N -> N) (s : jsstring) :
  (forall c, p (f c) = p c) -> dropEndWhile p (map f s) = map f (dropEndWhile p s).
Proof.
  intros Hp. induction s as [|c s IH]; [reflexivity|]. cbn [map dropEndWhile].
  rewrite IH, Hp. destruct (dropEndWhile p s); [destruct (p c)|]; reflexivity.
Qed.

Lemma trim_upper (s : jsstring) : trim (map asciiUpper s) = map asciiUpper (trim s).
Proof.
  unfold trim. rewrite (dropWhile_map _ _ _ asciiUpper_space).
  apply dropEndWhile_map, asciiUpper_space.
Qed.

Lemma forallb_dropWhile (q p : N -> bool) (s : jsstring) :
  forallb q s = true -> forallb q (dropWhile p s) = true.
Proof.
  induction s as [|c s IH]; [reflexivity|]. intros Hs. cbn [dropWhile].
  destruct (p c); [|exact Hs]. cbn [forallb] in Hs. apply andb_prop in Hs as [_ Hs]. exact (IH Hs).
Qed.

Lemma forallb_dropEndWhile (q p : N -> bool) (s : jsstring) :
  forallb q s = true -> forallb q (dropEndWhile p s) = true.
Proof.
  induction s as [|c s IH]; [reflexivity|]. intros Hs.
  cbn [forallb] in Hs. apply andb_prop in Hs as [Hc Hs].
  destruct (dropEndWhile_cons p c s) as [-> | ->]; [reflexivity|].
  cbn [forallb]. rewrite Hc, (IH Hs). reflexivity.
Qed.

Lemma trim_all_ascii (s : jsstring) : forallb isAscii s = true -> forallb isAscii (trim s) = true.
Proof. intros Hs. apply forallb_dropEndWhile, forallb_dropWhile, Hs. Qed.

(** X9: for ASCII text the search ignores case: a title in upper case is
    kept by the same search terms in script.js and part_000, and search
    text typed in upper case gives the same pass of script.js and the same
    [state.search] in part_000. *)
Theorem ascii_search_ignores_case (games : Catalog) (linkMap coverMap : UrlMap)
    (st : Modern.State) (term sel g v : jsstring) :
  forallb isAscii g = true ->
  forallb isAscii v = true ->
  Script.searchHit term (map asciiUpper g) = Script.searchHit term g
  /\ searchKeeps st (map asciiUpper g) = searchKeeps st g
  /\ Script.render games linkMap coverMap (map asciiUpper v) sel
     = Script.render games linkMap coverMap v sel
  /\ toLowerCase (trim (map asciiUpper v)) = toLowerCase (trim v).
Proof.
  intros Hg Hv. unfold Script.searchHit, searchKeeps, Script.render.
  rewrite (toLowerCase_upper g Hg), (toLowerCase_upper v Hv), trim_upper.
  rewrite (toLowerCase_upper _ (trim_all_ascii v Hv)). repeat split.
Qed.
End SearchCase.

Lemma ascii_search_ignores_case_witness :
  forallb isAscii (u16 "Chrono Trigger") = true
  /\ forallb isAscii (u16 " chrono ") = true
  /\ Script.searchHit (u16 "chrono") (map asciiUpper (u16 "Chrono Trigger"))
     = Script.searchHit (u16 "chrono") (u16 "Chrono Trigger")
  /\ Script.searchHit (u16 "chrono") (u16 "Chrono Trigger") = true.
Proof.
  split; [reflexivity|]. split; [reflexivity|].
  split; [|reflexivity].
  exact (proj1 (ascii_search_ignores_case twoPlatforms ∅ ∅ chronoSearch (u16 "chrono") snes
                  (u16 "Chrono Trigger") (u16 " chrono ") eq_refl eq_refl)).
Defined.

(** * The filtered result in full *)

Lemma twoPlatforms_NoDup : NoDup (objectKeys twoPlatforms).
Proof.
  apply NoDup_cons_2; [|apply NoDup_singleton].
  intros Hin. apply list_elem_of_singleton in Hin. discriminate Hin.
Qed.

Section FilterResult.
Context `{Engine}.
Variable GAMES : Catalog.

Lemma mapSet_fresh (k : jsstring) (v : list jsstring) (m : list (jsstring * list jsstring)) :
  k ∉ m.*1 -> Modern.mapSet k v m = m ++ [(k, v)].
Proof.
  induction m as [|[k' v'] m IH]; cbn [Modern.mapSet fmap list_fmap app]; [reflexivity|].
  intros Hk. apply not_elem_of_cons in Hk as [Hne Hk].
  rewrite bool_decide_eq_false_2 by (intros E; apply Hne; symmetry; exact E).
  rewrite (IH Hk). reflexivity.
Qed.

Lemma filterLoop_full (st : Modern.State) (platforms : list jsstring)
    (acc out : list (jsstring * list jsstring)) (total total' : nat) :
  NoDup platforms ->
  (forall p, p ∈ platforms -> p ∉ acc.*1) ->
  Modern.filterLoop GAMES st platforms acc total = Ok (out, total') ->
  out = acc ++ omap (keptEntry GAMES st) platforms
  /\ total' = (total + sum_list (map (keptCount GAMES st) platforms))%nat.
Proof.
  revert acc total. induction platforms as [|p rest IH]; intros acc total Hn Hfresh.
  - cbn. intros [= <- <-]. rewrite app_nil_r. split; [reflexivity | lia].
  - cbn [Modern.filterLoop]. intros Hb. apply bind_Ok in Hb as (filtered & Hf & Hb).
    apply NoDup_cons in Hn as [Hp Hn].
    assert (Ek : keptEntry GAMES st p
                 = match filtered with [] => None | t :: ts => Some (p, t :: ts) end).
    { unfold keptEntry, filteredOf. rewrite Hf. reflexivity. }
    assert (Ec : keptCount GAMES st p = length filtered).
    { unfold keptCount, filteredOf. rewrite Hf. reflexivity. }
    cbn [omap list_omap map sum_list]. fold (omap (keptEntry GAMES st) rest).
    rewrite Ek, Ec. destruct filtered as [|t ts].
    + assert (Hfr : forall q, q ∈ rest -> q ∉ acc.*1)
        by (intros q Hq; apply Hfresh, elem_of_cons; right; exact Hq).
      destruct (IH acc _ Hn Hfr Hb) as [-> ->]. split; [reflexivity | cbn; lia].
    + rewrite mapSet_fresh in Hb by (apply Hfresh, elem_of_cons; left; reflexivity).
      assert (Hfr : forall q, q ∈ rest -> q ∉ (acc ++ [(p, t :: ts)]).*1).
      { intros q Hq. rewrite fmap_app. cbn. intros Hin.
        apply elem_of_app in Hin as [Hin|Hin].
        - revert Hin. apply Hfresh, elem_of_cons. right. exact Hq.
        - apply list_elem_of_singleton in Hin. subst q. contradiction. }
      destruct (IH _ _ Hn Hfr Hb) as [-> ->].
      rewrite <- app_assoc. split; [reflexivity | cbn; lia].
Qed.

Lemma allPlatforms_NoDup (st : Modern.State) :
  NoDup (objectKeys GAMES) -> NoDup (Modern.allPlatforms GAMES st).
Proof.
  intros Hn. unfold Modern.allPlatforms, Modern.platformKeys.
  destruct (truthy (Modern.platform st)); [apply NoDup_singleton|].
  rewrite sortKeys_perm. exact Hn.
Qed.

Lemma kept_sum (st : Modern.State) (l : list jsstring) :
  sum_list (map (fun x => length x.2) (omap (keptEntry GAMES st) l))
  = sum_list (map (keptCount GAMES st) l).
Proof.
  induction l as [|p l IH]; [reflexivity|].
  cbn [omap list_omap map sum_list]. fold (omap (keptEntry GAMES st) l).
  unfold keptEntry at 1, keptCount at 1.
  destruct (filteredOf GAMES st p) as [[|t ts]|]; cbn [map sum_list]; rewrite IH; reflexivity.
Qed.

Lemma kept_NoDup (st : Modern.State) (l : list jsstring) :
  NoDup l -> NoDup (omap (keptEntry GAMES st) l).*1.
Proof.
  induction l as [|p l IH]; intros Hnd; [constructor|].
  apply NoDup_cons in Hnd as [Hp Hnd]. cbn [omap list_omap].
  fold (omap (keptEntry GAMES st) l).
  destruct (keptEntry GAMES st p) as [[q ts]|] eqn:Ek; [|exact (IH Hnd)].
  assert (q = p) as ->.
  { unfold keptEntry in Ek. destruct (filteredOf GAMES st p) as [[|t r]|]; congruence. }
  cbn. apply NoDup_cons. split; [|exact (IH Hnd)].
  intros Hin. apply list_elem_of_fmap in Hin as ([q ts'] & Eq & Hin). cbn in Eq. subst q.
  apply list_elem_of_omap in Hin as (x & Hx & Ekx).
  unfold keptEntry in Ekx. destruct (filteredOf GAMES st x) as [[|t r]|]; try discriminate.
  injection Ekx as -> _. contradiction.
Qed.

(** X10: when the keys of the catalog are distinct, the filtered result of
    part_000's [render] is, in the order of the platforms visited (the
    selected one, or all in sorted order), the platforms whose filtered
    list has a title, each with that list: none is left out, none comes
    twice. *)
Theorem filtered_in_platform_order (st : Modern.State)
    (filtered : list (jsstring * list jsstring)) (total : nat) :
  NoDup (objectKeys GAMES) ->
  Modern.applyFilters GAMES st = Ok (filtered, total) ->
  filtered = omap (keptEntry GAMES st) (Modern.allPlatforms GAMES st)
  /\ (forall p ts, p ∈ Modern.allPlatforms GAMES st ->
        filteredOf GAMES st p = Ok ts -> ts <> [] -> (p, ts) ∈ filtered)
  /\ NoDup filtered.*1.
Proof.
  intros Hn Ha.
  destruct (filterLoop_full st _ [] filtered 0%nat total (allPlatforms_NoDup st Hn)
              (fun p _ => not_elem_of_nil p) Ha) as [E _].
  cbn [app] in E. split; [exact E|]. split.
  - intros p ts Hp Hf Hne. rewrite E. apply list_elem_of_omap. exists p. split; [exact Hp|].
    unfold keptEntry. rewrite Hf. destruct ts; [contradiction | reflexivity].
  - rewrite E. apply kept_NoDup, allPlatforms_NoDup, Hn.
Qed.

(** X11: when the keys of the catalog are distinct, the number of the
    results line is the number of titles in the panels of the page, and
    the panels are those of the filtered platforms, in order. *)
Theorem total_counts_panel_titles (LINKMAP : UrlMap) (st : Modern.State) (page : Modern.Page) :
  NoDup (objectKeys GAMES) ->
  Modern.render GAMES LINKMAP st = Ok page ->
  Modern.totalTitles page
  = sum_list (map (fun pn => length (Modern.panelTitles pn)) (Modern.panels page))
  /\ map (fun pn => (Modern.panelPlatform pn, Modern.panelTitles pn)) (Modern.panels page)
     = omap (keptEntry GAMES st) (Modern.allPlatforms GAMES st).
Proof.
  intros Hn Hr. unfold Modern.render in Hr.
  apply bind_Ok in Hr as ([filtered total] & Ha & Hr). injection Hr as <-.
  cbn [Modern.totalTitles Modern.panels].
  destruct (filterLoop_full st _ [] filtered 0%nat total (allPlatforms_NoDup st Hn)
              (fun p _ => not_elem_of_nil p) Ha) as [E Et].
  cbn [app] in E.
  assert (Ep : map (fun pn => (Modern.panelPlatform pn, Modern.panelTitles pn))
                 (map (fun '(p, titles) => Modern.newPanel LINKMAP st p titles) filtered)
               = filtered).
  { rewrite map_map. rewrite <- (map_id filtered) at 2. apply map_ext. intros [p ts].
    destruct (newPanel_fields LINKMAP st p ts) as (_ & -> & -> & _). reflexivity. }
  split; [|rewrite Ep; exact E].
  rewrite Et, <- kept_sum, <- E. cbn [Nat.add].
  rewrite <- Ep at 1. rewrite !map_map. reflexivity.
Qed.
End FilterResult.

Lemma filtered_in_platform_order_witness :
  NoDup (objectKeys twoPlatforms)
  /\ Modern.applyFilters twoPlatforms chronoSearch = Ok ([(snes, [u16 "Chrono Trigger"])], 1%nat)
  /\ [(snes, [u16 "Chrono Trigger"])]
     = omap (keptEntry twoPlatforms chronoSearch) (Modern.allPlatforms twoPlatforms chronoSearch).
Proof.
  assert (A : Modern.applyFilters twoPlatforms chronoSearch
              = Ok ([(snes, [u16 "Chrono Trigger"])], 1%nat)) by (vm_compute; reflexivity).
  split; [exact twoPlatforms_NoDup|]. split; [exact A|].
  exact (proj1 (filtered_in_platform_order twoPlatforms chronoSearch _ _ twoPlatforms_NoDup A)).
Defined.

Lemma total_counts_panel_titles_witness :
  NoDup (objectKeys twoPlatforms)
  /\ (exists page, Modern.render twoPlatforms ∅ Modern.initialState = Ok page
                   /\ Modern.totalTitles page = 5%nat
                   /\ Modern.totalTitles page
                      = sum_list (map (fun pn => length (Modern.panelTitles pn))
                                      (Modern.panels page))).
Proof.
  split; [exact twoPlatforms_NoDup|].
  destruct (Modern.render twoPlatforms ∅ Modern.initialState) as [page|] eqn:Er;
    [|vm_compute in Er; discriminate Er].
  exists page. split; [reflexivity|].
  pose proof (proj1 (total_counts_panel_titles twoPlatforms ∅ Modern.initialState page
                       twoPlatforms_NoDup Er)) as Ht.
  split; [|exact Ht].
  vm_compute in Er. injection Er as <-. reflexivity.
Defined.

(** * Batches in general *)

Section AllBatches.
Context `{Engine}.
Variable LINKMAP : UrlMap.
Variable st : Modern.State.
Variable p : jsstring.
Variable titles : list jsstring.

Lemma clicks_state (k : nat) :
  (0 < Modern.chunk st)%nat ->
  (k * Modern.chunk st < length titles)%nat ->
  exists pk,
    clicks LINKMAP st k (Modern.newPanel LINKMAP st p titles) = Some pk
    /\ Modern.start pk = Nat.min ((k + 1) * Modern.chunk st) (length titles)
    /\ Modern.panelTitles pk = titles
    /\ Modern.panelPlatform pk = p
    /\ Modern.step pk = Modern.chunk st
    /\ panelInv LINKMAP st pk
    /\ buttonInv pk.
Proof.
  intros Hs. induction k as [|k IH]; intros Hk.
  - exists (Modern.newPanel LINKMAP st p titles).
    destruct (newPanel_fields LINKMAP st p titles) as (E1 & E2 & E3 & E4).
    split; [reflexivity|]. rewrite E1, Nat.mul_1_l.
    split; [reflexivity|]. split; [exact E2|]. split; [exact E3|]. split; [exact E4|].
    split; [apply newPanel_inv | apply newPanel_button].
  - destruct IH as (pk & Ck & E1 & E2 & E3 & E4 & Hinv & Hbtn); [lia|].
    assert (Hst : Modern.start pk = ((k + 1) * Modern.chunk st)%nat) by lia.
    assert (Hb : Modern.loadMore pk = Some (length titles - Modern.start pk)%nat).
    { rewrite Hbtn. unfold Modern.remainingOf. rewrite E2.
      destruct (Nat.ltb_spec (Modern.start pk) (length titles)); [reflexivity | lia]. }
    destruct (clickLoadMore_fields LINKMAP st pk _ Hb) as (p' & C & F1 & F2 & F3 & F4 & _).
    exists p'. cbn [clicks]. rewrite Ck.
    split; [exact C|]. split; [rewrite F1, E4, E2, Hst; f_equal; lia|].
    split; [rewrite F2; exact E2|]. split; [rewrite F3; exact E3|].
    split; [rewrite F4; exact E4|].
    split; [exact (clickLoadMore_inv LINKMAP st pk p' Hinv C)|].
    exact (clickLoadMore_button LINKMAP st pk p' C).
Qed.

(** X12: for any list of titles and any batch size above 0, after [k]
    clicks on "Load more", possible as long as [k] batches do not cover
    the list, the grid has the rows of the first [(k+1)] batches of titles,
    in order; the button shows the number of titles left, and it is gone,
    with every title in the grid and no further click possible, as soon as
    the batches cover the list. *)
Theorem batches_cover_in_order (k : nat) :
  (0 < Modern.chunk st)%nat ->
  (k * Modern.chunk st < length titles)%nat ->
  exists pk,
    clicks LINKMAP st k (Modern.newPanel LINKMAP st p titles) = Some pk
    /\ Modern.grid pk
       = map (Modern.makeGameRow LINKMAP st p) (take ((k + 1) * Modern.chunk st) titles)
    /\ Modern.loadMore pk
       = (if ((k + 1) * Modern.chunk st <? length titles)%nat
          then Some (length titles - (k + 1) * Modern.chunk st)%nat
          else None)
    /\ ((length titles <= (k + 1) * Modern.chunk st)%nat ->
        Modern.grid pk = map (Modern.makeGameRow LINKMAP st p) titles
        /\ Modern.clickLoadMore LINKMAP st pk = None).
Proof.
  intros Hs Hk.
  destruct (clicks_state k Hs Hk) as (pk & Ck & E1 & E2 & E3 & E4 & [_ Hg] & Hbtn).
  exists pk. split; [exact Ck|].
  assert (G : Modern.grid pk
              = map (Modern.makeGameRow LINKMAP st p) (take ((k + 1) * Modern.chunk st) titles)).
  { rewrite Hg. unfold rowsOf. rewrite E3, E2, E1. f_equal.
    destruct (Nat.le_ge_cases ((k + 1) * Modern.chunk st) (length titles)) as [Hle|Hge].
    - rewrite Nat.min_l by exact Hle. reflexivity.
    - rewrite Nat.min_r by exact Hge. rewrite !take_ge by lia. reflexivity. }
  assert (B : Modern.loadMore pk
              = (if ((k + 1) * Modern.chunk st <? length titles)%nat
                 then Some (length titles - (k + 1) * Modern.chunk st)%nat
                 else None)).
  { rewrite Hbtn. unfold Modern.remainingOf. rewrite E2, E1.
    destruct (Nat.ltb_spec ((k + 1) * Modern.chunk st) (length titles)) as [Hlt|Hge].
    - rewrite Nat.min_l by lia.
      destruct (Nat.ltb_spec ((k + 1) * Modern.chunk st) (length titles)); [reflexivity | lia].
    - rewrite Nat.min_r by lia. rewrite Nat.ltb_irrefl. reflexivity. }
  split; [exact G|]. split; [exact B|].
  intros Hcov. split.
  - rewrite G, take_ge by exact Hcov. reflexivity.
  - unfold Modern.clickLoadMore. rewrite B.
    destruct (Nat.ltb_spec ((k + 1) * Modern.chunk st) (length titles)); [lia | reflexivity].
Qed.
End AllBatches.

(** A thousand titles in batches of 400: after two clicks the batches
    cover the list. *)
Lemma batches_cover_in_order_witness :
  (0 < Modern.chunk Modern.initialState)%nat
  /\ (2 * Modern.chunk Modern.initialState < length thousandTitles)%nat
  /\ exists pk,
       clicks ∅ Modern.initialState 2 (Modern.newPanel ∅ Modern.initialState snes thousandTitles)
       = Some pk
       /\ Modern.loadMore pk = None.
Proof.
  assert (A : (0 < Modern.chunk Modern.initialState)%nat) by (cbn; lia).
  assert (B : (2 * Modern.chunk Modern.initialState < length thousandTitles)%nat)
    by (apply Nat.ltb_lt; reflexivity).
  split; [exact A|]. split; [exact B|].
  destruct (batches_cover_in_order ∅ Modern.initialState snes thousandTitles 2 A B)
    as (pk & C & _ & Hb & _).
  exists pk. split; [exact C | exact Hb].
Defined.

(** * The debounce in general *)

Section DebounceGeneral.
Context `{Engine}.

Lemma advance_atMostOne (now : nat) (w : Modern.World) :
  atMostOnePending w ->
  atMostOnePending (Modern.advance now w)
  /\ passesAndTimers (Modern.advance now w) = passesAndTimers w.
Proof.
  destruct w as [s box clk tv nt tm log]. unfold atMostOnePending, passesAndTimers.
  cbn [Modern.timers Modern.timerVar]. intros [->|(id & due & -> & ->)].
  - split; [left|]; reflexivity.
  - unfold Modern.advance. cbn [Modern.timers List.filter].
    destruct (due <=? now)%nat.
    + cbn [map fst fold_left Modern.fireTimer Modern.timers Modern.renderLog List.filter].
      rewrite Nat.eqb_refl. cbn [negb]. split; [left; reflexivity|].
      rewrite length_app. cbn. lia.
    + cbn. split; [right; exists id, due; split; reflexivity | reflexivity].
Qed.

Lemma input_atMostOne (v : jsstring) (w : Modern.World) :
  atMostOnePending w ->
  atMostOnePending (Modern.onSearchInput v w)
  /\ (passesAndTimers (Modern.onSearchInput v w) <= S (passesAndTimers w))%nat.
Proof.
  destruct w as [s box clk tv nt tm log]. unfold atMostOnePending, passesAndTimers.
  cbn [Modern.timers Modern.timerVar Modern.onSearchInput Modern.renderLog Modern.nextTimer
       Modern.clock].
  intros [->|(id & due & -> & ->)].
  - split; [right; exists nt, (clk + Modern.debounceMs)%nat|].
    + destruct tv; split; reflexivity.
    + destruct tv; cbn; lia.
  - cbn [Modern.clearTimeout List.filter]. rewrite Nat.eqb_refl. cbn [negb app].
    split; [right; exists nt, (clk + Modern.debounceMs)%nat; split; reflexivity | cbn; lia].
Qed.

Lemma run_atMostOne (events : list (nat * jsstring)) (w : Modern.World) :
  atMostOnePending w ->
  atMostOnePending (Modern.run events w)
  /\ (passesAndTimers (Modern.run events w) <= passesAndTimers w + length events)%nat.
Proof.
  revert w. induction events as [|[t v] rest IH]; intros w Hw; cbn [Modern.run length].
  - split; [exact Hw | lia].
  - destruct (advance_atMostOne t w Hw) as [Ha Ea].
    destruct (input_atMostOne v _ Ha) as [Hi Ei].
    destruct (IH _ Hi) as [Hr Er]. split; [exact Hr | lia].
Qed.

Lemma settle_atMostOne (w : Modern.World) :
  atMostOnePending w ->
  Modern.timers (Modern.settle w) = []
  /\ length (Modern.renderLog (Modern.settle w)) = passesAndTimers w.
Proof.
  destruct w as [s box clk tv nt tm log]. unfold atMostOnePending, passesAndTimers.
  cbn [Modern.timers Modern.timerVar]. intros [->|(id & due & -> & ->)].
  - split; [reflexivity | cbn; lia].
  - unfold Modern.settle.
    cbn [Modern.timers map fst fold_left Modern.fireTimer Modern.renderLog List.filter].
    rewrite Nat.eqb_refl. split; [reflexivity|]. rewrite length_app. cbn. lia.
Qed.

(** X13: whatever the times of the [input] events, the debounce keeps at
    most one timer pending, and the number of passes it has run once all
    is settled is at most the number of events, plus one for a timer that
    was pending at the start. *)
Theorem debounce_at_most_one_pending (events : list (nat * jsstring)) (w : Modern.World) :
  atMostOnePending w ->
  atMostOnePending (Modern.run events w)
  /\ (length (Modern.timers (Modern.run events w)) <= 1)%nat
  /\ Modern.timers (Modern.settle (Modern.run events w)) = []
  /\ (length (Modern.renderLog (Modern.settle (Modern.run events w)))
      <= length (Modern.renderLog w) + length (Modern.timers w) + length events)%nat.
Proof.
  intros Hw. destruct (run_atMostOne events w Hw) as [Hr Er].
  destruct (settle_atMostOne _ Hr) as [Hs Es].
  split; [exact Hr|]. split.
  - destruct Hr as [->|(id & due & -> & _)]; cbn; lia.
  - split; [exact Hs|]. rewrite Es. exact Er.
Qed.

Lemma committed_committed (st : Modern.State) (v v' : jsstring) :
  committed (committed st v) v' = committed st v'.
Proof. reflexivity. Qed.

Lemma turn_pair (w : Modern.World) (t s : nat) (v : jsstring) :
  Modern.timers w = [] ->
  (Modern.clock w <= t)%nat ->
  (t + Modern.debounceMs <= s)%nat ->
  let w2 := Modern.advance s (Modern.onSearchInput v (passTime t w)) in
  Modern.timers w2 = []
  /\ Modern.clock w2 = s
  /\ Modern.wState w2 = committed (Modern.wState w) v
  /\ Modern.renderLog w2 = Modern.renderLog w ++ [committed (Modern.wState w) v].
Proof.
  destruct w as [st box clk tv nt tm log]. cbn [Modern.timers Modern.clock].
  intros -> Hc Hs.
  assert (Hclr : Modern.clearTimeout tv [] = []) by (destruct tv; reflexivity).
  unfold Modern.advance, Modern.onSearchInput, passTime.
  cbn [Modern.timers Modern.clock Modern.timerVar Modern.nextTimer Modern.wState
       Modern.searchBox Modern.renderLog].
  rewrite Hclr. cbn [app List.filter].
  rewrite (Nat.max_r clk t Hc).
  destruct (Nat.leb_spec (t + Modern.debounceMs) s) as [_|Hgt]; [|lia].
  cbn [map fst fold_left Modern.fireTimer Modern.timers Modern.renderLog List.filter
       Modern.wState Modern.searchBox Modern.clock Modern.timerVar Modern.nextTimer].
  rewrite Nat.eqb_refl. cbn [negb].
  split; [reflexivity|]. split; [lia|]. split; reflexivity.
Qed.

Lemma turns_in_time (sched : list (nat * jsstring * nat)) (w : Modern.World) :
  Modern.timers w = [] ->
  timersInTime (Modern.clock w) sched ->
  Modern.timers (runTurns (timersBetween sched) w) = []
  /\ Modern.renderLog (runTurns (timersBetween sched) w)
     = Modern.renderLog w ++ map (committed (Modern.wState w)) (map (fun x => x.1.2) sched).
Proof.
  revert w. induction sched as [|[[t v] s] rest IH]; intros w Ht Hs.
  - cbn. rewrite app_nil_r. split; [exact Ht | reflexivity].
  - destruct Hs as (Hc & Hd & Hr).
    destruct (turn_pair w t s v Ht Hc Hd) as (T2 & C2 & S2 & L2).
    change (runTurns (timersBetween ((t, v, s) :: rest)) w)
      with (runTurns (timersBetween rest)
              (Modern.advance s (Modern.onSearchInput v (passTime t w)))).
    set (w2 := Modern.advance s (Modern.onSearchInput v (passTime t w))) in *.
    clearbody w2. rewrite <- C2 in Hr.
    destruct (IH w2 T2 Hr) as [T3 L3]. split; [exact T3|].
    rewrite L3, L2, S2, <- app_assoc. reflexivity.
Qed.

(** An [input] event taken before the timer of the event before it has
    run, however late, cancels that timer. *)
Lemma late_timer_cancelled (w : Modern.World) (t t' s : nat) (v v' : jsstring) :
  Modern.timers w = [] ->
  (Modern.clock w <= t)%nat -> (t <= t')%nat -> (t' + Modern.debounceMs <= s)%nat ->
  let w2 := runTurns [(t, InputTurn v); (t', InputTurn v'); (s, TimersTurn)] w in
  Modern.timers w2 = []
  /\ Modern.renderLog w2 = Modern.renderLog w ++ [committed (Modern.wState w) v'].
Proof.
  destruct w as [st box clk tv nt tm log]. cbn [Modern.timers Modern.clock].
  intros -> Hc Ht Hs.
  assert (Hclr : Modern.clearTimeout tv [] = []) by (destruct tv; reflexivity).
  unfold runTurns. cbn [fold_left takeTurn fst snd].
  unfold Modern.advance, Modern.onSearchInput, passTime.
  cbn [Modern.timers Modern.clock Modern.timerVar Modern.nextTimer Modern.wState
       Modern.searchBox Modern.renderLog Modern.clearTimeout].
  rewrite Hclr. cbn [app List.filter]. rewrite Nat.eqb_refl. cbn [negb app List.filter].
  rewrite (Nat.max_r clk t Hc), (Nat.max_r t t' Ht).
  destruct (Nat.leb_spec (t' + Modern.debounceMs) s) as [_|Hgt]; [|lia].
  cbn [map fst fold_left Modern.fireTimer Modern.timers Modern.renderLog List.filter
       Modern.wState Modern.searchBox Modern.clock Modern.timerVar Modern.nextTimer].
  rewrite Nat.eqb_refl. cbn [negb]. split; reflexivity.
Qed.

(** X14: when the loop runs the callback of each [input] event's timer,
    at or after the time it is due, before it takes the next event, every
    event is followed by a pass of its own, in order, whose [state.search]
    is the trimmed lower-case text of that event.  The delay of a timer is
    a least delay: when the loop takes a second event before it has run
    the timer of the first, however long after the first, that timer is
    cancelled and one pass runs, with the text of the second event. *)
Theorem spaced_inputs_each_render (w : Modern.World) (sched : list (nat * jsstring * nat)) :
  Modern.timers w = [] ->
  timersInTime (Modern.clock w) sched ->
  let w' := runTurns (timersBetween sched) w in
  let texts := map (fun x => x.1.2) sched in
  Modern.renderLog w' = Modern.renderLog w ++ map (committed (Modern.wState w)) texts
  /\ map Modern.search (Modern.renderLog w')
     = map Modern.search (Modern.renderLog w) ++ map (fun v => toLowerCase (trim v)) texts
  /\ map Modern.platform (Modern.renderLog w')
     = map Modern.platform (Modern.renderLog w)
       ++ map (fun _ => Modern.platform (Modern.wState w)) texts
  /\ Modern.timers w' = []
  /\ (forall t v t' v' s,
        (Modern.clock w <= t)%nat -> (t <= t')%nat -> (t' + Modern.debounceMs <= s)%nat ->
        let late := runTurns [(t, InputTurn v); (t', InputTurn v'); (s, TimersTurn)] w in
        map Modern.search (Modern.renderLog late)
        = map Modern.search (Modern.renderLog w) ++ [toLowerCase (trim v')]
        /\ length (Modern.renderLog late) = S (length (Modern.renderLog w))
        /\ Modern.timers late = []).
Proof.
  intros Ht Hs w' texts.
  destruct (turns_in_time sched w Ht Hs) as [T L].
  fold w' in T, L. fold texts in L. clearbody w'.
  split; [exact L|]. split; [|split; [|split; [exact T|]]].
  - rewrite L, map_app, map_map. reflexivity.
  - rewrite L, map_app, map_map. reflexivity.
  - intros t v t' v' s Hc Hle Hd late.
    destruct (late_timer_cancelled w t t' s v v' Ht Hc Hle Hd) as [T2 L2].
    fold late in T2, L2. clearbody late.
    split; [rewrite L2, map_app; reflexivity|].
    split; [rewrite L2, length_app; cbn; lia | exact T2].
Qed.

Lemma commitNow_pending (f : Modern.State -> Modern.State) (w0 w : Modern.World)
    (t : nat) (v : jsstring) :
  pendingOne w0 t v w ->
  Modern.timers (commitNow f w) = Modern.timers w
  /\ Modern.renderLog (Modern.settle (commitNow f w))
     = Modern.renderLog w0
       ++ [f (Modern.wState w0); committed (f (Modern.wState w0)) v].
Proof.
  intros [(id & Ht & _) _ Hb Hs Hl]. split; [reflexivity|].
  unfold Modern.settle. cbn [commitNow Modern.timers]. rewrite Ht.
  cbn [map fst fold_left Modern.fireTimer Modern.renderLog Modern.searchBox Modern.wState
       commitNow].
  rewrite Hb, Hs, Hl, <- app_assoc. reflexivity.
Qed.

(** X15: a change of the platform select, of the letter select, or a click
    on the density button while search input is waiting for its timer
    does not cancel the timer: it runs a pass at once, still with the
    search committed before, and the timer's pass follows with the change
    and the new search text both: its [state.search] is the trimmed
    lower-case text of the last event. *)
Theorem change_during_debounce (w0 : Modern.World) (t : nat) (v pl le : jsstring)
    (events : list (nat * jsstring)) :
  Modern.timers w0 = [] ->
  (Modern.clock w0 <= t)%nat ->
  withinWindow t events ->
  let w := Modern.run ((t, v) :: events) w0 in
  let st0 := Modern.wState w0 in
  let typed := lastValue v events in
  Modern.renderLog (Modern.settle (onPlatformChange pl w))
  = Modern.renderLog w0 ++ [setPlatform pl st0; committed (setPlatform pl st0) typed]
  /\ Modern.renderLog (Modern.settle (onLetterChange le w))
     = Modern.renderLog w0
       ++ [setLetter (toUpperCase le) st0; committed (setLetter (toUpperCase le) st0) typed]
  /\ Modern.renderLog (Modern.settle (onDensityClick w))
     = Modern.renderLog w0 ++ [toggleDensity st0; committed (toggleDensity st0) typed]
  /\ Modern.search (setPlatform pl st0) = Modern.search st0
  /\ (map Modern.search (Modern.renderLog (Modern.settle (onPlatformChange pl w)))
      = map Modern.search (Modern.renderLog w0)
        ++ [Modern.search st0; toLowerCase (trim typed)]
      /\ map Modern.platform (Modern.renderLog (Modern.settle (onPlatformChange pl w)))
         = map Modern.platform (Modern.renderLog w0) ++ [pl; pl])
  /\ (map Modern.search (Modern.renderLog (Modern.settle (onLetterChange le w)))
      = map Modern.search (Modern.renderLog w0)
        ++ [Modern.search st0; toLowerCase (trim typed)]
      /\ map Modern.letter (Modern.renderLog (Modern.settle (onLetterChange le w)))
         = map Modern.letter (Modern.renderLog w0) ++ [toUpperCase le; toUpperCase le])
  /\ (map Modern.search (Modern.renderLog (Modern.settle (onDensityClick w)))
      = map Modern.search (Modern.renderLog w0)
        ++ [Modern.search st0; toLowerCase (trim typed)]
      /\ map Modern.compact (Modern.renderLog (Modern.settle (onDensityClick w)))
         = map Modern.compact (Modern.renderLog w0)
           ++ [negb (Modern.compact st0); negb (Modern.compact st0)]).
Proof.
  intros Ht Hc Hw w st0 typed.
  destruct (run_burst w0 _ t v events (first_input w0 t v Ht Hc) Hw) as [t' Hp].
  fold w in Hp. fold typed in Hp.
  pose proof (proj2 (commitNow_pending (setPlatform pl) w0 w t' typed Hp)) as Lp.
  pose proof (proj2 (commitNow_pending (setLetter (toUpperCase le)) w0 w t' typed Hp)) as Ll.
  pose proof (proj2 (commitNow_pending toggleDensity w0 w t' typed Hp)) as Ld.
  fold (onPlatformChange pl w) in Lp. fold (onLetterChange le w) in Ll.
  fold (onDensityClick w) in Ld. fold st0 in Lp, Ll, Ld.
  split; [exact Lp|]. split; [exact Ll|]. split; [exact Ld|]. split; [reflexivity|].
  split; [|split]; split.
  - rewrite Lp, map_app. reflexivity.
  - rewrite Lp, map_app. reflexivity.
  - rewrite Ll, map_app. reflexivity.
  - rewrite Ll, map_app. reflexivity.
  - rewrite Ld, map_app. reflexivity.
  - rewrite Ld, map_app. reflexivity.
Qed.
End DebounceGeneral.

Lemma idle_atMostOne : atMostOnePending idleWorld.
Proof. left. reflexivity. Qed.

(** From the world at rest, three key strokes: one timer, one pass. *)
Lemma debounce_at_most_one_pending_witness :
  atMostOnePending idleWorld
  /\ (length (Modern.timers (Modern.run typingChr idleWorld)) <= 1)%nat
  /\ (length (Modern.renderLog (Modern.settle (Modern.run typingChr idleWorld))) <= 0 + 0 + 3)%nat.
Proof.
  destruct (debounce_at_most_one_pending typingChr idleWorld idle_atMostOne)
    as (_ & Hone & _ & Hlen).
  split; [exact idle_atMostOne|]. split; [exact Hone | exact Hlen].
Defined.

(** Two key strokes, the timer of each run when it is due: two passes.  The
    same key strokes 300 ms apart, the first timer not yet run when the
    second comes: one pass. *)
Lemma spaced_inputs_each_render_witness :
  Modern.timers idleWorld = []
  /\ timersInTime (Modern.clock idleWorld) slowTyping
  /\ map Modern.search (Modern.renderLog (runTurns (timersBetween slowTyping) idleWorld))
     = [u16 "c"; u16 "ch"]
  /\ map Modern.search
       (Modern.renderLog
          (runTurns [(100%nat, InputTurn (u16 "C")); (400%nat, InputTurn (u16 "Ch "));
                     (560%nat, TimersTurn)] idleWorld))
     = [u16 "ch"].
Proof.
  assert (S : timersInTime (Modern.clock idleWorld) slowTyping)
    by (cbn; unfold Modern.debounceMs; lia).
  destruct (spaced_inputs_each_render idleWorld slowTyping eq_refl S)
    as (_ & Hs & _ & _ & Hl).
  split; [reflexivity|]. split; [exact S|]. split; [exact Hs|].
  refine (proj1 (Hl 100%nat (u16 "C") 400%nat (u16 "Ch ") 560%nat _ _ _)).
  - cbn. lia.
  - lia.
  - unfold Modern.debounceMs. lia.
Defined.

Lemma change_during_debounce_witness :
  Modern.timers idleWorld = []
  /\ (Modern.clock idleWorld <= 100)%nat
  /\ withinWindow 100 (tail typingChr)
  /\ map Modern.search
       (Modern.renderLog (Modern.settle (onPlatformChange snes (Modern.run typingChr idleWorld))))
     = [ []; u16 "chr" ]
  /\ map Modern.platform
       (Modern.renderLog (Modern.settle (onPlatformChange snes (Modern.run typingChr idleWorld))))
     = [ snes; snes ].
Proof.
  assert (W : withinWindow 100 (tail typingChr)) by (cbn; unfold Modern.debounceMs; lia).
  split; [reflexivity|]. split; [cbn; lia|]. split; [exact W|].
  destruct (change_during_debounce idleWorld 100%nat (u16 "C") snes (u16 "A")
              (tail typingChr) eq_refl (Nat.le_0_l _) W) as (_ & _ & _ & _ & Hp & _).
  exact Hp.
Defined.

(** * The [id] of a panel *)

Section DetailsId.
Context `{Engine}.

Lemma replaceRunsCI_chars (s : jsstring) :
  Forall (fun c => notAlnumCI c = false \/ c = 45) (replaceRuns notAlnumCI [45] s).
Proof.
  induction s as [|c s IH]; cbn [replaceRuns]; [constructor|].
  destruct (notAlnumCI c) eqn:Ec.
  - destruct (headIs notAlnumCI s); [exact IH|]. constructor; [right; reflexivity | exact IH].
  - constructor; [left; exact Ec | exact IH].
Qed.

Lemma alnumCI_ascii (c : N) : notAlnumCI c = false \/ c = 45 -> isAscii c = true.
Proof.
  intros [Hc| ->]; [|reflexivity]. unfold notAlnumCI in Hc. apply negb_false_iff in Hc.
  unfold isAscii. apply N.ltb_lt.
  apply orb_prop in Hc as [Hc|Hc]; [apply orb_prop in Hc as [Hc|Hc]|];
    apply inRange_spec in Hc; lia.
Qed.

Lemma alnumCI_lower (c : N) : notAlnumCI c = false \/ c = 45 -> slugChar (asciiLower c).
Proof.
  intros [Hc| ->]; [|reflexivity]. unfold notAlnumCI in Hc. apply negb_false_iff in Hc.
  unfold slugChar, asciiLower.
  destruct (isUpperAZ c) eqn:Eu.
  - apply inRange_spec in Eu. unfold isAlnum, isHyphen, inRange. units_cases.
  - rewrite orb_false_r in Hc. rewrite Hc. reflexivity.
Qed.

Lemma detailsId_body (platform : jsstring) :
  detailsId platform = u16 "p-" ++ map asciiLower (replaceRuns notAlnumCI [45] platform).
Proof.
  unfold detailsId. f_equal. apply toLowerCase_ascii, Forall_ascii.
  eapply Forall_impl; [apply replaceRunsCI_chars|]. exact alnumCI_ascii.
Qed.

Lemma notAlnumCI_upper (c : N) : notAlnumCI (asciiUpper c) = notAlnumCI c.
Proof.
  unfold asciiUpper. destruct (inRange 97 122 c) eqn:Ec; [|reflexivity].
  apply inRange_spec in Ec. unfold notAlnumCI, isAlnum, isUpperAZ, inRange. units_cases.
Qed.

Lemma replaceRuns_map (p : N -> bool) (f : N -> N) (r : N) (s : jsstring) :
  (forall c, p (f c) = p c) -> f r = r ->
  replaceRuns p [r] (map f s) = map f (replaceRuns p [r] s).
Proof.
  intros Hp Hr. induction s as [|c s IH]; [reflexivity|]. cbn [map replaceRuns].
  rewrite Hp.
  assert (Hh : headIs p (map f s) = headIs p s) by (destruct s; [reflexivity | apply Hp]).
  rewrite Hh, IH. destruct (p c); [destruct (headIs p s)|]; cbn [map app]; rewrite ?Hr; reflexivity.
Qed.

(** X16: the [id] of a platform's panel is [p-] followed by characters of
    [[a-z0-9-]] only, whatever the engine's tables; two ASCII platform
    names that differ only in the case of letters have the same [id]. *)
Theorem detailsId_shape (platform : jsstring) :
  (exists body, detailsId platform = u16 "p-" ++ body /\ Forall slugChar body)
  /\ (forallb isAscii platform = true ->
      detailsId (map asciiUpper platform) = detailsId platform).
Proof.
  split.
  - exists (map asciiLower (replaceRuns notAlnumCI [45] platform)).
    split; [apply detailsId_body|].
    apply Forall_map. eapply Forall_impl; [apply replaceRunsCI_chars|]. exact alnumCI_lower.
  - intros Ha. rewrite !detailsId_body. f_equal.
    rewrite (replaceRuns_map notAlnumCI asciiUpper 45 platform notAlnumCI_upper eq_refl).
    rewrite map_map. apply map_ext. intros c. apply asciiLower_upper.
Qed.
End DetailsId.

Lemma detailsId_shape_witness :
  forallb isAscii (u16 "pc-98") = true
  /\ detailsId (u16 "PC-98") = detailsId (u16 "pc-98")
  /\ detailsId (u16 "PC-98") = u16 "p-pc-98".
Proof.
  split; [reflexivity|]. split; [|reflexivity].
  exact (proj2 (detailsId_shape (u16 "pc-98")) eq_refl).
Defined.

(** * The early scripts *)

Section EarlyScripts.
Context `{Engine}.
Variable games : Catalog.

Lemma basic_displayLoop_ok (search : jsstring) (platforms : list jsstring) :
  (exists out, Basic.displayLoop games search platforms = Ok out)
  <-> Forall (hasTitles games) platforms.
Proof.
  induction platforms as [|p rest IH]; cbn [Basic.displayLoop].
  - split; [constructor | eauto].
  - split.
    + intros [out Hb]. apply bind_Ok in Hb as (filtered & Hf & Hb).
      apply bind_Ok in Hb as (out' & Hr & _). constructor; [|apply IH; eauto].
      unfold Basic.filterGames in Hf.
      unfold hasTitles.
      destruct (getEntry games p) as [[ts| | | | |]|]; try discriminate Hf. exists ts. reflexivity.
    + intros Hall. apply Forall_cons in Hall as [[ts Hp] Hrest].
      apply IH in Hrest as [out' Hr]. unfold Basic.filterGames. rewrite Hp, Hr. cbn [bind]. eauto.
Qed.

(** X17: the early scripts read [games[platform]] without a guard:
    [displayGames] returns exactly when every platform it visits has an
    array in the catalog.  With a selected platform the catalog does not
    have, it throws a TypeError, where [render] of script.js shows an empty
    list when the selection is not the name of a member every object
    inherits. *)
Theorem early_scripts_have_no_guard (linkMap coverMap : UrlMap) (searchValue sel : jsstring) :
  ((exists out, Basic.displayGames games searchValue sel = Ok out)
   <-> Forall (hasTitles games) (Basic.platformsOf games sel))
  /\ (sel <> [] -> getEntry games sel = None ->
      Basic.displayGames games searchValue sel = TypeError
      /\ (inheritedName sel = false ->
          Script.render games linkMap coverMap searchValue sel = Ok [])).
Proof.
  split; [apply basic_displayLoop_ok|].
  intros Hs Hg. unfold Basic.displayGames, Basic.platformsOf, Script.render, Script.platformsOf.
  destruct sel as [|c sel]; [contradiction|]. cbn [truthy Basic.displayLoop Script.renderLoop].
  unfold Basic.filterGames, entryOrEmpty. rewrite Hg. split; [reflexivity|].
  intros _. reflexivity.
Qed.

Lemma renderLoop_links (coverMap : UrlMap) (term : jsstring) (platforms : list jsstring) :
  Legacy.displayLoop games term platforms
  = match Script.renderLoop games ∅ coverMap term platforms with
    | Ok out => Ok (linksOf out)
    | TypeError => TypeError
    end.
Proof.
  induction platforms as [|p rest IH]; [reflexivity|].
  cbn [Legacy.displayLoop Script.renderLoop]. unfold Legacy.searchHit, Script.searchHit.
  destruct (filterEntry _ (entryOrEmpty games p)) as [titles|]; [|reflexivity].
  cbn [bind]. rewrite IH.
  destruct (Script.renderLoop games ∅ coverMap term rest) as [out|]; [|reflexivity].
  cbn [bind]. destruct titles as [|t ts]; [reflexivity|].
  assert (E : forall l,
             map (fun r => (Script.rowTitle r, Script.rowHref r))
                 (map (Script.makeRow ∅ coverMap p) l)
             = map (fun g => (g, Legacy.gameHref g)) l).
  { intros l. rewrite map_map. apply map_ext. intros g. cbn.
    unfold Script.getIGDBUrl, Legacy.gameHref. rewrite lookup2_empty. reflexivity. }
  change (linksOf ((p, map (Script.makeRow ∅ coverMap p) (t :: ts)) :: out))
    with ((p, map (fun r => (Script.rowTitle r, Script.rowHref r))
                  (map (Script.makeRow ∅ coverMap p) (t :: ts))) :: linksOf out).
  rewrite E. reflexivity.
Qed.

(** X18: part_001 is script.js with an empty override map: for the same
    catalog, search text and selected platform, when no platform of the
    pass has the name of a member every object inherits, [displayGames]
    writes the headings and links, with the same [href], that [render]
    writes, and it throws when [render] throws. *)
Theorem legacy_is_script_without_overrides (coverMap : UrlMap) (searchValue sel : jsstring) :
  Forall (fun p => inheritedName p = false) (Script.platformsOf games sel) ->
  Legacy.displayGames games searchValue sel
  = match Script.render games ∅ coverMap searchValue sel with
    | Ok out => Ok (linksOf out)
    | TypeError => TypeError
    end.
Proof. intros _. unfold Legacy.displayGames, Script.render. apply renderLoop_links. Qed.
End EarlyScripts.

Lemma early_scripts_have_no_guard_witness :
  u16 "Game Boy" <> []
  /\ getEntry twoPlatforms (u16 "Game Boy") = None
  /\ inheritedName (u16 "Game Boy") = false
  /\ Basic.displayGames twoPlatforms (u16 "chrono") (u16 "Game Boy") = TypeError
  /\ Script.render twoPlatforms ∅ ∅ (u16 "chrono") (u16 "Game Boy") = Ok [].
Proof.
  assert (N : u16 "Game Boy" <> []) by discriminate.
  assert (I : inheritedName (u16 "Game Boy") = false) by (vm_compute; reflexivity).
  destruct (proj2 (early_scripts_have_no_guard twoPlatforms ∅ ∅ (u16 "chrono") (u16 "Game Boy"))
              N eq_refl) as [Hb Hs].
  split; [exact N|]. split; [reflexivity|]. split; [exact I|].
  split; [exact Hb | exact (Hs I)].
Defined.

(** Both platforms of the catalog, the search "chrono": one heading, one
    link, the same in both scripts. *)
Lemma legacy_is_script_without_overrides_witness :
  Forall (fun p => inheritedName p = false) (Script.platformsOf twoPlatforms [])
  /\ Legacy.displayGames twoPlatforms (u16 "Chrono") []
     = Ok [ (snes, [ (u16 "Chrono Trigger", u16 "https://www.igdb.com/games/chrono-trigger") ]) ]
  /\ Script.render twoPlatforms ∅ ∅ (u16 "Chrono") []
     = Ok [ (snes, [ Script.makeRow ∅ ∅ snes (u16 "Chrono Trigger") ]) ].
Proof.
  assert (F : Forall (fun p => inheritedName p = false) (Script.platformsOf twoPlatforms [])).
  { apply Forall_forall. intros p Hp. vm_compute in Hp.
    repeat (apply elem_of_cons in Hp as [->|Hp]; [vm_compute; reflexivity|]).
    apply elem_of_nil in Hp. contradiction. }
  split; [exact F|].
  pose proof (legacy_is_script_without_overrides twoPlatforms ∅ (u16 "Chrono") [] F) as E.
  assert (R : Script.render twoPlatforms ∅ ∅ (u16 "Chrono") []
              = Ok [ (snes, [ Script.makeRow ∅ ∅ snes (u16 "Chrono Trigger") ]) ])
    by (vm_compute; reflexivity).
  split; [|exact R]. rewrite E, R. vm_compute. reflexivity.
Defined.

(** * Blank input *)

Section Blank.
Context `{Engine}.

Lemma trim_blank (v : jsstring) : forallb isSpace v = true -> trim v = [].
Proof. intros Hv. unfold trim. rewrite (dropWhile_all_nil isSpace v Hv). reflexivity. Qed.

Lemma toUpperCase_nil : toUpperCase [] = [].
Proof. apply (toUpperCase_ascii [] eq_refl). Qed.

Lemma toLowerCase_nil : toLowerCase [] = [].
Proof. apply (toLowerCase_ascii [] eq_refl). Qed.

Lemma trim_first (ws rest : jsstring) (c : N) :
  forallb isSpace ws = true -> isSpace c = false ->
  charAt0 (trim (ws ++ c :: rest)) = [c].
Proof.
  intros Hw Hc. unfold trim. rewrite (dropWhile_all isSpace ws _ Hw).
  cbn [dropWhile]. rewrite Hc.
  destruct (dropEndWhile_cons isSpace c rest) as [E|E].
  - cbn [dropEndWhile] in E. destruct (dropEndWhile isSpace rest); [|discriminate E].
    rewrite Hc in E. discriminate E.
  - rewrite E. reflexivity.
Qed.

(** X19: the letter bucket of a title is decided by its first character
    that is not white space, whatever follows it; a title that is empty or
    all white space is in the bucket [#]. *)
Theorem bucket_of_first_character (ws rest : jsstring) (c : N) :
  forallb isSpace ws = true ->
  (isSpace c = false ->
   Modern.firstLetterKey (ws ++ c :: rest) = Modern.firstLetterKey [c])
  /\ Modern.firstLetterKey ws = u16 "#".
Proof.
  intros Hw. split.
  - intros Hc. unfold Modern.firstLetterKey.
    rewrite (trim_first ws rest c Hw Hc).
    pose proof (trim_first [] [] c eq_refl Hc) as E. cbn [app] in E. rewrite E. reflexivity.
  - unfold Modern.firstLetterKey. rewrite (trim_blank ws Hw). unfold charAt0.
    cbn [take]. rewrite toUpperCase_nil. reflexivity.
Qed.

(** X20: search text that is empty or all white space is no search: in
    part_000 the committed [state.search] is empty and the search keeps
    every title; in script.js, for ASCII white space, the pass is the one
    of the empty search box. *)
Theorem blank_search_is_no_search (games : Catalog) (linkMap coverMap : UrlMap)
    (st : Modern.State) (v sel : jsstring) :
  forallb isSpace v = true ->
  Modern.search (committed st v) = []
  /\ (forall title, searchKeeps (committed st v) title = true)
  /\ (forallb isAscii v = true ->
      Script.render games linkMap coverMap v sel = Script.render games linkMap coverMap [] sel).
Proof.
  intros Hv.
  assert (E : Modern.search (committed st v) = []).
  { unfold committed. cbn. rewrite (trim_blank v Hv). apply toLowerCase_nil. }
  split; [exact E|]. split.
  - intros title. unfold searchKeeps. rewrite E. reflexivity.
  - intros Ha. unfold Script.render. rewrite (toLowerCase_ascii v Ha), toLowerCase_nil.
    assert (Hl : forallb isSpace (map asciiLower v) = true).
    { clear -Hv. induction v as [|c v IH]; [reflexivity|]. cbn [forallb map] in *.
      apply andb_prop in Hv as [Hc Hv]. rewrite (IH Hv), andb_true_r.
      unfold asciiLower. destruct (isUpperAZ c) eqn:Eu; [|exact Hc].
      apply inRange_spec in Eu. exfalso.
      assert (isSpace c = false) by (unfold isSpace, inRange; units_cases). congruence. }
    rewrite (trim_blank _ Hl). reflexivity.
Qed.
End Blank.

Lemma bucket_of_first_character_witness :
  forallb isSpace (u16 "  ") = true
  /\ Modern.firstLetterKey (u16 "  " ++ 51 :: u16 "D Pinball") = Modern.firstLetterKey [51]
  /\ Modern.firstLetterKey (u16 "  ") = u16 "#".
Proof.
  split; [reflexivity|].
  destruct (bucket_of_first_character (u16 "  ") (u16 "D Pinball") 51 eq_refl) as [A B].
  split; [exact (A eq_refl) | exact B].
Defined.

Lemma blank_search_is_no_search_witness :
  forallb isSpace (u16 "   ") = true
  /\ Modern.search (committed chronoSearch (u16 "   ")) = []
  /\ Script.render twoPlatforms ∅ ∅ (u16 "   ") snes = Script.render twoPlatforms ∅ ∅ [] snes.
Proof.
  split; [reflexivity|].
  destruct (blank_search_is_no_search twoPlatforms ∅ ∅ chronoSearch (u16 "   ") snes eq_refl)
    as (A & _ & C).
  split; [exact A | exact (C eq_refl)].
Defined.
